(** * Dialogue management of the agent framework (aea/helpers/dialogue/base.py)

    A shallow embedding of the three classes of the module

    - [DialogueLabel]: the identifier of a dialogue,
    - [Dialogue]: the state of one dialogue and its validity rules,
    - [Dialogues]: the per-agent registry of dialogues,

    followed by the properties of the specification that were settled
    against it.

    Modelling conventions.

    - Python [int] is [Z]; Python [str] contents are [string].
    - A [dict] keyed by labels is a [gmap] keyed by what the label's
      [__eq__] and [__hash__] look at (see [DialogueLabel.key]).
    - An address is a Python [str] object.  The source compares addresses by
      contents ([==], dictionary keys) and, in [Dialogue.__init__], by
      object identity ([is not]).  An address is therefore a pair of the
      identity of the object and of its characters.
    - Exceptions are values of [Exn]; a method of [Dialogue] returns a
      [Result]; a method of [Dialogues] is a state transformer that returns
      a [Result] together with the registry it leaves behind, also when it
      raises.
    - The registry holds every dialogue object under one key of its
      dictionary: [_create] stores a new object, and
      [_complete_dialogue_reference] pops an object before it stores it
      again.  The dictionary is therefore a map from keys to dialogues, and
      a modification in place of a dialogue found under a key is written
      back under that key.
    - The rules of a protocol are the members that [Dialogue] leaves
      abstract: the three properties return constants of the concrete
      class; [is_valid] is a method of the concrete class, which returns a
      pair or raises.
    - [secrets.token_hex] is the only source of non-determinism; the bytes
      it draws from the operating system are an argument of the operations
      that generate a nonce. *)

From Stdlib Require Import ZArith NArith Ascii String List Lia.
From Stdlib Require Strings.Byte.
From stdpp Require Import base decidable option list strings gmap fin_maps.

Local Open Scope Z_scope.

(** ** Exceptions *)

Inductive Exn : Type :=
| InvalidDialogueMessage (reason : string)
| AssertionError (reason : string)
| SyntaxError (reason : string)
| ValueError
| AttributeError.

Inductive Result (A : Type) : Type :=
| Ok (a : A)
| Raise (e : Exn).

Arguments Ok {A} a.
Arguments Raise {A} e.

Definition bind {A B : Type} (r : Result A) (f : A → Result B) : Result B :=
  match r with
  | Ok a => f a
  | Raise e => Raise e
  end.

Notation "x <- c ; k" := (bind c (fun x => k))
  (at level 20, c at level 100, k at level 200, only parsing).
Notation "' pat <- c ; k" := (bind c (fun x => match x with pat => k end))
  (at level 20, pat pattern, c at level 100, k at level 200, only parsing).

Definition assert_that (b : bool) (reason : string) : Result unit :=
  if b then Ok tt else Raise (AssertionError reason).

(** ** Python strings *)

(** [in_str c s] is Python's [c in s] for a one-character [c]. *)
Fixpoint in_str (c : ascii) (s : string) : bool :=
  match s with
  | EmptyString => false
  | String c' rest => if decide (c' = c) then true else in_str c rest
  end.

(** [split sep s] is Python's [s.split(sep)] for a one-character
    separator: the pieces between the occurrences of [sep], in order; a
    string without separator gives one piece. *)
Fixpoint split (sep : ascii) (s : string) : list string :=
  match s with
  | EmptyString => [EmptyString]
  | String c rest =>
      if decide (c = sep) then EmptyString :: split sep rest
      else match split sep rest with
           | piece :: pieces => String c piece :: pieces
           | [] => [String c EmptyString]
           end
  end.

(** The separator of the textual form of a label. *)
Definition underscore : ascii := "_"%char.

(** [s.count(c)] for a one-character [c]. *)
Fixpoint count_char (c : ascii) (s : string) : nat :=
  match s with
  | EmptyString => 0%nat
  | String c' rest =>
      if decide (c' = c) then S (count_char c rest) else count_char c rest
  end.

(** [sep.join(pieces)] for a one-character [sep]. *)
Fixpoint join (sep : ascii) (pieces : list string) : string :=
  match pieces with
  | [] => EmptyString
  | [piece] => piece
  | piece :: pieces => piece +:+ String sep (join sep pieces)
  end.

(** ** Addresses *)

(** [Address = str]: a reference to an immutable string object. *)
Record Address : Type := mkAddress {
  oid : nat;        (* identity of the object, what [is] compares *)
  chars : string    (* contents of the object, what [==] compares *)
}.

(** [a == b] *)
Definition addr_eq (a b : Address) : bool := bool_decide (chars a = chars b).

(** [a is b] *)
Definition addr_is (a b : Address) : bool := bool_decide (oid a = oid b).

(** ** DialogueLabel *)

(** [Dialogue.UNASSIGNED_DIALOGUE_REFERENCE], the empty string. *)
Definition UNASSIGNED_DIALOGUE_REFERENCE : string := EmptyString.

Module DialogueLabel.

Record t : Type := mk {
  dialogue_reference : string * string;
  dialogue_opponent_addr : Address;
  dialogue_starter_addr : Address
}.

Definition dialogue_starter_reference (l : t) : string := fst (dialogue_reference l).
Definition dialogue_responder_reference (l : t) : string := snd (dialogue_reference l).

(** What [__eq__] compares and [__hash__] hashes: the reference and the
    contents of the two addresses. *)
Definition key (l : t) : string * string * string * string :=
  (dialogue_starter_reference l, dialogue_responder_reference l,
   chars (dialogue_opponent_addr l), chars (dialogue_starter_addr l)).

(** [__eq__] *)
Definition eq (l1 l2 : t) : bool :=
  bool_decide (dialogue_reference l1 = dialogue_reference l2)
  && addr_eq (dialogue_starter_addr l1) (dialogue_starter_addr l2)
  && addr_eq (dialogue_opponent_addr l1) (dialogue_opponent_addr l2).

Definition NONCE_BYTES_NB : nat := 32.

Definition get_incomplete_version (l : t) : t :=
  mk (dialogue_starter_reference l, UNASSIGNED_DIALOGUE_REFERENCE)
     (dialogue_opponent_addr l)
     (dialogue_starter_addr l).

(** [__str__] *)
Definition str (l : t) : string :=
  dialogue_starter_reference l +:+ "_" +:+
  dialogue_responder_reference l +:+ "_" +:+
  chars (dialogue_opponent_addr l) +:+ "_" +:+
  chars (dialogue_starter_addr l).

(** [from_str]: the unpacking of [obj.split("_")] into four names raises
    [ValueError] unless there are exactly four pieces.  The pieces are
    new string objects, [fresh] and [S fresh] being the identities of the
    two that become the addresses; but the interpreter keeps one object for
    the empty string and one for each string of one character, so two equal
    address pieces of at most one character are one and the same object. *)
Definition from_str (fresh : nat) (obj : string) : Result t :=
  match split underscore obj with
  | [starter_reference; responder_reference; opponent_addr; starter_addr] =>
      let shared :=
        bool_decide (opponent_addr = starter_addr)
        && (String.length starter_addr <=? 1)%nat in
      Ok (mk (starter_reference, responder_reference)
             (mkAddress fresh opponent_addr)
             (mkAddress (if shared then fresh else S fresh) starter_addr))
  | _ => Raise ValueError
  end.

(** [__hash__] hashes the tuple of the reference and of the two
    addresses. *)
Definition hashed (l : t) : (string * string) * string * string :=
  (dialogue_reference l, chars (dialogue_opponent_addr l),
   chars (dialogue_starter_addr l)).

(** The property [json]: a dictionary of the four strings. *)
Definition json (l : t) : gmap string string :=
  <["dialogue_starter_reference" := dialogue_starter_reference l]>
    (<["dialogue_responder_reference" := dialogue_responder_reference l]>
       (<["dialogue_opponent_addr" := chars (dialogue_opponent_addr l)]>
          (<["dialogue_starter_addr" := chars (dialogue_starter_addr l)]> ∅))).

(** [from_json]: [obj.get] gives [None] for a key that the dictionary
    lacks, and the label then holds [None] in place of a string; such a
    label is outside [t], and the model gives [None] for it.  The strings of
    the label are the objects that the dictionary holds; [opponent_oid] and
    [starter_oid] are the identities of the two that become the addresses. *)
Definition from_json (opponent_oid starter_oid : nat) (obj : gmap string string)
    : option t :=
  match obj !! "dialogue_starter_reference", obj !! "dialogue_responder_reference",
        obj !! "dialogue_opponent_addr", obj !! "dialogue_starter_addr" with
  | Some starter_reference, Some responder_reference,
    Some opponent_addr, Some starter_addr =>
      Some (mk (starter_reference, responder_reference)
               (mkAddress opponent_oid opponent_addr)
               (mkAddress starter_oid starter_addr))
  | _, _, _, _ => None
  end.

End DialogueLabel.

Abbreviation LabelKey := (string * string * string * string)%type.


(** ** The protocol plugged into the core *)

(** The types a concrete protocol brings: its performatives (an [Enum],
    compared by equality), the contents of its messages (the keyword
    arguments of the message constructor) and its roles. *)
Class ProtocolTypes : Type := {
  Performative : Type;
  Performative_eq_dec :: EqDecision Performative;
  Content : Type;
  Role : Type
}.

(** ** Messages *)

Module Message.
Section Message.
Context {T : ProtocolTypes}.

(** Modelled from the spec: the class [Message] (aea.protocols.base) is
    not part of the sources of this module.  A message exposes
    [dialogue_reference], [message_id], [target], [performative],
    [sender] and [to], and the predicates [has_sender] and [has_to];
    [sender] and [to] are unset until assigned, and reading an unset one
    fails an assertion. *)
Record t : Type := mk {
  dialogue_reference : string * string;
  message_id : Z;
  target : Z;
  performative : Performative;
  content : Content;
  _sender : option Address;
  _to : option Address
}.

Definition has_sender (m : t) : bool := bool_decide (is_Some (_sender m)).
Definition has_to (m : t) : bool := bool_decide (is_Some (_to m)).

Definition sender (m : t) : Result Address :=
  match _sender m with
  | Some a => Ok a
  | None => Raise (AssertionError "Sender must not be None.")
  end.

Definition to (m : t) : Result Address :=
  match _to m with
  | Some a => Ok a
  | None => Raise (AssertionError "To must not be None.")
  end.

(** [message.sender = a] and [message.to = a] *)
Definition set_sender (a : Address) (m : t) : t :=
  mk (dialogue_reference m) (message_id m) (target m) (performative m)
     (content m) (Some a) (_to m).

Definition set_to (a : Address) (m : t) : t :=
  mk (dialogue_reference m) (message_id m) (target m) (performative m)
     (content m) (_sender m) (Some a).

End Message.
End Message.

(** ** Dialogue *)

Module Dialogue.

Definition STARTING_MESSAGE_ID : Z := 1.
Definition STARTING_TARGET : Z := 0.

Section State.
Context {T : ProtocolTypes}.

(** The attributes set by [__init__] (the message class apart). *)
Record t : Type := mk {
  agent_address : Address;
  incomplete_dialogue_label : DialogueLabel.t;
  dialogue_label : DialogueLabel.t;
  role : Role;
  is_self_initiated : bool;
  outgoing_messages : list Message.t;
  incoming_messages : list Message.t
}.

(** The abstract members that a concrete dialogue class defines: three
    properties, which return the constants of the class, and the method
    [is_valid], code of the concrete class that returns a pair or raises. *)
Class Rules : Type := {
  initial_performatives : list Performative;
  terminal_performatives : list Performative;
  valid_replies : Performative → option (list Performative);
  is_valid : t → Message.t → Result (bool * string)
}.

End State.

Section Methods.
Context {T : ProtocolTypes} {R : Rules}.

(** [__init__]: [is_self_initiated] is the result of
    [dialogue_opponent_addr is not dialogue_starter_addr]. *)
Definition init (dialogue_label : DialogueLabel.t) (agent_address : Address)
    (role : Role) : t :=
  mk agent_address
     (DialogueLabel.get_incomplete_version dialogue_label)
     dialogue_label
     role
     (negb (addr_is (DialogueLabel.dialogue_opponent_addr dialogue_label)
                    (DialogueLabel.dialogue_starter_addr dialogue_label)))
     [] [].

Definition with_dialogue_label (l : DialogueLabel.t) (d : t) : t :=
  mk (agent_address d) (incomplete_dialogue_label d) l (role d)
     (is_self_initiated d) (outgoing_messages d) (incoming_messages d).

Definition with_outgoing_messages (l : list Message.t) (d : t) : t :=
  mk (agent_address d) (incomplete_dialogue_label d) (dialogue_label d)
     (role d) (is_self_initiated d) l (incoming_messages d).

Definition with_incoming_messages (l : list Message.t) (d : t) : t :=
  mk (agent_address d) (incomplete_dialogue_label d) (dialogue_label d)
     (role d) (is_self_initiated d) (outgoing_messages d) l.

(** [label in self.dialogue_labels], the set of the current and of the
    incomplete label. *)
Definition in_dialogue_labels (l : DialogueLabel.t) (d : t) : bool :=
  DialogueLabel.eq l (dialogue_label d)
  || DialogueLabel.eq l (incomplete_dialogue_label d).

Definition get_valid_replies (performative : Performative)
    : Result (list Performative) :=
  match valid_replies performative with
  | Some replies => Ok replies
  | None => Raise (AssertionError "this performative '{}' is not supported")
  end.

Definition last_incoming_message (d : t) : option Message.t :=
  last (incoming_messages d).

Definition last_outgoing_message (d : t) : option Message.t :=
  last (outgoing_messages d).

Definition last_message (d : t) : option Message.t :=
  match last_incoming_message d, last_outgoing_message d with
  | Some inc, Some out =>
      Some (if Message.message_id inc <? Message.message_id out then out else inc)
  | Some inc, None => Some inc
  | None, Some out => Some out
  | None, None => None
  end.

(** [get_message]: the loop falls through, returning [None], when no
    message has the identifier. *)
Definition get_message (d : t) (message_id : Z) : Result (option Message.t) :=
  _ <- assert_that (1 <=? message_id)
        "message_id must be greater than or equal to 1." ;
  let list_of_all_messages := outgoing_messages d ++ incoming_messages d in
  _ <- assert_that (message_id <=? Z.of_nat (length list_of_all_messages))
        "This dialogue does not have a message with id {}. Last message id is {}." ;
  Ok (find (λ message, Message.message_id message =? message_id)
           list_of_all_messages).

Definition is_empty (d : t) : bool :=
  bool_decide (length (outgoing_messages d) = 0%nat)
  && bool_decide (length (incoming_messages d) = 0%nat).

Definition is_message_by_self (d : t) (message : Message.t) : Result bool :=
  sender <- Message.sender message ;
  Ok (addr_eq sender (agent_address d)).

Definition is_message_by_other (d : t) (message : Message.t) : Result bool :=
  by_self <- is_message_by_self d message ;
  Ok (negb by_self).

Definition is_belonging_to_dialogue (d : t) (message : Message.t) : Result bool :=
  if is_self_initiated d then
    by_self <- is_message_by_self d message ;
    opponent <- (if by_self then Message.to message else Message.sender message) ;
    let self_initiated_dialogue_label :=
      DialogueLabel.mk
        (fst (Message.dialogue_reference message), UNASSIGNED_DIALOGUE_REFERENCE)
        opponent (agent_address d) in
    Ok (in_dialogue_labels self_initiated_dialogue_label d)
  else
    by_self <- is_message_by_self d message ;
    opponent <- (if by_self then Message.to message else Message.sender message) ;
    let other_initiated_dialogue_label :=
      DialogueLabel.mk (Message.dialogue_reference message) opponent opponent in
    Ok (in_dialogue_labels other_initiated_dialogue_label d).

Definition _basic_validation (d : t) (message : Message.t) : Result (bool * string) :=
  let dialogue_reference := Message.dialogue_reference message in
  let message_id := Message.message_id message in
  let target := Message.target message in
  let performative := Message.performative message in
  match last_message d with
  | None =>
      if negb (bool_decide (fst dialogue_reference
                 = fst (DialogueLabel.dialogue_reference (dialogue_label d)))) then
        Ok (false, "Invalid dialogue_reference[0]. Expected {}. Found {}.")
      else if negb (message_id =? STARTING_MESSAGE_ID) then
        Ok (false, "Invalid message_id. Expected {}. Found {}.")
      else if negb (target =? STARTING_TARGET) then
        Ok (false, "Invalid target. Expected {}. Found {}.")
      else if negb (bool_decide (performative ∈ initial_performatives)) then
        Ok (false, "Invalid initial performative. Expected one of {}. Found {}.")
      else Ok (true, "The message passes basic validation.")
  | Some last_msg =>
      if negb (bool_decide (fst dialogue_reference
                 = fst (DialogueLabel.dialogue_reference (dialogue_label d)))) then
        Ok (false, "Invalid dialogue_reference[0]. Expected {}. Found {}.")
      else
        let last_message_id := Message.message_id last_msg in
        if negb (message_id =? last_message_id + 1) then
          Ok (false, "Invalid message_id. Expected {}. Found {}.")
        else if target <? 1 then
          Ok (false, "Invalid target. Expected a value greater than or equal to 1. Found {}.")
        else if last_message_id <? target then
          Ok (false, "Invalid target. Expected a value less than or equal to {}. Found {}.")
        else
          target_message <- get_message d target ;
          target_performative <-
            match target_message with
            | Some m => Ok (Message.performative m)
            | None => Raise AttributeError
            end;
          replies <- get_valid_replies target_performative ;
          if negb (bool_decide (performative ∈ replies)) then
            Ok (false, "Invalid performative. Expected one of {}. Found {}.")
          else Ok (true, "The message passes basic validation.")
  end.

Definition _additional_validation (d : t) (message : Message.t) : bool * string :=
  match last_message d with
  | Some last_msg =>
      let last_target := Message.target last_msg in
      if negb (Message.target message =? last_target + 1) then
        (false, "Invalid target. Expected {}. Found {}.")
      else (true, "The message passes additional validation.")
  | None => (true, "The message passes additional validation.")
  end.

Definition is_valid_next_message (d : t) (message : Message.t)
    : Result (bool * string) :=
  '(result_basic_validation, msg_basic_validation) <- _basic_validation d message ;
  if negb result_basic_validation then Ok (false, msg_basic_validation)
  else
    let '(result_additional_validation, msg_additional_validation) :=
      _additional_validation d message in
    if negb result_additional_validation then Ok (false, msg_additional_validation)
    else
      '(result_is_valid, msg_is_valid) <- is_valid d message ;
      if negb result_is_valid then Ok (false, msg_is_valid)
      else Ok (true, "Message is valid with respect to this dialogue.").

(** The message as [update] leaves it: the sender is assigned when it
    was unset. *)
Definition stamped (d : t) (message : Message.t) : Message.t :=
  if Message.has_sender message then message
  else Message.set_sender (agent_address d) message.

(** [update]: the dialogue is modified by the last statement only, so
    the dialogue is as before whenever an exception is raised. *)
Definition update (d : t) (message : Message.t) : Result t :=
  let message := stamped d message in
  belongs <- is_belonging_to_dialogue d message ;
  if negb belongs then
    Raise (InvalidDialogueMessage "message does not belong to this dialogue.")
  else
    '(is_valid_result, is_valid_message) <- is_valid_next_message d message ;
    if negb is_valid_result then Raise (InvalidDialogueMessage is_valid_message)
    else
      by_self <- is_message_by_self d message ;
      if by_self then
        Ok (with_outgoing_messages (outgoing_messages d ++ [message]) d)
      else
        Ok (with_incoming_messages (incoming_messages d ++ [message]) d).

(** [reply]: returns the reply and the dialogue it was appended to. *)
Definition reply (d : t) (target_message : Message.t)
    (performative : Performative) (kwargs : Content) : Result (Message.t * t) :=
  match last_message d with
  | None => Raise (AssertionError "Cannot reply in an empty dialogue!")
  | Some last_msg =>
      let reply :=
        Message.mk (DialogueLabel.dialogue_reference (dialogue_label d))
                   (Message.message_id last_msg + 1)
                   (Message.message_id target_message)
                   performative kwargs None None in
      let reply := Message.set_sender (agent_address d) reply in
      let reply :=
        Message.set_to (DialogueLabel.dialogue_opponent_addr (dialogue_label d))
                       reply in
      d' <- update d reply ;
      Ok (reply, d')
  end.

Definition update_dialogue_label (d : t) (final_dialogue_label : DialogueLabel.t)
    : Result t :=
  _ <- assert_that
        (bool_decide (snd (DialogueLabel.dialogue_reference (dialogue_label d))
                      = UNASSIGNED_DIALOGUE_REFERENCE)
         && negb (bool_decide (snd (DialogueLabel.dialogue_reference final_dialogue_label)
                               = UNASSIGNED_DIALOGUE_REFERENCE)))
        "Dialogue label cannot be updated." ;
  Ok (with_dialogue_label final_dialogue_label d).

(** [itertools.zip_longest] of two lists: the shorter one is padded
    with [None]. *)
Fixpoint zip_longest {A : Type} (list_1 list_2 : list (option A))
    : list (option A * option A) :=
  match list_1 with
  | [] => (λ y, (None, y)) <$> list_2
  | x :: list_1 =>
      match list_2 with
      | [] => (x, None) :: zip_longest list_1 []
      | y :: list_2 => (x, y) :: zip_longest list_1 list_2
      end
  end.

(** [itertools.chain] applied to the pairs: their components in order. *)
Definition chain {A : Type} (pairs : list (A * A)) : list A :=
  flat_map (λ pair, [fst pair; snd pair]) pairs.

(** [_interleave]: the elements of the chained pairs that are not
    [None]; an element of a list is a value or [None]. *)
Definition _interleave {A : Type} (list_1 list_2 : list (option A)) : list A :=
  omap id (chain (zip_longest list_1 list_2)).

End Methods.
End Dialogue.

(** ** DialogueStats *)

Module DialogueStats.

Section State.
Context {EndState : Type} `{Countable EndState}.

(** The two dictionaries of counters. *)
Record t : Type := mk {
  _self_initiated : gmap EndState Z;
  _other_initiated : gmap EndState Z
}.

(** [__init__]: a counter at zero for every end state. *)
Definition init (end_states : gset EndState) : t :=
  mk (gset_to_gmap 0 end_states) (gset_to_gmap 0 end_states).

Definition self_initiated (stats : t) : gmap EndState Z := _self_initiated stats.
Definition other_initiated (stats : t) : gmap EndState Z := _other_initiated stats.

Definition add_dialogue_endstate (end_state : EndState) (is_self_initiated : bool)
    (stats : t) : Result t :=
  if is_self_initiated then
    match _self_initiated stats !! end_state with
    | Some count =>
        Ok (mk (<[end_state := count + 1]> (_self_initiated stats))
               (_other_initiated stats))
    | None => Raise (AssertionError "End state not present!")
    end
  else
    match _other_initiated stats !! end_state with
    | Some count =>
        Ok (mk (_self_initiated stats)
               (<[end_state := count + 1]> (_other_initiated stats)))
    | None => Raise (AssertionError "End state not present!")
    end.

End State.
End DialogueStats.

(** ** Nonces *)

(** [binascii.hexlify]: two lower-case hexadecimal digits per byte. *)
Definition hex_digit (n : N) : ascii :=
  match String.get (N.to_nat n) "0123456789abcdef" with
  | Some c => c
  | None => "0"%char
  end.

Definition hexlify_byte (b : Init.Byte.byte) : string :=
  let n := Strings.Byte.to_N b in
  String (hex_digit (n / 16)) (String (hex_digit (n mod 16)) EmptyString).

Fixpoint hexlify (bs : list Init.Byte.byte) : string :=
  match bs with
  | [] => EmptyString
  | b :: bs => hexlify_byte b +:+ hexlify bs
  end.

(** [secrets.token_hex(nbytes)] hex-encodes [nbytes] bytes drawn from the
    operating system's random source; [entropy] is what was drawn. *)
Definition token_hex (entropy : list Init.Byte.byte) : string := hexlify entropy.

(** What the operating system hands to [token_hex(NONCE_BYTES_NB)]. *)
Definition drawn (entropy : list Init.Byte.byte) : Prop :=
  length entropy = DialogueLabel.NONCE_BYTES_NB.

(** ** Dialogues *)

Module Dialogues.

Section State.
Context {T : ProtocolTypes}.

(** The attributes set by [__init__] that the methods below use: the
    two dictionaries, the address of the agent and the role resolver. *)
Record t : Type := mk {
  dialogues : gmap LabelKey Dialogue.t;
  incomplete_to_complete_dialogue_labels : gmap LabelKey DialogueLabel.t;
  _agent_address : Address;
  _role_from_first_message : Message.t → Role
}.

(** [__init__] *)
Definition init (agent_address : Address)
    (role_from_first_message : Message.t → Role) : t :=
  mk ∅ ∅ agent_address role_from_first_message.

Definition with_dialogues (m : gmap LabelKey Dialogue.t) (st : t) : t :=
  mk m (incomplete_to_complete_dialogue_labels st) (_agent_address st)
     (_role_from_first_message st).

Definition with_incomplete_to_complete (m : gmap LabelKey DialogueLabel.t)
    (st : t) : t :=
  mk (dialogues st) m (_agent_address st) (_role_from_first_message st).

(** A method of the registry: the result, or the exception raised, and
    the registry as the call leaves it. *)
Definition M (A : Type) : Type := t → Result A * t.

Definition ret {A : Type} (a : A) : M A := λ st, (Ok a, st).
Definition raise {A : Type} (e : Exn) : M A := λ st, (Raise e, st).
Definition lift {A : Type} (r : Result A) : M A := λ st, (r, st).
Definition get : M t := λ st, (Ok st, st).
Definition modify (f : t → t) : M unit := λ st, (Ok tt, f st).
Definition bindM {A B : Type} (c : M A) (f : A → M B) : M B := λ st,
  match c st with
  | (Ok a, st') => f a st'
  | (Raise e, st') => (Raise e, st')
  end.

End State.

Notation "x <~ c ; k" := (bindM c (fun x => k))
  (at level 20, c at level 100, k at level 200, only parsing).

Section Methods.
Context {T : ProtocolTypes} {R : Dialogue.Rules}.

(** [label in d] for a dictionary keyed by labels *)
Definition contains {V : Type} (m : gmap LabelKey V) (l : DialogueLabel.t) : bool :=
  bool_decide (is_Some (m !! DialogueLabel.key l)).

Definition agent_address : M Address :=
  st <~ get;
  _ <~ lift (assert_that
               (negb (bool_decide (chars (_agent_address st) = EmptyString)))
               "agent_address is not set.");
  ret (_agent_address st).

Definition is_message_by_self (message : Message.t) : M bool :=
  sender <~ lift (Message.sender message);
  agent <~ agent_address;
  ret (addr_eq sender agent).

Definition is_message_by_other (message : Message.t) : M bool :=
  by_self <~ is_message_by_self message;
  ret (negb by_self).

Definition _generate_dialogue_nonce (entropy : list Init.Byte.byte) : string :=
  token_hex entropy.

Definition new_self_initiated_dialogue_reference (entropy : list Init.Byte.byte)
    : string * string :=
  (_generate_dialogue_nonce entropy, UNASSIGNED_DIALOGUE_REFERENCE).

(** [_create]: the new dialogue is stored under the key of its label. *)
Definition _create (incomplete_dialogue_label : DialogueLabel.t) (role : Role)
    (complete_dialogue_label : option DialogueLabel.t) : M Dialogue.t :=
  st <~ get;
  _ <~ lift (assert_that
               (negb (contains (incomplete_to_complete_dialogue_labels st)
                               incomplete_dialogue_label))
               "Incomplete dialogue label already present.");
  dialogue_label <~
    match complete_dialogue_label with
    | None => ret incomplete_dialogue_label
    | Some complete =>
        _ <~ modify (λ st, with_incomplete_to_complete
               (<[DialogueLabel.key incomplete_dialogue_label := complete]>
                  (incomplete_to_complete_dialogue_labels st)) st);
        ret complete
    end;
  st <~ get;
  _ <~ lift (assert_that (negb (contains (dialogues st) dialogue_label))
               "Dialogue label already present in dialogues.");
  agent <~ agent_address;
  let dialogue := Dialogue.init dialogue_label agent role in
  _ <~ modify (λ st, with_dialogues
         (<[DialogueLabel.key dialogue_label := dialogue]> (dialogues st)) st);
  ret dialogue.

Definition _create_self_initiated (dialogue_opponent_addr : Address)
    (dialogue_reference : string * string) (role : Role) : M Dialogue.t :=
  _ <~ lift (assert_that
               (negb (bool_decide (fst dialogue_reference = UNASSIGNED_DIALOGUE_REFERENCE))
                && bool_decide (snd dialogue_reference = UNASSIGNED_DIALOGUE_REFERENCE))
               "Cannot initiate dialogue with preassigned dialogue_responder_reference!");
  agent <~ agent_address;
  let incomplete_dialogue_label :=
    DialogueLabel.mk dialogue_reference dialogue_opponent_addr agent in
  _create incomplete_dialogue_label role None.

Definition _create_opponent_initiated (entropy : list Init.Byte.byte)
    (dialogue_opponent_addr : Address) (dialogue_reference : string * string)
    (role : Role) : M Dialogue.t :=
  _ <~ lift (assert_that
               (negb (bool_decide (fst dialogue_reference = UNASSIGNED_DIALOGUE_REFERENCE))
                && bool_decide (snd dialogue_reference = UNASSIGNED_DIALOGUE_REFERENCE))
               "Cannot initiate dialogue with preassigned dialogue_responder_reference!");
  let incomplete_dialogue_label :=
    DialogueLabel.mk dialogue_reference dialogue_opponent_addr dialogue_opponent_addr in
  let new_dialogue_reference :=
    (fst dialogue_reference, _generate_dialogue_nonce entropy) in
  let complete_dialogue_label :=
    DialogueLabel.mk new_dialogue_reference dialogue_opponent_addr
                     dialogue_opponent_addr in
  _create incomplete_dialogue_label role (Some complete_dialogue_label).

(** [_complete_dialogue_reference]: [pop] removes the dialogue from
    under its incomplete label before [update_dialogue_label] runs. *)
Definition _complete_dialogue_reference (message : Message.t) : M unit :=
  let complete_dialogue_reference := Message.dialogue_reference message in
  _ <~ lift (assert_that
               (negb (bool_decide (fst complete_dialogue_reference
                                   = UNASSIGNED_DIALOGUE_REFERENCE))
                && negb (bool_decide (snd complete_dialogue_reference
                                      = UNASSIGNED_DIALOGUE_REFERENCE)))
               "Only complete dialogue references allowed.");
  let incomplete_dialogue_reference :=
    (fst complete_dialogue_reference, UNASSIGNED_DIALOGUE_REFERENCE) in
  sender <~ lift (Message.sender message);
  agent <~ agent_address;
  let incomplete_dialogue_label :=
    DialogueLabel.mk incomplete_dialogue_reference sender agent in
  st <~ get;
  match dialogues st !! DialogueLabel.key incomplete_dialogue_label with
  | Some dialogue =>
      if negb (contains (incomplete_to_complete_dialogue_labels st)
                        incomplete_dialogue_label) then
        _ <~ modify (λ st, with_dialogues
               (delete (DialogueLabel.key incomplete_dialogue_label) (dialogues st)) st);
        let final_dialogue_label :=
          DialogueLabel.mk complete_dialogue_reference
            (DialogueLabel.dialogue_opponent_addr incomplete_dialogue_label)
            (DialogueLabel.dialogue_starter_addr incomplete_dialogue_label) in
        dialogue <~ lift (Dialogue.update_dialogue_label dialogue final_dialogue_label);
        _ <~ modify (λ st, with_dialogues
               (<[DialogueLabel.key (Dialogue.dialogue_label dialogue) := dialogue]>
                  (dialogues st)) st);
        modify (λ st, with_incomplete_to_complete
          (<[DialogueLabel.key incomplete_dialogue_label := final_dialogue_label]>
             (incomplete_to_complete_dialogue_labels st)) st)
      else ret tt
  | None => ret tt
  end.

Definition get_latest_label (st : t) (dialogue_label : DialogueLabel.t)
    : DialogueLabel.t :=
  default dialogue_label
    (incomplete_to_complete_dialogue_labels st !! DialogueLabel.key dialogue_label).

(** [get_dialogue_from_label]: the dialogue is returned by reference;
    the model returns it with the key under which the registry holds
    it, where a later modification in place is written back. *)
Definition get_dialogue_from_label (st : t) (dialogue_label : DialogueLabel.t)
    : option (LabelKey * Dialogue.t) :=
  match dialogues st !! DialogueLabel.key dialogue_label with
  | Some dialogue => Some (DialogueLabel.key dialogue_label, dialogue)
  | None => None
  end.

Definition get_dialogue (message : Message.t) : M (option (LabelKey * Dialogue.t)) :=
  by_self <~ is_message_by_self message;
  opponent <~ lift (if by_self then Message.to message else Message.sender message);
  agent <~ agent_address;
  let self_initiated_dialogue_label :=
    DialogueLabel.mk (Message.dialogue_reference message) opponent agent in
  to <~ lift (Message.to message);
  let other_initiated_dialogue_label :=
    DialogueLabel.mk (Message.dialogue_reference message) opponent to in
  st <~ get;
  let self_initiated_dialogue_label :=
    get_latest_label st self_initiated_dialogue_label in
  let other_initiated_dialogue_label :=
    get_latest_label st other_initiated_dialogue_label in
  let self_initiated_dialogue :=
    get_dialogue_from_label st self_initiated_dialogue_label in
  let other_initiated_dialogue :=
    get_dialogue_from_label st other_initiated_dialogue_label in
  ret (match self_initiated_dialogue with
       | Some found => Some found
       | None => other_initiated_dialogue
       end).

(** [dialogue.update(message)] on a dialogue that the registry holds
    under [k], as [create] and [update] call it: the dialogue is
    modified in place, and [InvalidDialogueMessage] is handed to
    [handler]. *)
Definition update_in_place {A : Type} (k : LabelKey) (dialogue : Dialogue.t)
    (message : Message.t) (accepted : Dialogue.t → M A) (handler : M A) : M A :=
  match Dialogue.update dialogue message with
  | Ok dialogue' =>
      _ <~ modify (λ st, with_dialogues (<[k := dialogue']> (dialogues st)) st);
      accepted dialogue'
  | Raise (InvalidDialogueMessage _) => handler
  | Raise e => raise e
  end.

Definition create (entropy : list Init.Byte.byte) (counterparty : Address)
    (performative : Performative) (kwargs : Content)
    : M (Message.t * Dialogue.t) :=
  let initial_message :=
    Message.mk (new_self_initiated_dialogue_reference entropy)
               Dialogue.STARTING_MESSAGE_ID Dialogue.STARTING_TARGET
               performative kwargs None None in
  agent <~ agent_address;
  let initial_message := Message.set_sender agent initial_message in
  let initial_message := Message.set_to counterparty initial_message in
  st <~ get;
  dialogue <~ _create_self_initiated counterparty
                (Message.dialogue_reference initial_message)
                (_role_from_first_message st initial_message);
  let k := DialogueLabel.key (Dialogue.dialogue_label dialogue) in
  update_in_place k dialogue initial_message
    (λ dialogue, ret (initial_message, dialogue))
    (_ <~ modify (λ st, with_dialogues (delete k (dialogues st)) st);
     raise (SyntaxError
       "Cannot create a dialogue with the specified performative and contents.")).

Definition update (entropy : list Init.Byte.byte) (message : Message.t)
    : M (option Dialogue.t) :=
  by_other <~ is_message_by_other message;
  _ <~ lift (assert_that by_other
               "Invalid 'update' usage. Update must only be used with a message by another agent.");
  _ <~ lift (assert_that (Message.has_to message)
               "The message's 'to' field is not set {}");
  let dialogue_reference := Message.dialogue_reference message in
  let is_invalid_label :=
    bool_decide (fst dialogue_reference = UNASSIGNED_DIALOGUE_REFERENCE)
    && bool_decide (snd dialogue_reference = UNASSIGNED_DIALOGUE_REFERENCE) in
  let is_new_dialogue :=
    negb (bool_decide (fst dialogue_reference = UNASSIGNED_DIALOGUE_REFERENCE))
    && bool_decide (snd dialogue_reference = UNASSIGNED_DIALOGUE_REFERENCE)
    && (Message.message_id message =? 1) in
  dialogue <~
    (if is_invalid_label then ret None
     else if is_new_dialogue then
       sender <~ lift (Message.sender message);
       st <~ get;
       dialogue <~ _create_opponent_initiated entropy sender dialogue_reference
                     (_role_from_first_message st message);
       ret (Some (DialogueLabel.key (Dialogue.dialogue_label dialogue), dialogue))
     else
       _ <~ _complete_dialogue_reference message;
       get_dialogue message);
  match dialogue with
  | Some (k, dialogue) =>
      update_in_place k dialogue message (λ dialogue, ret (Some dialogue)) (ret None)
  | None => ret None
  end.

End Methods.
End Dialogues.

(** ** A concrete protocol *)

(** The dialogue class of tests/data/generator/t_protocol_no_ct/dialogues.py:
    its performatives, initial and terminal performatives, reply structure
    and roles.  The class adds no rule of its own, so [is_valid] accepts. *)
Module TProtocolNoCt.

Inductive Performative : Type :=
| PERFORMATIVE_EMPTY_CONTENTS
| PERFORMATIVE_MT
| PERFORMATIVE_O
| PERFORMATIVE_PCT
| PERFORMATIVE_PMT
| PERFORMATIVE_PT.

Inductive Role : Type := ROLE_1 | ROLE_2.

#[global] Instance Performative_eq_dec : EqDecision Performative.
Proof. solve_decision. Defined.

#[global] Instance types : ProtocolTypes :=
  Build_ProtocolTypes Performative Performative_eq_dec unit Role.

Definition INITIAL_PERFORMATIVES : list Performative := [PERFORMATIVE_PT].

Definition TERMINAL_PERFORMATIVES : list Performative :=
  [PERFORMATIVE_MT; PERFORMATIVE_O; PERFORMATIVE_EMPTY_CONTENTS].

Definition VALID_REPLIES (p : Performative) : option (list Performative) :=
  Some match p with
       | PERFORMATIVE_EMPTY_CONTENTS => [PERFORMATIVE_EMPTY_CONTENTS]
       | PERFORMATIVE_MT => []
       | PERFORMATIVE_O => []
       | PERFORMATIVE_PCT => [PERFORMATIVE_MT; PERFORMATIVE_O]
       | PERFORMATIVE_PMT => [PERFORMATIVE_MT; PERFORMATIVE_O]
       | PERFORMATIVE_PT => [PERFORMATIVE_PT; PERFORMATIVE_PCT; PERFORMATIVE_PMT]
       end.

#[global] Instance rules : Dialogue.Rules :=
  {| Dialogue.initial_performatives := INITIAL_PERFORMATIVES;
     Dialogue.terminal_performatives := TERMINAL_PERFORMATIVES;
     Dialogue.valid_replies := VALID_REPLIES;
     Dialogue.is_valid :=
       λ _ _, Ok (true, "The message passes the rules of the protocol.") |}.

Definition role_from_first_message (message : Message.t) : Role := ROLE_1.

(** The address objects of two agents. *)
Definition alice : Address := mkAddress 1 "alice".
Definition bob : Address := mkAddress 2 "bob".

(** Thirty-two bytes, as two draws of the random source could give. *)
Definition entropy1 : list Init.Byte.byte := repeat Init.Byte.x2a 32.
Definition entropy2 : list Init.Byte.byte := repeat Init.Byte.xc3 32.

(** The registry of alice, before anything happened. *)
Definition registry0 : Dialogues.t := Dialogues.init alice role_from_first_message.

Definition inbound (reference : string * string) (message_id target : Z)
    (performative : Performative) : Message.t :=
  Message.mk reference message_id target performative tt (Some bob) (Some alice).

Definition outbound (reference : string * string) (message_id target : Z)
    (performative : Performative) : Message.t :=
  Message.mk reference message_id target performative tt (Some alice) (Some bob).

(** A dialogue that alice starts with bob, its first message, and the
    reply of bob. *)
Definition nonce1 : string := token_hex entropy1.
Definition nonce2 : string := token_hex entropy2.

Definition dialogue0 : Dialogue.t :=
  Dialogue.init (DialogueLabel.mk (nonce1, EmptyString) bob alice) alice ROLE_1.

Definition message1 : Message.t :=
  outbound (nonce1, EmptyString) 1 0 PERFORMATIVE_PT.

Definition dialogue1 : Dialogue.t :=
  Dialogue.with_outgoing_messages [message1] dialogue0.

Definition message2 : Message.t :=
  inbound (nonce1, nonce2) 2 1 PERFORMATIVE_PCT.

Definition dialogue2 : Dialogue.t :=
  Dialogue.with_incoming_messages [message2] dialogue1.

(** The registry of alice once [_create_self_initiated] has stored
    [dialogue0]. *)
Definition registry1 : Dialogues.t :=
  Dialogues.with_dialogues
    {[ DialogueLabel.key (Dialogue.dialogue_label dialogue0) := dialogue0 ]}
    registry0.

(** The reply of bob promotes the label of the dialogue that alice
    started: the registry once [create] has returned, and once [update] has
    returned for [message2]. *)
Definition incomplete_label : DialogueLabel.t :=
  DialogueLabel.mk (nonce1, EmptyString) bob alice.

Definition final_label : DialogueLabel.t :=
  DialogueLabel.mk (nonce1, nonce2) bob alice.

Definition dialogue2_promoted : Dialogue.t :=
  Dialogue.with_incoming_messages [message2]
    (Dialogue.with_dialogue_label final_label dialogue1).

Definition registry_created : Dialogues.t :=
  Dialogues.with_dialogues
    (<[DialogueLabel.key incomplete_label := dialogue1]> ∅) registry0.

Definition registry_promoted : Dialogues.t :=
  Dialogues.with_dialogues
    (<[DialogueLabel.key final_label := dialogue2_promoted]>
       (delete (DialogueLabel.key incomplete_label)
          (Dialogues.dialogues registry_created)))
    (Dialogues.with_incomplete_to_complete
       (<[DialogueLabel.key incomplete_label := final_label]> ∅) registry_created).

(** A dialogue that bob starts with alice: his first message, the
    registry of alice once [update] has returned for it, and his second
    message, which carries the complete reference. *)
Definition first_of_bob : Message.t :=
  inbound (nonce2, EmptyString) 1 0 PERFORMATIVE_PT.

Definition bob_incomplete_label : DialogueLabel.t :=
  DialogueLabel.mk (nonce2, EmptyString) bob bob.

Definition bob_complete_label : DialogueLabel.t :=
  DialogueLabel.mk (nonce2, nonce1) bob bob.

Definition dialogue_of_bob : Dialogue.t :=
  Dialogue.with_incoming_messages [first_of_bob]
    (Dialogue.init bob_complete_label alice ROLE_1).

Definition registry_of_bob : Dialogues.t :=
  Dialogues.with_dialogues
    (<[DialogueLabel.key bob_complete_label := dialogue_of_bob]> ∅)
    (Dialogues.with_incomplete_to_complete
       (<[DialogueLabel.key bob_incomplete_label := bob_complete_label]> ∅)
       registry0).

Definition second_of_bob : Message.t :=
  inbound (nonce2, nonce1) 2 1 PERFORMATIVE_PCT.

End TProtocolNoCt.

(** ** The merged log and the reachable dialogues *)

(** The two logs of a dialogue merged by message identifier. *)
Fixpoint merge {T : ProtocolTypes} (out : list Message.t)
    : list Message.t → list Message.t :=
  fix merge_inc (inc : list Message.t) : list Message.t :=
    match out, inc with
    | [], _ => inc
    | _, [] => out
    | o :: out', i :: inc' =>
        if Message.message_id o <=? Message.message_id i
        then o :: merge out' inc
        else i :: merge_inc inc'
    end.

Definition merged_log {T : ProtocolTypes} (d : Dialogue.t) : list Message.t :=
  merge (Dialogue.outgoing_messages d) (Dialogue.incoming_messages d).

(** The dialogues that a program can hold: a dialogue is made by
    [__init__] and changed by [update], [reply] and
    [update_dialogue_label]; a call that raises leaves it as it was. *)
Inductive dialogue_reachable {T : ProtocolTypes} {R : Dialogue.Rules}
    : Dialogue.t → Prop :=
| reachable_init label agent role :
    dialogue_reachable (Dialogue.init label agent role)
| reachable_update d message d' :
    dialogue_reachable d →
    Dialogue.update d message = Ok d' →
    dialogue_reachable d'
| reachable_reply d target_message performative kwargs reply d' :
    dialogue_reachable d →
    Dialogue.reply d target_message performative kwargs = Ok (reply, d') →
    dialogue_reachable d'
| reachable_update_dialogue_label d label d' :
    dialogue_reachable d →
    Dialogue.update_dialogue_label d label = Ok d' →
    dialogue_reachable d'.

(** A log in which the message at position [k] (from 0) has identifier
    [k + 1] and target [k]. *)
Definition consecutive {T : ProtocolTypes} (log : list Message.t) : Prop :=
  ∀ (k : nat) m, log !! k = Some m →
    Message.message_id m = Z.of_nat k + 1 ∧ Message.target m = Z.of_nat k.

(** The invariant of the logs of a dialogue. *)
Record log_invariant {T : ProtocolTypes} {R : Dialogue.Rules} (d : Dialogue.t)
    : Prop := {
  log_consecutive : consecutive (merged_log d);
  log_last : Dialogue.last_message d = last (merged_log d)
}.

(** ** Names for the intermediate values of the registry's methods *)

(** The registry in which [_create] has recorded the complete label. *)
Definition recorded {T : ProtocolTypes} (incomplete : DialogueLabel.t)
    (complete : option DialogueLabel.t) (st : Dialogues.t) : Dialogues.t :=
  match complete with
  | Some c =>
      Dialogues.with_incomplete_to_complete
        (<[DialogueLabel.key incomplete := c]>
           (Dialogues.incomplete_to_complete_dialogue_labels st)) st
  | None => st
  end.

(** The initial message that [create] constructs. *)
Definition initial_message {T : ProtocolTypes} (agent counterparty : Address)
    (entropy : list Init.Byte.byte) (performative : Performative) (kwargs : Content)
    : Message.t :=
  Message.mk (token_hex entropy, UNASSIGNED_DIALOGUE_REFERENCE)
             Dialogue.STARTING_MESSAGE_ID Dialogue.STARTING_TARGET
             performative kwargs (Some agent) (Some counterparty).

(** The label under which [create] stores the new dialogue. *)
Definition self_initiated_label (agent counterparty : Address)
    (entropy : list Init.Byte.byte) : DialogueLabel.t :=
  DialogueLabel.mk (token_hex entropy, UNASSIGNED_DIALOGUE_REFERENCE)
                   counterparty agent.

(** The two tests of [Dialogues.update] on the reference of the message. *)
Definition is_invalid_label {T : ProtocolTypes} (message : Message.t) : bool :=
  bool_decide (fst (Message.dialogue_reference message) = UNASSIGNED_DIALOGUE_REFERENCE)
  && bool_decide (snd (Message.dialogue_reference message) = UNASSIGNED_DIALOGUE_REFERENCE).

Definition is_new_dialogue {T : ProtocolTypes} (message : Message.t) : bool :=
  negb (bool_decide (fst (Message.dialogue_reference message)
                     = UNASSIGNED_DIALOGUE_REFERENCE))
  && bool_decide (snd (Message.dialogue_reference message) = UNASSIGNED_DIALOGUE_REFERENCE)
  && (Message.message_id message =? 1).

(** The dialogue that [Dialogues.update] binds before it calls
    [dialogue.update]: none for an invalid label, a new dialogue for a first
    message, the result of [get_dialogue] after
    [_complete_dialogue_reference] otherwise. *)
Definition located {T : ProtocolTypes} {R : Dialogue.Rules}
    (entropy : list Init.Byte.byte) (message : Message.t)
    : Dialogues.M (option (LabelKey * Dialogue.t)) :=
  if is_invalid_label message then Dialogues.ret None
  else if is_new_dialogue message then
    Dialogues.bindM (Dialogues.lift (Message.sender message)) (λ sender,
    Dialogues.bindM Dialogues.get (λ st,
    Dialogues.bindM
      (Dialogues._create_opponent_initiated entropy sender
         (Message.dialogue_reference message)
         (Dialogues._role_from_first_message st message)) (λ dialogue,
    Dialogues.ret
      (Some (DialogueLabel.key (Dialogue.dialogue_label dialogue), dialogue)))))
  else
    Dialogues.bindM (Dialogues._complete_dialogue_reference message) (λ _,
    Dialogues.get_dialogue message).

(** ** The reachable registries *)

(** The registries that a program can hold: a registry is made by
    [__init__] and changed by [create] and [update], whether they return or
    raise, each drawing [NONCE_BYTES_NB] bytes when it generates a nonce;
    the dialogues that the registry holds are also changed by the calls of
    [Dialogue.update], [Dialogue.reply] and [Dialogue.update_dialogue_label]
    of those who received them. *)
Inductive registry_step {T : ProtocolTypes} {R : Dialogue.Rules}
    : Dialogues.t → Dialogues.t → Prop :=
| step_create st entropy counterparty performative kwargs r st' :
    drawn entropy →
    Dialogues.create entropy counterparty performative kwargs st = (r, st') →
    registry_step st st'
| step_update st entropy message r st' :
    drawn entropy →
    Dialogues.update entropy message st = (r, st') →
    registry_step st st'
| step_dialogue_update st k dialogue message dialogue' :
    Dialogues.dialogues st !! k = Some dialogue →
    Dialogue.update dialogue message = Ok dialogue' →
    registry_step st
      (Dialogues.with_dialogues (<[k := dialogue']> (Dialogues.dialogues st)) st)
| step_dialogue_reply st k dialogue target_message performative kwargs reply dialogue' :
    Dialogues.dialogues st !! k = Some dialogue →
    Dialogue.reply dialogue target_message performative kwargs = Ok (reply, dialogue') →
    registry_step st
      (Dialogues.with_dialogues (<[k := dialogue']> (Dialogues.dialogues st)) st)
| step_dialogue_label st k dialogue label dialogue' :
    Dialogues.dialogues st !! k = Some dialogue →
    Dialogue.update_dialogue_label dialogue label = Ok dialogue' →
    registry_step st
      (Dialogues.with_dialogues (<[k := dialogue']> (Dialogues.dialogues st)) st).

Inductive registry_reachable {T : ProtocolTypes} {R : Dialogue.Rules}
    : Dialogues.t → Prop :=
| registry_init agent role_from_first_message :
    registry_reachable (Dialogues.init agent role_from_first_message)
| registry_next st st' :
    registry_reachable st → registry_step st st' → registry_reachable st'.

(** The responder reference and the starter address in the key of a label. *)
Definition key_responder (k : LabelKey) : string := snd (fst (fst k)).
Definition key_starter (k : LabelKey) : string := snd k.
Definition key_opponent (k : LabelKey) : string := snd (fst k).

(** The invariant of the two dictionaries of a registry: the labels that
    were promoted are the incomplete versions of what they were promoted
    to, which is complete, and the address of the agent was set;
    a promoted label is no longer a key of the dialogues, what it was
    promoted to is one; and an incomplete label that is a key of the
    dialogues is the label of a dialogue that the agent started. *)
Record registry_invariant {T : ProtocolTypes} (st : Dialogues.t) : Prop := {
  promoted_form : ∀ k v,
    Dialogues.incomplete_to_complete_dialogue_labels st !! k = Some v →
    DialogueLabel.key (DialogueLabel.get_incomplete_version v) = k;
  promoted_by_agent : ∀ k v,
    Dialogues.incomplete_to_complete_dialogue_labels st !! k = Some v →
    chars (Dialogues._agent_address st) ≠ EmptyString;
  promoted_incomplete : ∀ k v,
    Dialogues.incomplete_to_complete_dialogue_labels st !! k = Some v →
    key_responder k = UNASSIGNED_DIALOGUE_REFERENCE;
  promoted_to_complete : ∀ k v,
    Dialogues.incomplete_to_complete_dialogue_labels st !! k = Some v →
    key_responder (DialogueLabel.key v) ≠ UNASSIGNED_DIALOGUE_REFERENCE;
  promoted_gone : ∀ k v,
    Dialogues.incomplete_to_complete_dialogue_labels st !! k = Some v →
    Dialogues.dialogues st !! k = None;
  promoted_present : ∀ k v,
    Dialogues.incomplete_to_complete_dialogue_labels st !! k = Some v →
    is_Some (Dialogues.dialogues st !! DialogueLabel.key v);
  incomplete_started_by_agent : ∀ k dialogue,
    Dialogues.dialogues st !! k = Some dialogue →
    key_responder k = UNASSIGNED_DIALOGUE_REFERENCE →
    key_starter k = chars (Dialogues._agent_address st)
}.

(** One registry follows another: the invariant is kept, no promotion is
    removed or overwritten, and the address of the agent is the same. *)
Definition evolves {T : ProtocolTypes} (st st' : Dialogues.t) : Prop :=
  (registry_invariant st → registry_invariant st')
  ∧ (∀ k v, Dialogues.incomplete_to_complete_dialogue_labels st !! k = Some v →
            Dialogues.incomplete_to_complete_dialogue_labels st' !! k = Some v)
  ∧ Dialogues._agent_address st' = Dialogues._agent_address st.

(** A log that follows the reply structure of the protocol: the first
    message has an initial performative, and the performative of every later
    message is a valid reply to the performative of the message before it. *)
Definition follows_grammar {T : ProtocolTypes} {R : Dialogue.Rules}
    (log : list Message.t) : Prop :=
  (∀ m, log !! 0%nat = Some m →
        Message.performative m ∈ Dialogue.initial_performatives)
  ∧ (∀ (k : nat) m m', log !! k = Some m → log !! S k = Some m' →
        ∃ replies, Dialogue.valid_replies (Message.performative m) = Some replies
                   ∧ Message.performative m' ∈ replies).

(** A sequence of calls of [add_dialogue_endstate], up to the first that
    raises. *)
Fixpoint add_dialogue_endstates {EndState : Type} `{Countable EndState}
    (calls : list (EndState * bool)) (stats : DialogueStats.t)
    : Result DialogueStats.t :=
  match calls with
  | [] => Ok stats
  | (end_state, is_self_initiated) :: calls =>
      stats <- DialogueStats.add_dialogue_endstate end_state is_self_initiated stats ;
      add_dialogue_endstates calls stats
  end.

(** The number of calls with the given end state and flag. *)
Definition calls_with {EndState : Type} `{Countable EndState}
    (end_state : EndState) (is_self_initiated : bool)
    (calls : list (EndState * bool)) : Z :=
  Z.of_nat (length (filter (λ call, call = (end_state, is_self_initiated)) calls)).

(** The dialogues that a registry holds are dialogues of its agent,
    reached through the methods of [Dialogue]. *)
Definition stored_invariant {T : ProtocolTypes} {R : Dialogue.Rules}
    (st : Dialogues.t) : Prop :=
  ∀ k dialogue, Dialogues.dialogues st !! k = Some dialogue →
    dialogue_reachable dialogue
    ∧ Dialogue.agent_address dialogue = Dialogues._agent_address st.

(** The key of every dialogue of a registry names as starter the agent
    or the opponent. *)
Definition keys_invariant {T : ProtocolTypes} (st : Dialogues.t) : Prop :=
  ∀ k dialogue, Dialogues.dialogues st !! k = Some dialogue →
    key_starter k = chars (Dialogues._agent_address st)
    ∨ key_starter k = key_opponent k.

(** ** [Dialogues.update] as the specification words it *)

(** The two labels that the specification reconstructs from a message of
    [sender]: the label of a dialogue that the agent started with the
    sender, and the label of a dialogue that the sender started, each
    replaced by the label it was promoted to, if any. *)
Definition self_initiated_candidate {T : ProtocolTypes} (st : Dialogues.t)
    (m : Message.t) (sender : Address) : DialogueLabel.t :=
  Dialogues.get_latest_label st
    (DialogueLabel.mk (Message.dialogue_reference m) sender
       (Dialogues._agent_address st)).

Definition opponent_initiated_candidate {T : ProtocolTypes} (st : Dialogues.t)
    (m : Message.t) (sender : Address) : DialogueLabel.t :=
  Dialogues.get_latest_label st
    (DialogueLabel.mk (Message.dialogue_reference m) sender sender).

(** The dialogue of the registry that matches the reconstructed label of
    the message: the one under the self-initiated candidate, else the one
    under the opponent-initiated candidate. *)
Definition matching_dialogue {T : ProtocolTypes} (st : Dialogues.t)
    (m : Message.t) (sender : Address) : option (LabelKey * Dialogue.t) :=
  match Dialogues.get_dialogue_from_label st (self_initiated_candidate st m sender) with
  | Some found => Some found
  | None =>
      Dialogues.get_dialogue_from_label st (opponent_initiated_candidate st m sender)
  end.

(** Label completion for self-initiated dialogues: if the incomplete
    label [((ref[0], ""), sender, agent_address)] is a key of the dialogues
    and not yet promoted, the dialogue is removed under its incomplete key
    and reinserted, with the complete label as its label, under the complete
    label [(ref, sender, agent_address)], and the promotion is recorded. *)
Definition label_completion {T : ProtocolTypes} (st : Dialogues.t)
    (m : Message.t) (sender : Address) : Dialogues.t :=
  let agent := Dialogues._agent_address st in
  let incomplete :=
    DialogueLabel.mk (fst (Message.dialogue_reference m), UNASSIGNED_DIALOGUE_REFERENCE)
      sender agent in
  let complete := DialogueLabel.mk (Message.dialogue_reference m) sender agent in
  match Dialogues.dialogues st !! DialogueLabel.key incomplete,
        Dialogues.incomplete_to_complete_dialogue_labels st
        !! DialogueLabel.key incomplete with
  | Some dialogue, None =>
      Dialogues.with_incomplete_to_complete
        (<[DialogueLabel.key incomplete := complete]>
           (Dialogues.incomplete_to_complete_dialogue_labels st))
        (Dialogues.with_dialogues
           (<[DialogueLabel.key complete :=
                Dialogue.with_dialogue_label complete dialogue]>
              (delete (DialogueLabel.key incomplete) (Dialogues.dialogues st))) st)
  | _, _ => st
  end.

(** The dialogue that [Dialogues.update] creates for the first message of
    another agent. *)
Definition created_dialogue {T : ProtocolTypes} {R : Dialogue.Rules}
    (st : Dialogues.t) (entropy : list Init.Byte.byte) (m : Message.t)
    (sender : Address) : Dialogue.t :=
  Dialogue.init
    (DialogueLabel.mk
       (fst (Message.dialogue_reference m), Dialogues._generate_dialogue_nonce entropy)
       sender sender)
    (Dialogues._agent_address st) (Dialogues._role_from_first_message st m).

(** * Properties *)

Section SplitFacts.

Lemma split_no_sep sep s : in_str sep s = false → split sep s = [s].
Proof.
  induction s as [|c rest IH]; simpl; [done|].
  case_decide; [done|]. intros Hs. by rewrite (IH Hs).
Qed.

Lemma split_app_sep sep s rest :
  in_str sep s = false →
  split sep (s +:+ String sep rest) = s :: split sep rest.
Proof.
  induction s as [|c s IH]; simpl.
  - intros _. by rewrite decide_True.
  - case_decide; [done|]. intros Hs. by rewrite (IH Hs).
Qed.

End SplitFacts.

(** C8. Label string round-trip: when none of the four components of a
    label contains an underscore, parsing its textual form
    [starter_ref_responder_ref_opponent_addr_starter_addr] succeeds and gives
    a label equal ([__eq__]) to the original. *)
Theorem from_str_str_roundtrip (l : DialogueLabel.t) (fresh : nat) :
  in_str underscore (DialogueLabel.dialogue_starter_reference l) = false →
  in_str underscore (DialogueLabel.dialogue_responder_reference l) = false →
  in_str underscore (chars (DialogueLabel.dialogue_opponent_addr l)) = false →
  in_str underscore (chars (DialogueLabel.dialogue_starter_addr l)) = false →
  ∃ l', DialogueLabel.from_str fresh (DialogueLabel.str l) = Ok l'
        ∧ DialogueLabel.eq l' l = true
        ∧ DialogueLabel.key l' = DialogueLabel.key l.
Proof.
  destruct l as [[sr rr] [ido oa] [ids sa]].
  unfold DialogueLabel.from_str, DialogueLabel.str, DialogueLabel.eq,
    DialogueLabel.key, DialogueLabel.dialogue_starter_reference,
    DialogueLabel.dialogue_responder_reference, addr_eq; simpl.
  intros H1 H2 H3 H4.
  change (sr +:+ "_" +:+ rr +:+ "_" +:+ oa +:+ "_" +:+ sa)
    with (sr +:+ String underscore (rr +:+ String underscore (oa +:+ String underscore sa))).
  rewrite (split_app_sep _ _ _ H1), (split_app_sep _ _ _ H2), (split_app_sep _ _ _ H3).
  rewrite (split_no_sep _ _ H4).
  eexists. split; [reflexivity|]. simpl.
  by rewrite !bool_decide_eq_true_2.
Qed.

Lemma from_str_str_roundtrip_witness :
  DialogueLabel.str (DialogueLabel.mk ("r", "n") TProtocolNoCt.bob TProtocolNoCt.alice)
  = "r_n_bob_alice"
  ∧ ∃ l', DialogueLabel.from_str 7
            (DialogueLabel.str
               (DialogueLabel.mk ("r", "n") TProtocolNoCt.bob TProtocolNoCt.alice))
          = Ok l'
          ∧ DialogueLabel.eq l'
              (DialogueLabel.mk ("r", "n") TProtocolNoCt.bob TProtocolNoCt.alice)
            = true
          ∧ DialogueLabel.key l' = ("r", "n", "bob", "alice").
Proof.
  split; [reflexivity|].
  apply (from_str_str_roundtrip
           (DialogueLabel.mk ("r", "n") TProtocolNoCt.bob TProtocolNoCt.alice) 7);
    reflexivity.
Defined.

(** ** What [Dialogue.update] accepts *)

(** Case analysis on the results of the calls that a definition chains. *)
Ltac step_in H :=
  match type of H with
  | bind ?c _ = _ =>
      let E := fresh "E" in destruct c eqn:E; simpl in H; [|discriminate H]
  | (let '(_, _) := ?c in _) = _ =>
      let E := fresh "E" in destruct c eqn:E; simpl in H
  | (if negb ?b then _ else _) = _ =>
      let E := fresh "E" in destruct b eqn:E; simpl in H; [|discriminate H]
  | (if ?b then _ else _) = _ =>
      let E := fresh "E" in destruct b eqn:E; simpl in H
  | (match ?c with _ => _ end) = _ =>
      let E := fresh "E" in destruct c eqn:E; simpl in H; try discriminate H
  end.

Lemma assert_that_Ok b reason u : assert_that b reason = Ok u → b = true.
Proof. by destruct b. Qed.

Lemma assert_that_true reason : assert_that true reason = Ok tt.
Proof. done. Qed.

(** Membership in logs built with [::] and [++]. *)
Ltac in_logs :=
  repeat (rewrite elem_of_app || rewrite elem_of_cons); tauto.

Ltac older Hlt :=
  let x := fresh "x" in
  let Hx := fresh "Hx" in
  intros x Hx; apply Hlt; revert Hx; in_logs.

Section DialogueFacts.
Context {T : ProtocolTypes} {R : Dialogue.Rules}.
Implicit Types (d : Dialogue.t) (m message : Message.t).

Lemma stamped_fields d m :
  Message.dialogue_reference (Dialogue.stamped d m) = Message.dialogue_reference m
  ∧ Message.message_id (Dialogue.stamped d m) = Message.message_id m
  ∧ Message.target (Dialogue.stamped d m) = Message.target m
  ∧ Message.performative (Dialogue.stamped d m) = Message.performative m
  ∧ Message.content (Dialogue.stamped d m) = Message.content m
  ∧ Message._to (Dialogue.stamped d m) = Message._to m.
Proof. unfold Dialogue.stamped. by destruct (Message.has_sender m). Qed.

Lemma stamped_has_sender d m sender :
  Message._sender m = Some sender → Dialogue.stamped d m = m.
Proof.
  intros Hs. unfold Dialogue.stamped, Message.has_sender.
  rewrite Hs, bool_decide_eq_true_2; [done|by eexists].
Qed.

(** What [update] does when it returns: the message, with its sender
    assigned, passed the three validations and went to the end of one of
    the logs. *)
Lemma update_Ok d m d' :
  Dialogue.update d m = Ok d' →
  let m' := Dialogue.stamped d m in
  Dialogue.is_belonging_to_dialogue d m' = Ok true
  ∧ (∃ reason, Dialogue._basic_validation d m' = Ok (true, reason))
  ∧ fst (Dialogue._additional_validation d m') = true
  ∧ (∃ reason, Dialogue.is_valid d m' = Ok (true, reason))
  ∧ ((Dialogue.is_message_by_self d m' = Ok true
      ∧ d' = Dialogue.with_outgoing_messages (Dialogue.outgoing_messages d ++ [m']) d)
     ∨ (Dialogue.is_message_by_self d m' = Ok false
        ∧ d' = Dialogue.with_incoming_messages (Dialogue.incoming_messages d ++ [m']) d)).
Proof.
  unfold Dialogue.update. intros H; simpl.
  step_in H. step_in H.
  step_in H. destruct a0 as [ok reason]. step_in H.
  unfold Dialogue.is_valid_next_message in E1.
  step_in E1. destruct a0 as [okb reasonb]. step_in E1.
  step_in E1. step_in E1.
  step_in E1. destruct a0 as [okv reasonv]. step_in E1.
  step_in H.
  split; [done|]. split; [by eexists|]. split; [done|]. split; [by eexists|].
  destruct a0; inversion H; [left|right]; done.
Qed.

Lemma get_message_Some d message_id m :
  Dialogue.get_message d message_id = Ok (Some m) →
  m ∈ Dialogue.outgoing_messages d ++ Dialogue.incoming_messages d
  ∧ Message.message_id m = message_id.
Proof.
  unfold Dialogue.get_message. intros H.
  step_in H. step_in H.
  inversion H as [Hfind]. apply find_some in Hfind as [Hin Heq].
  split; [by apply list_elem_of_In | lia].
Qed.

(** What the basic validation checked when it passes. *)
Lemma _basic_validation_true d m reason :
  Dialogue._basic_validation d m = Ok (true, reason) →
  fst (Message.dialogue_reference m)
  = fst (DialogueLabel.dialogue_reference (Dialogue.dialogue_label d))
  ∧ match Dialogue.last_message d with
    | None =>
        Message.message_id m = 1 ∧ Message.target m = 0
        ∧ Message.performative m ∈ Dialogue.initial_performatives
    | Some last_msg =>
        Message.message_id m = Message.message_id last_msg + 1
        ∧ 1 ≤ Message.target m ≤ Message.message_id last_msg
        ∧ ∃ target_message replies,
            Dialogue.get_message d (Message.target m) = Ok (Some target_message)
            ∧ Dialogue.valid_replies (Message.performative target_message) = Some replies
            ∧ Message.performative m ∈ replies
    end.
Proof.
  unfold Dialogue._basic_validation, Dialogue.STARTING_MESSAGE_ID,
    Dialogue.STARTING_TARGET.
  intros H. destruct (Dialogue.last_message d) as [last_msg|].
  - step_in H. apply bool_decide_eq_true in E.
    step_in H. step_in H; [discriminate H|]. step_in H; [discriminate H|].
    step_in H. destruct a as [target_message|]; simpl in H; [|discriminate H].
    unfold Dialogue.get_valid_replies in H.
    destruct (Dialogue.valid_replies (Message.performative target_message))
      as [replies|] eqn:Hreplies; simpl in H; [|discriminate H].
    step_in H. apply bool_decide_eq_true in E4.
    split; [done|]. split; [lia|]. split; [lia|]. by exists target_message, replies.
  - do 4 step_in H.
    apply bool_decide_eq_true in E. apply bool_decide_eq_true in E2.
    split; [done|]. split; [lia|]. split; [lia|done].
Qed.

Lemma _additional_validation_true d m last_msg :
  Dialogue.last_message d = Some last_msg →
  fst (Dialogue._additional_validation d m) = true →
  Message.target m = Message.target last_msg + 1.
Proof.
  unfold Dialogue._additional_validation. intros -> H.
  destruct (Message.target m =? Message.target last_msg + 1) eqn:E;
    simpl in H; [lia|discriminate H].
Qed.

End DialogueFacts.

(** C3. A message that [Dialogue.update] accepts is appended to one of the
    logs.  If it is the first message of the dialogue, its performative is an
    initial performative, its identifier is 1 and its target is 0.
    Otherwise its target is between 1 and the identifier of the last
    message, and its performative is among the valid replies to the
    performative of the message of the dialogue that has the target as
    identifier. *)
Theorem update_accepts_valid_messages {T : ProtocolTypes} {R : Dialogue.Rules}
    (d d' : Dialogue.t) (m : Message.t) :
  Dialogue.update d m = Ok d' →
  let m' := Dialogue.stamped d m in
  (m' ∈ Dialogue.outgoing_messages d' ++ Dialogue.incoming_messages d')
  ∧ Message.performative m' = Message.performative m
  ∧ Message.message_id m' = Message.message_id m
  ∧ Message.target m' = Message.target m
  ∧ match Dialogue.last_message d with
    | None =>
        Message.performative m ∈ Dialogue.initial_performatives
        ∧ Message.message_id m = 1
        ∧ Message.target m = 0
    | Some last_msg =>
        (∃ target_message replies,
            target_message ∈ Dialogue.outgoing_messages d ++ Dialogue.incoming_messages d
            ∧ Message.message_id target_message = Message.target m
            ∧ Dialogue.get_message d (Message.target m) = Ok (Some target_message)
            ∧ Dialogue.valid_replies (Message.performative target_message) = Some replies
            ∧ Message.performative m ∈ replies)
        ∧ 1 ≤ Message.target m ≤ Message.message_id last_msg
    end.
Proof.
  intros H m'. apply update_Ok in H as (_ & [reason Hbasic] & _ & _ & Hd').
  fold m' in Hbasic, Hd'.
  destruct (stamped_fields d m) as (_ & Hid & Htarget & Hperf & _).
  fold m' in Hid, Htarget, Hperf.
  split.
  { destruct Hd' as [[_ ->]|[_ ->]]; simpl; in_logs. }
  do 3 (split; [done|]).
  apply _basic_validation_true in Hbasic as [_ Hbasic].
  rewrite Hid, Htarget, Hperf in Hbasic.
  destruct (Dialogue.last_message d) as [last_msg|].
  - destruct Hbasic as (_ & Hrange & target_message & replies & Hget & Hreplies & Hin).
    split; [|done]. exists target_message, replies.
    destruct (get_message_Some _ _ _ Hget). done.
  - destruct Hbasic as (? & ? & ?). done.
Qed.

Lemma update_accepts_valid_messages_witness :
  Dialogue.update TProtocolNoCt.dialogue1 TProtocolNoCt.message2
  = Ok TProtocolNoCt.dialogue2
  ∧ (∃ target_message replies,
        Message.message_id target_message = 1
        ∧ Dialogue.valid_replies (Message.performative target_message) = Some replies
        ∧ TProtocolNoCt.PERFORMATIVE_PCT ∈ replies).
Proof.
  assert (Dialogue.update TProtocolNoCt.dialogue1 TProtocolNoCt.message2
          = Ok TProtocolNoCt.dialogue2) as Haccepted by reflexivity.
  split; [exact Haccepted|].
  destruct (update_accepts_valid_messages
              TProtocolNoCt.dialogue1 TProtocolNoCt.dialogue2 TProtocolNoCt.message2
              Haccepted)
    as (_ & _ & _ & _ & (target_message & replies & _ & Hid & _ & Hreplies & Hin) & _).
  by exists target_message, replies.
Defined.

(** ** The merged log of a reachable dialogue *)

Section LogFacts.
Context {T : ProtocolTypes} {R : Dialogue.Rules}.
Implicit Types (d : Dialogue.t) (m : Message.t) (out inc : list Message.t).

Lemma merge_nil_r out : merge out [] = out.
Proof. by destruct out. Qed.

Lemma merge_nil_l inc : merge [] inc = inc.
Proof. by destruct inc. Qed.

Lemma merge_cons_cons o out i inc :
  merge (o :: out) (i :: inc)
  = if Message.message_id o <=? Message.message_id i
    then o :: merge out (i :: inc)
    else i :: merge (o :: out) inc.
Proof. done. Qed.

Lemma merge_perm out inc : merge out inc ≡ₚ out ++ inc.
Proof.
  revert inc. induction out as [|o out IH]; intros inc; [by destruct inc|].
  induction inc as [|i inc IHinc]; [by rewrite merge_nil_r, app_nil_r|].
  rewrite merge_cons_cons.
  destruct (Message.message_id o <=? Message.message_id i).
  - by rewrite IH.
  - rewrite IHinc. apply Permutation_middle.
Qed.

(** A message newer than all the others goes to the end of the merged
    log, whichever log it is appended to. *)
Lemma merge_snoc_l out inc m :
  (∀ x, x ∈ out ++ inc → Message.message_id x < Message.message_id m) →
  merge (out ++ [m]) inc = merge out inc ++ [m].
Proof.
  revert inc. induction out as [|o out IH]; intros inc Hlt.
  - induction inc as [|i inc IHinc]; [done|].
    change ([] ++ [m]) with [m] in *. rewrite merge_cons_cons.
    assert (Message.message_id i < Message.message_id m) as Hi
      by (apply Hlt; in_logs).
    destruct (Message.message_id m <=? Message.message_id i) eqn:E; [lia|].
    rewrite IHinc; [by rewrite !merge_nil_l|]. older Hlt.
  - induction inc as [|i inc IHinc]; [by rewrite !merge_nil_r|].
    rewrite <- app_comm_cons, !merge_cons_cons.
    destruct (Message.message_id o <=? Message.message_id i).
    + rewrite IH; [done|]. older Hlt.
    + rewrite app_comm_cons, IHinc; [done|]. older Hlt.
Qed.

Lemma merge_snoc_r out inc m :
  (∀ x, x ∈ out ++ inc → Message.message_id x < Message.message_id m) →
  merge out (inc ++ [m]) = merge out inc ++ [m].
Proof.
  revert inc. induction out as [|o out IH]; intros inc Hlt;
    [by rewrite !merge_nil_l|].
  induction inc as [|i inc IHinc].
  - change ([] ++ [m]) with [m]. rewrite merge_cons_cons, merge_nil_r.
    assert (Message.message_id o < Message.message_id m) as Ho
      by (apply Hlt; in_logs).
    destruct (Message.message_id o <=? Message.message_id m) eqn:E; [|lia].
    rewrite <- (merge_nil_r out) at 2. rewrite <- app_comm_cons. f_equal.
    apply (IH []). older Hlt.
  - rewrite <- app_comm_cons, !merge_cons_cons.
    destruct (Message.message_id o <=? Message.message_id i).
    + rewrite app_comm_cons, IH; [done|]. older Hlt.
    + rewrite IHinc; [done|]. older Hlt.
Qed.

End LogFacts.

Section LogInvariant.
Context {T : ProtocolTypes} {R : Dialogue.Rules}.
Implicit Types (d : Dialogue.t) (m : Message.t).

Lemma consecutive_snoc (log : list Message.t) m :
  consecutive log →
  Message.message_id m = Z.of_nat (length log) + 1 →
  Message.target m = Z.of_nat (length log) →
  consecutive (log ++ [m]).
Proof.
  intros Hlog Hid Htarget k x Hk.
  apply lookup_snoc_Some in Hk as [[_ Hk]|[-> ->]]; [by apply Hlog|done].
Qed.

Lemma consecutive_bound (log : list Message.t) x :
  consecutive log → x ∈ log → Message.message_id x ≤ Z.of_nat (length log).
Proof.
  intros Hlog Hx. apply list_elem_of_lookup in Hx as [k Hk].
  pose proof (lookup_lt_Some _ _ _ Hk). apply Hlog in Hk as [-> _]. lia.
Qed.

Lemma log_invariant_init label agent role :
  log_invariant (Dialogue.init label agent role).
Proof. split; [by intros k m|done]. Qed.

(** The identifier and the target that the validations impose are the
    next ones of the merged log. *)
Lemma accepted_is_next d m reason :
  log_invariant d →
  Dialogue._basic_validation d m = Ok (true, reason) →
  fst (Dialogue._additional_validation d m) = true →
  Message.message_id m = Z.of_nat (length (merged_log d)) + 1
  ∧ Message.target m = Z.of_nat (length (merged_log d)).
Proof.
  intros [Hlog Hlast] Hbasic Hadd.
  apply _basic_validation_true in Hbasic as [_ Hbasic].
  destruct (Dialogue.last_message d) as [last_msg|] eqn:E.
  - destruct Hbasic as (Hid & _ & _).
    apply (_additional_validation_true _ _ _ E) in Hadd.
    symmetry in Hlast. apply last_Some in Hlast as [log' Hlog'].
    assert (merged_log d !! length log' = Some last_msg) as Hk
      by (rewrite Hlog'; apply list_lookup_middle; done).
    apply Hlog in Hk as [Hk1 Hk2].
    rewrite Hlog', length_app; simpl. lia.
  - symmetry in Hlast. apply last_None in Hlast. rewrite Hlast; simpl.
    destruct Hbasic as (? & ? & _). lia.
Qed.

Lemma log_invariant_append d m (by_self : bool) :
  log_invariant d →
  Message.message_id m = Z.of_nat (length (merged_log d)) + 1 →
  Message.target m = Z.of_nat (length (merged_log d)) →
  log_invariant
    (if by_self
     then Dialogue.with_outgoing_messages (Dialogue.outgoing_messages d ++ [m]) d
     else Dialogue.with_incoming_messages (Dialogue.incoming_messages d ++ [m]) d).
Proof.
  intros [Hlog Hlast] Hid Htarget.
  assert (∀ x, x ∈ Dialogue.outgoing_messages d ++ Dialogue.incoming_messages d →
               Message.message_id x < Message.message_id m) as Hnewer.
  { intros x Hx. rewrite <- merge_perm in Hx.
    pose proof (consecutive_bound _ _ Hlog Hx). unfold merged_log in *. lia. }
  assert (merged_log
            (if by_self
             then Dialogue.with_outgoing_messages (Dialogue.outgoing_messages d ++ [m]) d
             else Dialogue.with_incoming_messages (Dialogue.incoming_messages d ++ [m]) d)
          = merged_log d ++ [m]) as Hmerged.
  { destruct by_self; unfold merged_log; simpl;
      [by apply merge_snoc_l | by apply merge_snoc_r]. }
  split.
  - rewrite Hmerged. by apply consecutive_snoc.
  - rewrite Hmerged, last_snoc.
    unfold Dialogue.last_message, Dialogue.last_incoming_message,
      Dialogue.last_outgoing_message.
    destruct by_self; simpl; rewrite last_snoc.
    + destruct (last (Dialogue.incoming_messages d)) as [i|] eqn:Hi; [|done].
      assert (Message.message_id i < Message.message_id m) as Hlt.
      { apply Hnewer, elem_of_app. right. apply last_Some in Hi as [l ->].
        apply elem_of_app. right. apply list_elem_of_singleton. done. }
      destruct (Message.message_id i <? Message.message_id m) eqn:E; [done|lia].
    + destruct (last (Dialogue.outgoing_messages d)) as [o|] eqn:Ho; [|done].
      assert (Message.message_id o < Message.message_id m) as Hlt.
      { apply Hnewer, elem_of_app. left. apply last_Some in Ho as [l ->].
        apply elem_of_app. right. apply list_elem_of_singleton. done. }
      destruct (Message.message_id m <? Message.message_id o) eqn:E; [lia|done].
Qed.

Lemma log_invariant_update d m d' :
  log_invariant d → Dialogue.update d m = Ok d' → log_invariant d'.
Proof.
  intros Hinv Hupdate.
  apply update_Ok in Hupdate as (_ & [reason Hbasic] & Hadd & _ & Hd').
  destruct (accepted_is_next _ _ _ Hinv Hbasic Hadd) as [Hid Htarget].
  destruct Hd' as [[_ ->]|[_ ->]].
  - by apply (log_invariant_append d _ true).
  - by apply (log_invariant_append d _ false).
Qed.

Lemma reply_is_update d target_message performative kwargs reply d' :
  Dialogue.reply d target_message performative kwargs = Ok (reply, d') →
  Dialogue.update d reply = Ok d'.
Proof.
  unfold Dialogue.reply. intros H.
  destruct (Dialogue.last_message d); [|discriminate H].
  step_in H. by inversion H; subst.
Qed.

Lemma log_invariant_reachable d : dialogue_reachable d → log_invariant d.
Proof.
  induction 1 as [label agent role | d m d' _ IH Hupdate
                 | d tm p kw r d' _ IH Hreply | d label d' _ IH Hlabel].
  - apply log_invariant_init.
  - by apply (log_invariant_update d m).
  - apply reply_is_update in Hreply. by apply (log_invariant_update d r).
  - unfold Dialogue.update_dialogue_label in Hlabel. step_in Hlabel.
    inversion Hlabel. by destruct IH.
Qed.

(** A message with another identifier or another target than the next
    ones is not accepted. *)
Lemma update_Ok_next d m d' last_msg :
  Dialogue.update d m = Ok d' →
  Dialogue.last_message d = Some last_msg →
  Message.message_id m = Message.message_id last_msg + 1
  ∧ Message.target m = Message.target last_msg + 1.
Proof.
  intros Hupdate Hlast.
  apply update_Ok in Hupdate as (_ & [reason Hbasic] & Hadd & _).
  destruct (stamped_fields d m) as (_ & Hid & Htarget & _).
  apply _basic_validation_true in Hbasic as [_ Hbasic].
  rewrite Hlast in Hbasic. destruct Hbasic as (Hbasic & _).
  apply (_additional_validation_true _ _ _ Hlast) in Hadd. lia.
Qed.

End LogInvariant.

(** C2. In every dialogue reached through [update] and [reply], two
    consecutive messages of the merged log (which holds the messages of the
    two logs, ordered by identifier) have consecutive identifiers and
    consecutive targets; and a message whose identifier is not the one of
    the last message plus one, or whose target is not the target of the
    last message plus one, makes [update] raise, which leaves the dialogue
    as it was. *)
Theorem merged_log_is_consecutive {T : ProtocolTypes} {R : Dialogue.Rules}
    (d : Dialogue.t) :
  dialogue_reachable d →
  (∀ (k : nat) m_k m_k1,
      merged_log d !! k = Some m_k →
      merged_log d !! S k = Some m_k1 →
      Message.message_id m_k1 = Message.message_id m_k + 1
      ∧ Message.target m_k1 = Message.target m_k + 1)
  ∧ merged_log d ≡ₚ Dialogue.outgoing_messages d ++ Dialogue.incoming_messages d
  ∧ (∀ m last_msg,
        Dialogue.last_message d = Some last_msg →
        Message.message_id m ≠ Message.message_id last_msg + 1
        ∨ Message.target m ≠ Message.target last_msg + 1 →
        ∃ e, Dialogue.update d m = Raise e).
Proof.
  intros Hreach. apply log_invariant_reachable in Hreach as [Hlog _].
  split; [|split].
  - intros k m_k m_k1 Hk Hk1. apply Hlog in Hk as [-> ->]. apply Hlog in Hk1 as [-> ->].
    lia.
  - apply merge_perm.
  - intros m last_msg Hlast Hbad.
    destruct (Dialogue.update d m) as [d'|e] eqn:Hupdate; [|by exists e].
    destruct (update_Ok_next _ _ _ _ Hupdate Hlast). lia.
Qed.

Lemma merged_log_is_consecutive_witness :
  dialogue_reachable TProtocolNoCt.dialogue2
  ∧ merged_log TProtocolNoCt.dialogue2
    = [TProtocolNoCt.message1; TProtocolNoCt.message2]
  ∧ Message.message_id TProtocolNoCt.message2
    = Message.message_id TProtocolNoCt.message1 + 1
  ∧ Message.target TProtocolNoCt.message2
    = Message.target TProtocolNoCt.message1 + 1.
Proof.
  assert (dialogue_reachable TProtocolNoCt.dialogue2) as Hreach.
  { apply (reachable_update TProtocolNoCt.dialogue1 TProtocolNoCt.message2);
      [|reflexivity].
    apply (reachable_update TProtocolNoCt.dialogue0 TProtocolNoCt.message1);
      [|reflexivity].
    apply reachable_init. }
  split; [exact Hreach|]. split; [reflexivity|].
  destruct (merged_log_is_consecutive TProtocolNoCt.dialogue2 Hreach) as (Hnext & _).
  apply (Hnext 0%nat); reflexivity.
Defined.


(** ** How [is_self_initiated] is computed *)

(** C9, at the label that [from_str] parses from [r_n_bob_bob]: the
    starter and the opponent are equal addresses held in two string
    objects, so [__init__], which tests identity, sets [is_self_initiated]
    although the starter address equals the opponent address. *)
Theorem is_self_initiated_tests_identity :
  ∃ label,
    DialogueLabel.from_str 7 "r_n_bob_bob" = Ok label
    ∧ addr_eq (DialogueLabel.dialogue_starter_addr label)
              (DialogueLabel.dialogue_opponent_addr label) = true
    ∧ Dialogue.is_self_initiated
        (Dialogue.init label TProtocolNoCt.alice TProtocolNoCt.ROLE_1) = true.
Proof. eexists. split; [reflexivity|]. split; reflexivity. Qed.

(** ** The registry *)

Section RegistryFacts.
Context {T : ProtocolTypes} {R : Dialogue.Rules}.
Implicit Types (st : Dialogues.t) (m message : Message.t).

Lemma agent_address_Ok st :
  chars (Dialogues._agent_address st) ≠ EmptyString →
  Dialogues.agent_address st = (Ok (Dialogues._agent_address st), st).
Proof.
  intros Hset. unfold Dialogues.agent_address, Dialogues.bindM, Dialogues.get,
    Dialogues.lift, Dialogues.ret.
  by rewrite bool_decide_eq_false_2.
Qed.

Lemma agent_address_inv st r st' :
  Dialogues.agent_address st = (r, st') →
  st' = st
  ∧ ((chars (Dialogues._agent_address st) ≠ EmptyString
      ∧ r = Ok (Dialogues._agent_address st))
     ∨ (chars (Dialogues._agent_address st) = EmptyString
        ∧ r = Raise (AssertionError "agent_address is not set."))).
Proof.
  unfold Dialogues.agent_address, Dialogues.bindM, Dialogues.get,
    Dialogues.lift, Dialogues.ret.
  case_bool_decide; simpl; intros [= <- <-]; split; auto.
Qed.

Lemma is_message_by_self_Ok st m sender :
  Message._sender m = Some sender →
  chars (Dialogues._agent_address st) ≠ EmptyString →
  Dialogues.is_message_by_self m st
  = (Ok (addr_eq sender (Dialogues._agent_address st)), st).
Proof.
  intros Hsender Hset. unfold Dialogues.is_message_by_self, Dialogues.bindM,
    Dialogues.lift, Message.sender.
  by rewrite Hsender, (agent_address_Ok _ Hset).
Qed.

Lemma is_message_by_other_Ok st m sender :
  Message._sender m = Some sender →
  chars (Dialogues._agent_address st) ≠ EmptyString →
  Dialogues.is_message_by_other m st
  = (Ok (negb (addr_eq sender (Dialogues._agent_address st))), st).
Proof.
  intros Hsender Hset. unfold Dialogues.is_message_by_other, Dialogues.bindM.
  by rewrite (is_message_by_self_Ok _ _ _ Hsender Hset).
Qed.

End RegistryFacts.

(** An inbound message with an incomplete reference that is not a first
    message fails the assertion of [_complete_dialogue_reference]. *)
Lemma update_asserts_complete_reference {T : ProtocolTypes}
    {R : Dialogue.Rules} (st : Dialogues.t) (entropy : list Init.Byte.byte)
    (m : Message.t) (sender : Address) (r : string) :
  Message._sender m = Some sender →
  addr_eq sender (Dialogues._agent_address st) = false →
  Message.has_to m = true →
  chars (Dialogues._agent_address st) ≠ EmptyString →
  Message.dialogue_reference m = (r, UNASSIGNED_DIALOGUE_REFERENCE) →
  r ≠ UNASSIGNED_DIALOGUE_REFERENCE →
  Message.message_id m ≠ 1 →
  Dialogues.update entropy m st
  = (Raise (AssertionError "Only complete dialogue references allowed."), st)
  ∧ Dialogues._complete_dialogue_reference m st
    = (Raise (AssertionError "Only complete dialogue references allowed."), st).
Proof.
  intros Hsender Hother Hto Hset Href Hr Hid.
  assert (Dialogues._complete_dialogue_reference m st
          = (Raise (AssertionError "Only complete dialogue references allowed."), st))
    as Hcomplete.
  { unfold Dialogues._complete_dialogue_reference, Dialogues.bindM, Dialogues.lift.
    rewrite Href; simpl. by rewrite andb_false_r. }
  split; [|done].
  unfold Dialogues.update. unfold Dialogues.bindM at 1.
  rewrite (is_message_by_other_Ok _ _ _ Hsender Hset), Hother; simpl.
  unfold Dialogues.bindM at 1. unfold Dialogues.lift at 1; simpl.
  unfold Dialogues.bindM at 1. unfold Dialogues.lift at 1. rewrite Hto; simpl.
  unfold Dialogues.bindM at 1.
  rewrite Href; simpl.
  rewrite (bool_decide_eq_false_2 _ Hr); simpl.
  destruct (Message.message_id m =? 1) eqn:E; [lia|].
  unfold Dialogues.bindM at 1. by rewrite Hcomplete.
Qed.

(** C10. An inbound message whose reference is [(r, "")] with [r] set,
    and whose identifier is not 1, takes the branch of the messages for an
    existing dialogue: [update] neither returns [None] nor creates a
    dialogue, it fails the assertion of [_complete_dialogue_reference] on
    complete references, and the registry is as before. *)
Theorem update_incomplete_reference_not_first {T : ProtocolTypes}
    {R : Dialogue.Rules} (st : Dialogues.t) (entropy : list Init.Byte.byte)
    (m : Message.t) (sender : Address) (r : string) :
  Message._sender m = Some sender →
  addr_eq sender (Dialogues._agent_address st) = false →
  Message.has_to m = true →
  chars (Dialogues._agent_address st) ≠ EmptyString →
  Message.dialogue_reference m = (r, UNASSIGNED_DIALOGUE_REFERENCE) →
  r ≠ UNASSIGNED_DIALOGUE_REFERENCE →
  Message.message_id m ≠ 1 →
  Dialogues.update entropy m st
  = (Raise (AssertionError "Only complete dialogue references allowed."), st)
  ∧ Dialogues._complete_dialogue_reference m st
    = (Raise (AssertionError "Only complete dialogue references allowed."), st).
Proof. apply update_asserts_complete_reference. Qed.

Lemma update_incomplete_reference_not_first_witness :
  Dialogues.update TProtocolNoCt.entropy2
    (TProtocolNoCt.inbound ("r", EmptyString) 2 1 TProtocolNoCt.PERFORMATIVE_PCT)
    TProtocolNoCt.registry0
  = (Raise (AssertionError "Only complete dialogue references allowed."),
     TProtocolNoCt.registry0).
Proof.
  apply (update_incomplete_reference_not_first
           TProtocolNoCt.registry0 TProtocolNoCt.entropy2
           (TProtocolNoCt.inbound ("r", EmptyString) 2 1 TProtocolNoCt.PERFORMATIVE_PCT)
           TProtocolNoCt.bob "r"); (reflexivity || discriminate).
Defined.

(** ** Creation of dialogues *)

Ltac unfold_M :=
  unfold Dialogues.bindM, Dialogues.lift, Dialogues.ret, Dialogues.raise,
    Dialogues.get, Dialogues.modify in *.

Section CreateFacts.
Context {T : ProtocolTypes} {R : Dialogue.Rules}.
Implicit Types (st : Dialogues.t) (m message : Message.t).

Lemma with_incomplete_to_complete_id st :
  Dialogues.with_incomplete_to_complete
    (Dialogues.incomplete_to_complete_dialogue_labels st) st = st.
Proof. by destruct st. Qed.

Lemma with_dialogues_id st : Dialogues.with_dialogues (Dialogues.dialogues st) st = st.
Proof. by destruct st. Qed.

(** The outcomes of [_create]. *)
Lemma _create_inv incomplete role complete st r st' :
  Dialogues._create incomplete role complete st = (r, st') →
  let label := default incomplete complete in
  let agent := Dialogues._agent_address st in
  let dialogue := Dialogue.init label agent role in
  (Dialogues.contains (Dialogues.incomplete_to_complete_dialogue_labels st) incomplete
   = true
   ∧ r = Raise (AssertionError "Incomplete dialogue label already present.")
   ∧ st' = st)
  ∨ (Dialogues.contains (Dialogues.incomplete_to_complete_dialogue_labels st) incomplete
     = false
     ∧ ((Dialogues.contains (Dialogues.dialogues st) label = true
         ∧ r = Raise (AssertionError "Dialogue label already present in dialogues.")
         ∧ st' = recorded incomplete complete st)
        ∨ (Dialogues.contains (Dialogues.dialogues st) label = false
           ∧ chars agent = EmptyString
           ∧ r = Raise (AssertionError "agent_address is not set.")
           ∧ st' = recorded incomplete complete st)
        ∨ (Dialogues.contains (Dialogues.dialogues st) label = false
           ∧ chars agent ≠ EmptyString
           ∧ r = Ok dialogue
           ∧ st' = Dialogues.with_dialogues
                     (<[DialogueLabel.key label := dialogue]> (Dialogues.dialogues st))
                     (recorded incomplete complete st)))).
Proof.
  unfold Dialogues._create. unfold Dialogues.bindM at 1. unfold Dialogues.get at 1.
  unfold Dialogues.bindM at 1. unfold Dialogues.lift at 1.
  destruct (Dialogues.contains (Dialogues.incomplete_to_complete_dialogue_labels st)
              incomplete) eqn:Hpromo; simpl.
  { intros [= <- <-]. by left. }
  intros H. right. split; [done|].
  unfold Dialogues.bindM at 1 in H.
  destruct complete as [c|]; simpl in *.
  all: unfold_M; simpl in H.
  all: match type of H with
       | context [Dialogues.contains ?m ?l] =>
           destruct (Dialogues.contains m l) eqn:Hin; simpl in H
       end.
  all: try (injection H as <- <-; left; done).
  all: unfold Dialogues.agent_address in H; unfold_M; simpl in H.
  all: case_bool_decide; simpl in H; injection H as <- <-; right; [left|right]; done.
Qed.

End CreateFacts.

Section CreateSelfInitiated.
Context {T : ProtocolTypes} {R : Dialogue.Rules}.
Implicit Types (st : Dialogues.t) (m message : Message.t).

(** When [_create_self_initiated] returns, the address of the agent is
    set, the reference is incomplete, the label was free, and the new
    dialogue is stored under it. *)
Lemma _create_self_initiated_Ok counterparty reference role st dialogue st' :
  Dialogues._create_self_initiated counterparty reference role st = (Ok dialogue, st') →
  let agent := Dialogues._agent_address st in
  let label := DialogueLabel.mk reference counterparty agent in
  chars agent ≠ EmptyString
  ∧ fst reference ≠ UNASSIGNED_DIALOGUE_REFERENCE
  ∧ snd reference = UNASSIGNED_DIALOGUE_REFERENCE
  ∧ Dialogues.incomplete_to_complete_dialogue_labels st !! DialogueLabel.key label = None
  ∧ Dialogues.dialogues st !! DialogueLabel.key label = None
  ∧ dialogue = Dialogue.init label agent role
  ∧ st' = Dialogues.with_dialogues
            (<[DialogueLabel.key label := dialogue]> (Dialogues.dialogues st)) st.
Proof.
  unfold Dialogues._create_self_initiated.
  unfold Dialogues.bindM at 1. unfold Dialogues.lift at 1.
  destruct (assert_that _ _) eqn:Hassert; [|discriminate]. simpl.
  apply assert_that_Ok, andb_true_iff in Hassert as [Hfst Hsnd].
  apply negb_true_iff, bool_decide_eq_false in Hfst. apply bool_decide_eq_true in Hsnd.
  unfold Dialogues.bindM at 1.
  destruct (Dialogues.agent_address st) as [ra sta] eqn:Hagent.
  apply agent_address_inv in Hagent as [-> [[Hset ->]|[_ ->]]]; [|discriminate].
  intros H. apply _create_inv in H as [(_ & ? & _)|(Hpromo & H)]; [discriminate|].
  destruct H as [(_ & ? & _)|[(_ & _ & ? & _)|(Hfree & _ & [= ->] & ->)]];
    [discriminate..|].
  unfold Dialogues.contains in *.
  apply bool_decide_eq_false in Hpromo. apply bool_decide_eq_false in Hfree.
  rewrite <- eq_None_not_Some in Hpromo. rewrite <- eq_None_not_Some in Hfree.
  simpl in *. done.
Qed.

(** [_create_self_initiated] returns when the address of the agent is set,
    the reference is incomplete and the label is free. *)
Lemma _create_self_initiated_fresh counterparty reference role st :
  let agent := Dialogues._agent_address st in
  let label := DialogueLabel.mk reference counterparty agent in
  let dialogue := Dialogue.init label agent role in
  chars agent ≠ EmptyString →
  fst reference ≠ UNASSIGNED_DIALOGUE_REFERENCE →
  snd reference = UNASSIGNED_DIALOGUE_REFERENCE →
  Dialogues.incomplete_to_complete_dialogue_labels st !! DialogueLabel.key label = None →
  Dialogues.dialogues st !! DialogueLabel.key label = None →
  Dialogues._create_self_initiated counterparty reference role st
  = (Ok dialogue,
     Dialogues.with_dialogues
       (<[DialogueLabel.key label := dialogue]> (Dialogues.dialogues st)) st).
Proof.
  intros agent label dialogue Hset Hfst Hsnd Hpromo Hfree.
  unfold Dialogues._create_self_initiated.
  unfold Dialogues.bindM at 1. unfold Dialogues.lift at 1.
  rewrite (bool_decide_eq_false_2 _ Hfst), (bool_decide_eq_true_2 _ Hsnd); simpl.
  unfold Dialogues.bindM at 1. rewrite (agent_address_Ok _ Hset).
  unfold Dialogues._create, Dialogues.contains. unfold_M.
  fold agent. fold label. rewrite Hpromo, Hfree; simpl.
  unfold Dialogues.agent_address. unfold_M.
  rewrite bool_decide_eq_false_2 by done. reflexivity.
Qed.

(** [create] up to the call of [dialogue.update]. *)
Lemma create_unfold entropy counterparty performative kwargs st :
  chars (Dialogues._agent_address st) ≠ EmptyString →
  Dialogues.create entropy counterparty performative kwargs st
  = let agent := Dialogues._agent_address st in
    let message := initial_message agent counterparty entropy performative kwargs in
    match
      Dialogues._create_self_initiated counterparty
        (token_hex entropy, UNASSIGNED_DIALOGUE_REFERENCE)
        (Dialogues._role_from_first_message st message) st
    with
    | (Ok dialogue, st1) =>
        let k := DialogueLabel.key (Dialogue.dialogue_label dialogue) in
        Dialogues.update_in_place k dialogue message
          (λ dialogue, Dialogues.ret (message, dialogue))
          (Dialogues.bindM
             (Dialogues.modify
                (λ st, Dialogues.with_dialogues (delete k (Dialogues.dialogues st)) st))
             (λ _, Dialogues.raise (SyntaxError
                "Cannot create a dialogue with the specified performative and contents.")))
          st1
    | (Raise e, st1) => (Raise e, st1)
    end.
Proof.
  intros Hset. unfold Dialogues.create. unfold Dialogues.bindM at 1.
  rewrite (agent_address_Ok _ Hset). unfold Dialogues.bindM at 1.
  unfold Dialogues.get at 1. unfold Dialogues.bindM at 1. reflexivity.
Qed.

End CreateSelfInitiated.

(** C6. When the initial message that [create] constructs fails the
    validation of the dialogue just created for it, that is when
    [dialogue.update] raises [InvalidDialogueMessage], [create] raises
    [SyntaxError] and leaves the registry, hence its dictionary of
    dialogues, exactly as it was before the call. *)
Theorem create_rolls_back {T : ProtocolTypes} {R : Dialogue.Rules}
    (st st1 : Dialogues.t) (entropy : list Init.Byte.byte) (counterparty : Address)
    (performative : Performative) (kwargs : Content) (dialogue : Dialogue.t)
    (reason : string) :
  let agent := Dialogues._agent_address st in
  let message := initial_message agent counterparty entropy performative kwargs in
  Dialogues._create_self_initiated counterparty (Message.dialogue_reference message)
    (Dialogues._role_from_first_message st message) st = (Ok dialogue, st1) →
  Dialogue.update dialogue message = Raise (InvalidDialogueMessage reason) →
  ∃ st',
    Dialogues.create entropy counterparty performative kwargs st
    = (Raise (SyntaxError
         "Cannot create a dialogue with the specified performative and contents."),
       st')
    ∧ Dialogues.dialogues st' = Dialogues.dialogues st
    ∧ st' = st.
Proof.
  intros agent message Hcreate Hupdate. exists st.
  split; [|done].
  pose proof (_create_self_initiated_Ok _ _ _ _ _ _ Hcreate)
    as (Hset & _ & _ & _ & Hfree & Hdialogue & Hst1).
  rewrite (create_unfold _ _ _ _ _ Hset); simpl.
  fold agent. fold message. simpl in Hcreate. rewrite Hcreate.
  unfold Dialogues.update_in_place. rewrite Hupdate.
  unfold_M. f_equal. rewrite Hst1, Hdialogue; simpl.
  rewrite delete_insert_eq, delete_id by done.
  by destruct st.
Qed.

Lemma create_rolls_back_witness :
  Dialogues.create TProtocolNoCt.entropy1 TProtocolNoCt.bob
    TProtocolNoCt.PERFORMATIVE_MT tt TProtocolNoCt.registry0
  = (Raise (SyntaxError
       "Cannot create a dialogue with the specified performative and contents."),
     TProtocolNoCt.registry0).
Proof.
  edestruct create_rolls_back
    with (st := TProtocolNoCt.registry0) (st1 := TProtocolNoCt.registry1)
         (entropy := TProtocolNoCt.entropy1)
         (counterparty := TProtocolNoCt.bob)
         (performative := TProtocolNoCt.PERFORMATIVE_MT) (kwargs := tt)
         (dialogue := TProtocolNoCt.dialogue0)
         (reason := "Invalid initial performative. Expected one of {}. Found {}.")
    as (st' & Hcreate & _ & ->).
  - apply _create_self_initiated_fresh; (discriminate || reflexivity).
  - vm_compute; reflexivity.
  - exact Hcreate.
Defined.

Section CreateReturns.
Context {T : ProtocolTypes} {R : Dialogue.Rules}.
Implicit Types (st : Dialogues.t) (m message : Message.t).

(** What [update_in_place] does when the dialogue accepts the message. *)
Lemma update_in_place_inv {A : Type} k dialogue message
    (accepted : Dialogue.t → Dialogues.M A) (handler : Dialogues.M A) st r st' :
  Dialogues.update_in_place k dialogue message accepted handler st = (r, st') →
  (∃ dialogue',
      Dialogue.update dialogue message = Ok dialogue'
      ∧ accepted dialogue'
          (Dialogues.with_dialogues (<[k := dialogue']> (Dialogues.dialogues st)) st)
        = (r, st'))
  ∨ (∃ reason,
        Dialogue.update dialogue message = Raise (InvalidDialogueMessage reason)
        ∧ handler st = (r, st'))
  ∨ (∃ e,
        Dialogue.update dialogue message = Raise e
        ∧ (∀ reason, e ≠ InvalidDialogueMessage reason)
        ∧ r = Raise e ∧ st' = st).
Proof.
  unfold Dialogues.update_in_place.
  destruct (Dialogue.update dialogue message) as [dialogue'|e].
  - intros H. left. by exists dialogue'.
  - destruct e; intros H; unfold_M;
      try (right; right; eexists; split; [done|]; by inversion H).
    right; left. by eexists.
Qed.

(** The message that [create] returns, the dialogue it returns and the
    registry it leaves. *)
Lemma create_Ok entropy counterparty performative kwargs st message dialogue st' :
  Dialogues.create entropy counterparty performative kwargs st
  = (Ok (message, dialogue), st') →
  let agent := Dialogues._agent_address st in
  let label := self_initiated_label agent counterparty entropy in
  let dialogue0 :=
    Dialogue.init label agent (Dialogues._role_from_first_message st message) in
  message = initial_message agent counterparty entropy performative kwargs
  ∧ chars agent ≠ EmptyString
  ∧ token_hex entropy ≠ UNASSIGNED_DIALOGUE_REFERENCE
  ∧ Dialogues.dialogues st !! DialogueLabel.key label = None
  ∧ Dialogue.update dialogue0 message = Ok dialogue
  ∧ st' = Dialogues.with_dialogues
            (<[DialogueLabel.key label := dialogue]> (Dialogues.dialogues st)) st.
Proof.
  intros H agent label dialogue0.
  assert (chars agent ≠ EmptyString) as Hset.
  { intros Hunset. unfold Dialogues.create in H. unfold Dialogues.bindM at 1 in H.
    destruct (Dialogues.agent_address st) as [ra sta] eqn:Hagent.
    apply agent_address_inv in Hagent as [-> [[? _]|[_ ->]]]; [done|discriminate]. }
  rewrite (create_unfold _ _ _ _ _ Hset) in H; simpl in H. fold agent in H.
  destruct (Dialogues._create_self_initiated _ _ _ st) as [[created|e] st1] eqn:Hcreate;
    [|discriminate].
  apply _create_self_initiated_Ok in Hcreate
    as (_ & Hnonce & _ & _ & Hfree & -> & ->).
  apply update_in_place_inv in H
    as [(dialogue' & Hupdate & H)|[(reason & _ & H)|(e & _ & _ & ? & _)]];
    [|unfold_M; discriminate|discriminate].
  unfold_M. injection H as <- <- <-. simpl.
  rewrite insert_insert_eq.
  repeat split; try done; by destruct st.
Qed.

(** [create] returns when the address of the agent is set, the nonce is
    not empty, the label is free and the new dialogue accepts the initial
    message. *)
Lemma create_accepted entropy counterparty performative kwargs st dialogue :
  let agent := Dialogues._agent_address st in
  let label := self_initiated_label agent counterparty entropy in
  let message := initial_message agent counterparty entropy performative kwargs in
  chars agent ≠ EmptyString →
  token_hex entropy ≠ UNASSIGNED_DIALOGUE_REFERENCE →
  Dialogues.incomplete_to_complete_dialogue_labels st !! DialogueLabel.key label = None →
  Dialogues.dialogues st !! DialogueLabel.key label = None →
  Dialogue.update
    (Dialogue.init label agent (Dialogues._role_from_first_message st message)) message
  = Ok dialogue →
  Dialogues.create entropy counterparty performative kwargs st
  = (Ok (message, dialogue),
     Dialogues.with_dialogues
       (<[DialogueLabel.key label := dialogue]> (Dialogues.dialogues st)) st).
Proof.
  intros agent label message Hset Hnonce Hpromo Hfree Hupdate.
  rewrite (create_unfold _ _ _ _ _ Hset); simpl. fold agent. fold message.
  rewrite (_create_self_initiated_fresh counterparty
             (token_hex entropy, UNASSIGNED_DIALOGUE_REFERENCE)) by done.
  unfold Dialogues.update_in_place; simpl. fold agent.
  change (DialogueLabel.mk (token_hex entropy, UNASSIGNED_DIALOGUE_REFERENCE)
            counterparty agent) with label.
  rewrite Hupdate. unfold_M; simpl. by rewrite insert_insert_eq.
Qed.

(** [create] handles [InvalidDialogueMessage] only: whatever else the new
    dialogue raises on the initial message is raised by [create], after
    [_create] stored the dialogue. *)
Lemma create_propagates entropy counterparty performative kwargs (st : Dialogues.t) e :
  let agent := Dialogues._agent_address st in
  let label := self_initiated_label agent counterparty entropy in
  let message := initial_message agent counterparty entropy performative kwargs in
  chars agent ≠ EmptyString →
  token_hex entropy ≠ UNASSIGNED_DIALOGUE_REFERENCE →
  Dialogues.incomplete_to_complete_dialogue_labels st !! DialogueLabel.key label = None →
  Dialogues.dialogues st !! DialogueLabel.key label = None →
  Dialogue.update
    (Dialogue.init label agent (Dialogues._role_from_first_message st message)) message
  = Raise e →
  (∀ reason, e ≠ InvalidDialogueMessage reason) →
  Dialogues.create entropy counterparty performative kwargs st
  = (Raise e,
     Dialogues.with_dialogues
       (<[DialogueLabel.key label :=
            Dialogue.init label agent (Dialogues._role_from_first_message st message)]>
          (Dialogues.dialogues st)) st).
Proof.
  intros agent label message Hset Hnonce Hpromo Hfree Hupdate Hother.
  rewrite (create_unfold _ _ _ _ _ Hset); simpl. fold agent. fold message.
  rewrite (_create_self_initiated_fresh counterparty
             (token_hex entropy, UNASSIGNED_DIALOGUE_REFERENCE)) by done.
  unfold Dialogues.update_in_place; simpl. fold agent.
  change (DialogueLabel.mk (token_hex entropy, UNASSIGNED_DIALOGUE_REFERENCE)
            counterparty agent) with label.
  rewrite Hupdate. unfold_M; simpl.
  destruct e; try done. by destruct (Hother reason).
Qed.

End CreateReturns.

(** C7, at a call in which the counterparty is the address of the agent
    itself: [create] returns, and the dialogue it returns is not flagged as
    self-initiated. *)
Lemma create_for_own_address_not_self_initiated :
  ∃ message dialogue st',
    Dialogues.create TProtocolNoCt.entropy1 TProtocolNoCt.alice
      TProtocolNoCt.PERFORMATIVE_PT tt TProtocolNoCt.registry0
    = (Ok (message, dialogue), st')
    ∧ Dialogue.is_self_initiated dialogue = false.
Proof.
  do 3 eexists. split.
  - apply create_accepted; (discriminate || reflexivity).
  - reflexivity.
Qed.

(** C7, amended.  Whenever [create] returns, the message it returns has
    identifier 1, target 0, the reference [(n, "")] where [n] is the nonce
    that was generated, the address of the agent as sender and the
    counterparty as recipient; the dialogue it returns is stored in the
    registry under the incomplete label [((n, ""), counterparty, agent)],
    which is its label, and holds exactly that message; and it is flagged
    as self-initiated when the counterparty is not the agent itself. *)
Theorem create_returns_initial_message_and_dialogue {T : ProtocolTypes}
    {R : Dialogue.Rules} (st st' : Dialogues.t) (entropy : list Init.Byte.byte)
    (counterparty : Address) (performative : Performative) (kwargs : Content)
    (message : Message.t) (dialogue : Dialogue.t) :
  Dialogues.create entropy counterparty performative kwargs st
  = (Ok (message, dialogue), st') →
  let agent := Dialogues._agent_address st in
  let n := Dialogues._generate_dialogue_nonce entropy in
  let label := DialogueLabel.mk (n, UNASSIGNED_DIALOGUE_REFERENCE) counterparty agent in
  (Message.message_id message = 1
   ∧ Message.target message = 0
   ∧ Message.dialogue_reference message = (n, UNASSIGNED_DIALOGUE_REFERENCE)
   ∧ n ≠ UNASSIGNED_DIALOGUE_REFERENCE
   ∧ Message.performative message = performative
   ∧ Message._sender message = Some agent
   ∧ Message._to message = Some counterparty)
  ∧ (Dialogue.dialogue_label dialogue = label
     ∧ Dialogues.dialogues st' !! DialogueLabel.key label = Some dialogue
     ∧ Dialogues.dialogues st !! DialogueLabel.key label = None
     ∧ Dialogue.outgoing_messages dialogue = [message]
     ∧ Dialogue.incoming_messages dialogue = [])
  ∧ ((addr_is counterparty agent = true → addr_eq counterparty agent = true) →
     addr_eq counterparty agent = false →
     Dialogue.is_self_initiated dialogue = true).
Proof.
  intros H agent n label.
  apply create_Ok in H as (-> & Hset & Hnonce & Hfree & Hupdate & ->).
  fold agent in Hupdate, Hfree |- *.
  split; [done|].
  apply update_Ok in Hupdate as (_ & _ & _ & _ & Hd).
  rewrite (stamped_has_sender _ _ agent) in Hd by done.
  assert (addr_eq agent agent = true) as Hself
    by (unfold addr_eq; by rewrite bool_decide_eq_true_2).
  unfold Dialogue.is_message_by_self in Hd; simpl in Hd. rewrite Hself in Hd.
  destruct Hd as [[_ ->]|[? _]]; [|discriminate].
  split.
  - simpl. split; [done|]. split; [|done]. by rewrite lookup_insert_eq.
  - intros Hwf Hother. simpl.
    destruct (addr_is counterparty agent) eqn:His; [|done].
    rewrite (Hwf eq_refl) in Hother. discriminate.
Qed.

Lemma create_returns_initial_message_and_dialogue_witness :
  Dialogues.create TProtocolNoCt.entropy1 TProtocolNoCt.bob
    TProtocolNoCt.PERFORMATIVE_PT tt TProtocolNoCt.registry0
  = (Ok (TProtocolNoCt.message1, TProtocolNoCt.dialogue1),
     Dialogues.with_dialogues
       (<[DialogueLabel.key (Dialogue.dialogue_label TProtocolNoCt.dialogue0)
          := TProtocolNoCt.dialogue1]> ∅)
       TProtocolNoCt.registry0)
  ∧ Dialogue.outgoing_messages TProtocolNoCt.dialogue1 = [TProtocolNoCt.message1]
  ∧ Dialogue.is_self_initiated TProtocolNoCt.dialogue1 = true.
Proof.
  assert (Dialogues.create TProtocolNoCt.entropy1 TProtocolNoCt.bob
            TProtocolNoCt.PERFORMATIVE_PT tt TProtocolNoCt.registry0
          = (Ok (TProtocolNoCt.message1, TProtocolNoCt.dialogue1),
             Dialogues.with_dialogues
               (<[DialogueLabel.key (Dialogue.dialogue_label TProtocolNoCt.dialogue0)
                  := TProtocolNoCt.dialogue1]> ∅)
               TProtocolNoCt.registry0)) as Hcreate.
  { apply create_accepted; (discriminate || reflexivity). }
  split; [exact Hcreate|].
  destruct (create_returns_initial_message_and_dialogue _ _ _ _ _ _ _ _ Hcreate)
    as (_ & (_ & _ & _ & Hout & _) & Hself).
  split; [exact Hout|].
  apply Hself; [intros His; discriminate His|reflexivity].
Defined.

(** ** Routing of inbound messages *)

Section UpdateFacts.
Context {T : ProtocolTypes} {R : Dialogue.Rules}.
Implicit Types (st : Dialogues.t) (m message : Message.t).

(** [Dialogues.update] on an inbound message, after its two assertions. *)
Lemma update_unfold entropy m sender st :
  Message._sender m = Some sender →
  addr_eq sender (Dialogues._agent_address st) = false →
  Message.has_to m = true →
  chars (Dialogues._agent_address st) ≠ EmptyString →
  Dialogues.update entropy m st
  = match located entropy m st with
    | (Ok (Some (k, dialogue)), st1) =>
        Dialogues.update_in_place k dialogue m
          (λ dialogue, Dialogues.ret (Some dialogue)) (Dialogues.ret None) st1
    | (Ok None, st1) => (Ok None, st1)
    | (Raise e, st1) => (Raise e, st1)
    end.
Proof.
  intros Hsender Hother Hto Hset.
  unfold Dialogues.update. unfold Dialogues.bindM at 1.
  rewrite (is_message_by_other_Ok _ _ _ Hsender Hset), Hother; simpl.
  unfold Dialogues.bindM at 1. unfold Dialogues.lift at 1; simpl.
  unfold Dialogues.bindM at 1. unfold Dialogues.lift at 1. rewrite Hto; simpl.
  unfold Dialogues.bindM at 1.
  fold (is_invalid_label m). fold (is_new_dialogue m). fold (located entropy m).
  destruct (located entropy m st) as [[[[k dialogue]|]|e] st1]; reflexivity.
Qed.

(** An inbound message passes the two assertions of [Dialogues.update]
    when the address of the agent is set; otherwise [update] raises. *)
Lemma update_returns_agent_set entropy m sender st r st' :
  Message._sender m = Some sender →
  Dialogues.update entropy m st = (Ok r, st') →
  chars (Dialogues._agent_address st) ≠ EmptyString.
Proof.
  intros Hsender H Hunset.
  unfold Dialogues.update in H. unfold Dialogues.bindM at 1 in H.
  unfold Dialogues.is_message_by_other, Dialogues.is_message_by_self in H.
  unfold Dialogues.bindM at 1 2 3 in H. unfold Dialogues.lift at 1 in H.
  unfold Message.sender in H. rewrite Hsender in H.
  destruct (Dialogues.agent_address st) as [ra sta] eqn:Hagent.
  apply agent_address_inv in Hagent as [-> [[? _]|[_ ->]]]; [done|discriminate].
Qed.

End UpdateFacts.

Section UpdateOutcomes.
Context {T : ProtocolTypes} {R : Dialogue.Rules}.
Implicit Types (st : Dialogues.t) (m message : Message.t).

(** [get_dialogue] only reads the registry. *)
Lemma get_dialogue_state m st r st' :
  Dialogues.get_dialogue m st = (r, st') → st' = st.
Proof.
  unfold Dialogues.get_dialogue, Dialogues.is_message_by_self,
    Dialogues.agent_address. unfold_M.
  intros H. repeat case_match; simplify_eq; done.
Qed.

(** When no dialogue is bound, either the label is invalid or the message
    is for an existing dialogue that [get_dialogue] does not find. *)
Lemma located_None entropy m st st1 :
  located entropy m st = (Ok None, st1) →
  is_invalid_label m = true
  ∨ (is_invalid_label m = false ∧ is_new_dialogue m = false
     ∧ Dialogues._complete_dialogue_reference m st = (Ok tt, st1)
     ∧ Dialogues.get_dialogue m st1 = (Ok None, st1)).
Proof.
  unfold located. destruct (is_invalid_label m); [by left|].
  destruct (is_new_dialogue m).
  - unfold_M. destruct (Message.sender m); [|discriminate].
    destruct (Dialogues._create_opponent_initiated _ _ _ _ st) as [[d|e] st2];
      discriminate.
  - unfold Dialogues.bindM.
    destruct (Dialogues._complete_dialogue_reference m st) as [[[]|e] st2] eqn:Hcomplete;
      [|discriminate].
    intros Hget. pose proof (get_dialogue_state _ _ _ _ Hget) as ->. by right.
Qed.

End UpdateOutcomes.

(** C4, at an inbound message with the reference [(r, "")] and the
    identifier 2, in a registry that holds no dialogue at all: no dialogue
    matches the message, and [Dialogues.update] returns neither [None] nor
    a dialogue, it raises. *)
Lemma update_raises_on_unattributable_message :
  let m := TProtocolNoCt.inbound ("r", EmptyString) 2 1 TProtocolNoCt.PERFORMATIVE_PCT in
  Message._sender m = Some TProtocolNoCt.bob
  ∧ addr_eq TProtocolNoCt.bob (Dialogues._agent_address TProtocolNoCt.registry0) = false
  ∧ Message.has_to m = true
  ∧ Dialogues.dialogues TProtocolNoCt.registry0 = ∅
  ∧ ∃ e, Dialogues.update TProtocolNoCt.entropy2 m TProtocolNoCt.registry0
         = (Raise e, TProtocolNoCt.registry0).
Proof.
  intros m. do 4 (split; [reflexivity|]). eexists.
  apply (update_asserts_complete_reference TProtocolNoCt.registry0 TProtocolNoCt.entropy2
           m TProtocolNoCt.bob "r"); (reflexivity || discriminate).
Qed.

(** ** The invariant of the registry *)

Section RegistryInvariant.
Context {T : ProtocolTypes} {R : Dialogue.Rules}.
Implicit Types (st : Dialogues.t) (m message : Message.t) (k : LabelKey).

Lemma registry_invariant_init agent role_from_first_message :
  registry_invariant (Dialogues.init agent role_from_first_message).
Proof. split; simpl; intros k v; by rewrite lookup_empty. Qed.

(** A dialogue is stored under a label that was not promoted. *)
Lemma registry_invariant_insert st k dialogue :
  registry_invariant st →
  Dialogues.incomplete_to_complete_dialogue_labels st !! k = None →
  (key_responder k = UNASSIGNED_DIALOGUE_REFERENCE →
   key_starter k = chars (Dialogues._agent_address st)) →
  registry_invariant
    (Dialogues.with_dialogues (<[k := dialogue]> (Dialogues.dialogues st)) st).
Proof.
  intros [I6 I7 I1 I2 I3 I4 I5] Hk Hstarter. split; simpl; try done.
  - intros k' v Hk'. rewrite lookup_insert_ne by congruence. by eapply I3.
  - intros k' v Hk'. destruct (decide (k = DialogueLabel.key v)) as [->|Hne].
    + rewrite lookup_insert_eq. by eexists.
    + rewrite lookup_insert_ne by done. by eapply I4.
  - intros k' d. destruct (decide (k = k')) as [->|Hne].
    + by intros _.
    + rewrite lookup_insert_ne by done. apply I5.
Qed.

(** A dialogue that the registry holds is modified in place. *)
Lemma registry_invariant_insert_existing st k dialogue :
  registry_invariant st →
  is_Some (Dialogues.dialogues st !! k) →
  registry_invariant
    (Dialogues.with_dialogues (<[k := dialogue]> (Dialogues.dialogues st)) st).
Proof.
  intros Hinv [d Hd]. apply registry_invariant_insert; [done| |].
  - destruct (Dialogues.incomplete_to_complete_dialogue_labels st !! k) as [v|] eqn:Hv;
      [|done].
    apply (promoted_gone _ Hinv) in Hv. congruence.
  - by apply (incomplete_started_by_agent _ Hinv _ d).
Qed.

(** A dialogue is removed from under an incomplete label. *)
Lemma registry_invariant_delete st k :
  registry_invariant st →
  key_responder k = UNASSIGNED_DIALOGUE_REFERENCE →
  registry_invariant
    (Dialogues.with_dialogues (delete k (Dialogues.dialogues st)) st).
Proof.
  intros [I6 I7 I1 I2 I3 I4 I5] Hk. split; simpl; try done.
  - intros k' v Hk'. apply lookup_delete_None. right. by eapply I3.
  - intros k' v Hk'. rewrite lookup_delete_ne; [by eapply I4|].
    intros ->. by eapply I2.
  - intros k' d Hd. apply lookup_delete_Some in Hd as [_ Hd]. by eapply I5.
Qed.

(** A promotion is recorded for a dialogue stored under the complete
    label. *)
Lemma registry_invariant_promote st k complete :
  registry_invariant st →
  DialogueLabel.key (DialogueLabel.get_incomplete_version complete) = k →
  chars (Dialogues._agent_address st) ≠ EmptyString →
  key_responder k = UNASSIGNED_DIALOGUE_REFERENCE →
  key_responder (DialogueLabel.key complete) ≠ UNASSIGNED_DIALOGUE_REFERENCE →
  Dialogues.dialogues st !! k = None →
  is_Some (Dialogues.dialogues st !! DialogueLabel.key complete) →
  registry_invariant
    (Dialogues.with_incomplete_to_complete
       (<[k := complete]> (Dialogues.incomplete_to_complete_dialogue_labels st)) st).
Proof.
  intros [I6 I7 I1 I2 I3 I4 I5] Hform Hset Hk Hcomplete Hgone Hpresent.
  split; simpl; try done.
  all: intros k' v Hk'; apply lookup_insert_Some in Hk' as [[<- <-]|[_ Hk']]; eauto.
Qed.

End RegistryInvariant.

Section Evolution.
Context {T : ProtocolTypes} {R : Dialogue.Rules}.
Implicit Types (st : Dialogues.t) (m message : Message.t) (k : LabelKey).

Lemma evolves_refl st : evolves st st.
Proof. by split. Qed.

Lemma evolves_trans st1 st2 st3 : evolves st1 st2 → evolves st2 st3 → evolves st1 st3.
Proof.
  intros (Hinv12 & Hpromo12 & Hagent12) (Hinv23 & Hpromo23 & Hagent23).
  split; [auto|]. split; [auto|congruence].
Qed.

Lemma evolves_insert st k dialogue :
  (registry_invariant st →
   Dialogues.incomplete_to_complete_dialogue_labels st !! k = None) →
  (key_responder k = UNASSIGNED_DIALOGUE_REFERENCE →
   key_starter k = chars (Dialogues._agent_address st)) →
  evolves st (Dialogues.with_dialogues (<[k := dialogue]> (Dialogues.dialogues st)) st).
Proof.
  intros Hk Hstarter. split; [|done].
  intros Hinv. apply registry_invariant_insert; auto.
Qed.

Lemma evolves_insert_existing st k dialogue :
  is_Some (Dialogues.dialogues st !! k) →
  evolves st (Dialogues.with_dialogues (<[k := dialogue]> (Dialogues.dialogues st)) st).
Proof.
  intros Hk. split; [|done].
  intros Hinv. by apply registry_invariant_insert_existing.
Qed.

Lemma evolves_delete st k :
  key_responder k = UNASSIGNED_DIALOGUE_REFERENCE →
  evolves st (Dialogues.with_dialogues (delete k (Dialogues.dialogues st)) st).
Proof.
  intros Hk. split; [|done].
  intros Hinv. by apply registry_invariant_delete.
Qed.

Lemma evolves_promote st k complete :
  Dialogues.incomplete_to_complete_dialogue_labels st !! k = None →
  DialogueLabel.key (DialogueLabel.get_incomplete_version complete) = k →
  chars (Dialogues._agent_address st) ≠ EmptyString →
  key_responder k = UNASSIGNED_DIALOGUE_REFERENCE →
  key_responder (DialogueLabel.key complete) ≠ UNASSIGNED_DIALOGUE_REFERENCE →
  (registry_invariant st → Dialogues.dialogues st !! k = None) →
  is_Some (Dialogues.dialogues st !! DialogueLabel.key complete) →
  evolves st
    (Dialogues.with_incomplete_to_complete
       (<[k := complete]> (Dialogues.incomplete_to_complete_dialogue_labels st)) st).
Proof.
  intros Hfree Hform Hset Hk Hcomplete Hgone Hpresent. split; [|split; [|done]].
  - intros Hinv. apply registry_invariant_promote; auto.
  - intros k' v Hk'. simpl. rewrite lookup_insert_ne; [done|congruence].
Qed.

(** [_create_self_initiated] leaves the registry as it was when it
    raises. *)
Lemma _create_self_initiated_Raise counterparty reference role st e st' :
  Dialogues._create_self_initiated counterparty reference role st = (Raise e, st') →
  st' = st.
Proof.
  unfold Dialogues._create_self_initiated.
  unfold Dialogues.bindM at 1. unfold Dialogues.lift at 1.
  destruct (assert_that _ _); simpl; [|by intros [= _ <-]].
  unfold Dialogues.bindM at 1.
  destruct (Dialogues.agent_address st) as [ra sta] eqn:Hagent.
  apply agent_address_inv in Hagent as [-> Hagent].
  destruct ra as [agent|e']; [|by intros [= _ <-]].
  intros H. apply _create_inv in H as [(_ & _ & ->)|(_ & H)]; [done|].
  by destruct H as [(_ & _ & ->)|[(_ & _ & _ & ->)|(_ & _ & ? & _)]].
Qed.

(** The registry that [create] leaves, whether it returns or raises: the
    registry as it was, or with one more dialogue stored under the new
    incomplete label. *)
Lemma create_outcome entropy counterparty performative kwargs st r st' :
  Dialogues.create entropy counterparty performative kwargs st = (r, st') →
  let label :=
    self_initiated_label (Dialogues._agent_address st) counterparty entropy in
  st' = st
  ∨ ∃ dialogue,
      Dialogues.incomplete_to_complete_dialogue_labels st !! DialogueLabel.key label
      = None
      ∧ st' = Dialogues.with_dialogues
                (<[DialogueLabel.key label := dialogue]> (Dialogues.dialogues st)) st.
Proof.
  intros H label.
  destruct (decide (chars (Dialogues._agent_address st) = EmptyString)) as [Hunset|Hset].
  { left. unfold Dialogues.create in H. unfold Dialogues.bindM at 1 in H.
    destruct (Dialogues.agent_address st) as [ra sta] eqn:Hagent.
    apply agent_address_inv in Hagent as [-> [[? _]|[_ ->]]]; [done|].
    by injection H as _ <-. }
  rewrite (create_unfold _ _ _ _ _ Hset) in H; simpl in H.
  destruct (Dialogues._create_self_initiated _ _ _ st) as [[created|e] st1] eqn:Hcreate.
  - apply _create_self_initiated_Ok in Hcreate as (_ & _ & _ & Hpromo & Hfree & -> & ->).
    fold label in Hpromo, Hfree, H.
    apply update_in_place_inv in H
      as [(dialogue' & _ & H)|[(reason & _ & H)|(e & _ & _ & _ & ->)]].
    + unfold_M. injection H as _ <-. right. exists dialogue'. split; [done|].
      simpl. by rewrite insert_insert_eq.
    + unfold_M. injection H as _ <-. left. simpl.
      rewrite delete_insert_eq, delete_id by done. by destruct st.
    + right. by eexists.
  - apply _create_self_initiated_Raise in Hcreate as ->.
    injection H as _ <-. by left.
Qed.

Lemma create_evolves entropy counterparty performative kwargs st r st' :
  Dialogues.create entropy counterparty performative kwargs st = (r, st') →
  evolves st st'.
Proof.
  intros H. apply create_outcome in H as [->|(dialogue & Hpromo & ->)].
  - apply evolves_refl.
  - by apply evolves_insert.
Qed.

Lemma token_hex_drawn entropy :
  drawn entropy → token_hex entropy ≠ UNASSIGNED_DIALOGUE_REFERENCE.
Proof. destruct entropy as [|b bs]; [discriminate|]. intros _. discriminate. Qed.

(** A key whose responder reference is set was not promoted. *)
Lemma complete_not_promoted st k :
  registry_invariant st →
  key_responder k ≠ UNASSIGNED_DIALOGUE_REFERENCE →
  Dialogues.incomplete_to_complete_dialogue_labels st !! k = None.
Proof.
  intros Hinv Hk.
  destruct (Dialogues.incomplete_to_complete_dialogue_labels st !! k) as [v|] eqn:Hv;
    [|done].
  by apply (promoted_incomplete _ Hinv) in Hv.
Qed.

(** An incomplete label that another agent started is not a key of the
    dialogues. *)
Lemma incomplete_of_other_absent st k :
  registry_invariant st →
  key_responder k = UNASSIGNED_DIALOGUE_REFERENCE →
  key_starter k ≠ chars (Dialogues._agent_address st) →
  Dialogues.dialogues st !! k = None.
Proof.
  intros Hinv Hk Hstarter.
  destruct (Dialogues.dialogues st !! k) as [d|] eqn:Hd; [|done].
  by apply (incomplete_started_by_agent _ Hinv) in Hd.
Qed.

Lemma contains_true {V : Type} (map : gmap LabelKey V) label :
  Dialogues.contains map label = true ↔ is_Some (map !! DialogueLabel.key label).
Proof. unfold Dialogues.contains. by rewrite bool_decide_eq_true. Qed.

Lemma contains_false {V : Type} (map : gmap LabelKey V) label :
  Dialogues.contains map label = false ↔ map !! DialogueLabel.key label = None.
Proof.
  unfold Dialogues.contains. by rewrite bool_decide_eq_false, eq_None_not_Some.
Qed.

(** [_create_opponent_initiated], called for a message of another agent
    with a nonce that was drawn. *)
Lemma _create_opponent_initiated_evolves entropy sender reference role st r st' :
  drawn entropy →
  chars (Dialogues._agent_address st) ≠ EmptyString →
  addr_eq sender (Dialogues._agent_address st) = false →
  Dialogues._create_opponent_initiated entropy sender reference role st = (r, st') →
  evolves st st'
  ∧ ∀ dialogue, r = Ok dialogue →
      is_Some (Dialogues.dialogues st'
               !! DialogueLabel.key (Dialogue.dialogue_label dialogue)).
Proof.
  intros Hdrawn Hset Hother.
  apply bool_decide_eq_false in Hother.
  apply token_hex_drawn in Hdrawn.
  unfold Dialogues._create_opponent_initiated.
  unfold Dialogues.bindM at 1. unfold Dialogues.lift at 1.
  destruct (assert_that _ _) eqn:Hassert; simpl;
    [|intros [= <- <-]; split; [apply evolves_refl|discriminate]].
  apply assert_that_Ok, andb_true_iff in Hassert as [_ Hsnd].
  apply bool_decide_eq_true in Hsnd.
  set (incomplete := DialogueLabel.mk reference sender sender).
  set (complete := DialogueLabel.mk
         (fst reference, Dialogues._generate_dialogue_nonce entropy) sender sender).
  assert (key_responder (DialogueLabel.key incomplete) = UNASSIGNED_DIALOGUE_REFERENCE)
    as Hincomplete by done.
  assert (key_responder (DialogueLabel.key complete) ≠ UNASSIGNED_DIALOGUE_REFERENCE)
    as Hcomplete by done.
  assert (DialogueLabel.key incomplete ≠ DialogueLabel.key complete) as Hne
    by (intros Heq; rewrite Heq in Hincomplete; done).
  assert (DialogueLabel.key (DialogueLabel.get_incomplete_version complete)
          = DialogueLabel.key incomplete) as Hform.
  { unfold DialogueLabel.key, DialogueLabel.dialogue_starter_reference,
      DialogueLabel.dialogue_responder_reference; simpl. by rewrite Hsnd. }
  intros H. apply _create_inv in H as [(_ & -> & ->)|(Hpromo & H)];
    [split; [apply evolves_refl|discriminate]|].
  apply contains_false in Hpromo. simpl in H.
  destruct H as [(Hpresent & -> & ->)|[(_ & ? & _)|(_ & _ & -> & ->)]]; [|done|].
  - apply contains_true in Hpresent. split; [|discriminate].
    apply (evolves_promote st (DialogueLabel.key incomplete) complete); try done.
    intros Hinv. by apply incomplete_of_other_absent.
  - split; [|intros d [= <-]; simpl; rewrite lookup_insert_eq; by eexists].
    apply (evolves_trans st
             (Dialogues.with_dialogues
                (<[DialogueLabel.key complete :=
                     Dialogue.init complete (Dialogues._agent_address st) role]>
                   (Dialogues.dialogues st)) st)).
    + apply (evolves_insert st (DialogueLabel.key complete)); [|done].
      intros Hinv. by apply complete_not_promoted.
    + match goal with
      | |- evolves ?st2 ?st3 =>
          change st3 with
            (Dialogues.with_incomplete_to_complete
               (<[DialogueLabel.key incomplete := complete]>
                  (Dialogues.incomplete_to_complete_dialogue_labels st2)) st2)
      end.
      apply evolves_promote; try done.
      * intros Hinv. by apply incomplete_of_other_absent.
      * simpl. rewrite lookup_insert_eq. by eexists.
Qed.

(** [_complete_dialogue_reference], whether it promotes a label or not. *)
Lemma _complete_dialogue_reference_evolves m st r st' :
  Dialogues._complete_dialogue_reference m st = (r, st') → evolves st st'.
Proof.
  unfold Dialogues._complete_dialogue_reference.
  unfold Dialogues.bindM at 1. unfold Dialogues.lift at 1.
  destruct (assert_that _ _) eqn:Hassert; simpl;
    [|intros [= <- <-]; apply evolves_refl].
  apply assert_that_Ok, andb_true_iff in Hassert as [_ Hsnd].
  apply negb_true_iff, bool_decide_eq_false in Hsnd.
  unfold Dialogues.bindM at 1. unfold Dialogues.lift at 1.
  destruct (Message.sender m) as [sender|e]; [|intros [= <- <-]; apply evolves_refl].
  unfold Dialogues.bindM at 1.
  destruct (Dialogues.agent_address st) as [ra sta] eqn:Hagent.
  apply agent_address_inv in Hagent as [-> [[Hset ->]|[_ ->]]];
    [|intros [= <- <-]; apply evolves_refl].
  set (agent := Dialogues._agent_address st).
  unfold Dialogues.bindM at 1. unfold Dialogues.get at 1.
  set (incomplete := DialogueLabel.mk _ sender agent).
  destruct (Dialogues.dialogues st !! DialogueLabel.key incomplete)
    as [dialogue|] eqn:Hdialogue; [|intros [= <- <-]; apply evolves_refl].
  destruct (Dialogues.contains _ incomplete) eqn:Hpromo; simpl;
    [intros [= <- <-]; apply evolves_refl|].
  apply contains_false in Hpromo.
  set (final := DialogueLabel.mk (Message.dialogue_reference m) sender agent).
  unfold Dialogue.update_dialogue_label. unfold_M.
  destruct (assert_that _ _); simpl.
  - intros [= <- <-].
    set (st_a := Dialogues.with_dialogues
                   (delete (DialogueLabel.key incomplete) (Dialogues.dialogues st)) st).
    set (st_b := Dialogues.with_dialogues
                   (<[DialogueLabel.key final :=
                        Dialogue.with_dialogue_label final dialogue]>
                      (Dialogues.dialogues st_a)) st_a).
    apply (evolves_trans st st_a);
      [by apply (evolves_delete st (DialogueLabel.key incomplete))|].
    apply (evolves_trans st_a st_b).
    + apply (evolves_insert st_a (DialogueLabel.key final)); [|done].
      intros Hinv. by apply complete_not_promoted.
    + match goal with
      | |- evolves _ ?st3 =>
          change st3 with
            (Dialogues.with_incomplete_to_complete
               (<[DialogueLabel.key incomplete := final]>
                  (Dialogues.incomplete_to_complete_dialogue_labels st_b)) st_b)
      end.
      apply evolves_promote; try done.
      * intros _. simpl. rewrite lookup_insert_ne, lookup_delete_eq; [done|].
        intros Heq. apply Hsnd. by injection Heq.
      * simpl. rewrite lookup_insert_eq. by eexists.
  - intros [= <- <-]. by apply (evolves_delete st (DialogueLabel.key incomplete)).
Qed.

Lemma get_dialogue_Some m st k dialogue st' :
  Dialogues.get_dialogue m st = (Ok (Some (k, dialogue)), st') →
  Dialogues.dialogues st !! k = Some dialogue.
Proof.
  unfold Dialogues.get_dialogue, Dialogues.is_message_by_self,
    Dialogues.agent_address, Dialogues.get_dialogue_from_label. unfold_M.
  intros H. repeat case_match; simplify_eq; done.
Qed.

(** The first half of [Dialogues.update]. *)
Lemma located_evolves entropy m sender st r st' :
  drawn entropy →
  Message._sender m = Some sender →
  chars (Dialogues._agent_address st) ≠ EmptyString →
  addr_eq sender (Dialogues._agent_address st) = false →
  located entropy m st = (r, st') →
  evolves st st'
  ∧ ∀ k dialogue, r = Ok (Some (k, dialogue)) → is_Some (Dialogues.dialogues st' !! k).
Proof.
  intros Hdrawn Hsender Hset Hother. unfold located.
  destruct (is_invalid_label m);
    [intros [= <- <-]; split; [apply evolves_refl|discriminate]|].
  destruct (is_new_dialogue m).
  - unfold Message.sender. rewrite Hsender. unfold_M.
    destruct (Dialogues._create_opponent_initiated _ _ _ _ st) as [rc st1] eqn:Hcreate.
    apply _create_opponent_initiated_evolves in Hcreate as [Hevolves Hstored]; try done.
    destruct rc as [created|e]; intros [= <- <-]; (split; [done|]); [|discriminate].
    intros k d [= <- <-]. by apply Hstored.
  - unfold Dialogues.bindM.
    destruct (Dialogues._complete_dialogue_reference m st) as [rc st1] eqn:Hcomplete.
    apply _complete_dialogue_reference_evolves in Hcomplete.
    destruct rc as [[]|e]; [|intros [= <- <-]; split; [done|discriminate]].
    intros Hget. pose proof (get_dialogue_state _ _ _ _ Hget) as ->.
    split; [done|]. intros k d ->. apply get_dialogue_Some in Hget. by eexists.
Qed.

(** [Dialogues.update] raises and leaves the registry as it was unless the
    message is inbound and the address of the agent is set. *)
Lemma update_cases entropy m st r st' :
  Dialogues.update entropy m st = (r, st') →
  st' = st
  ∨ ∃ sender,
      Message._sender m = Some sender
      ∧ addr_eq sender (Dialogues._agent_address st) = false
      ∧ Message.has_to m = true
      ∧ chars (Dialogues._agent_address st) ≠ EmptyString.
Proof.
  intros H. unfold Dialogues.update in H. unfold Dialogues.bindM at 1 in H.
  destruct (Message._sender m) as [sender|] eqn:Hsender.
  2: { left. unfold Dialogues.is_message_by_other, Dialogues.is_message_by_self,
         Message.sender in H. rewrite Hsender in H. unfold_M. by injection H as _ <-. }
  destruct (decide (chars (Dialogues._agent_address st) = EmptyString)) as [Hunset|Hset].
  { left. unfold Dialogues.is_message_by_other, Dialogues.is_message_by_self,
      Message.sender, Dialogues.agent_address in H. rewrite Hsender in H. unfold_M.
    rewrite bool_decide_eq_true_2 in H by done. simpl in H. by injection H as _ <-. }
  rewrite (is_message_by_other_Ok _ _ _ Hsender Hset) in H.
  unfold Dialogues.bindM at 1 in H. unfold Dialogues.lift at 1 in H.
  destruct (addr_eq sender (Dialogues._agent_address st)) eqn:Hother; simpl in H;
    [left; by injection H as _ <-|].
  unfold Dialogues.bindM at 1 in H. unfold Dialogues.lift at 1 in H.
  destruct (Message.has_to m) eqn:Hto; simpl in H; [|left; by injection H as _ <-].
  right. by exists sender.
Qed.

Lemma update_evolves entropy m st r st' :
  drawn entropy → Dialogues.update entropy m st = (r, st') → evolves st st'.
Proof.
  intros Hdrawn H.
  destruct (update_cases _ _ _ _ _ H) as [->|(sender & Hsender & Hother & Hto & Hset)];
    [apply evolves_refl|].
  rewrite (update_unfold _ _ _ _ Hsender Hother Hto Hset) in H.
  destruct (located entropy m st) as [rl st1] eqn:Hlocated.
  apply (located_evolves _ _ _ _ _ _ Hdrawn Hsender Hset Hother) in Hlocated
    as [Hevolves Hstored].
  destruct rl as [[[k dialogue]|]|e]; [|by injection H as _ <-..].
  apply update_in_place_inv in H
    as [(dialogue' & _ & H)|[(reason & _ & H)|(e & _ & _ & _ & ->)]];
    [|unfold_M; by injection H as _ <-|done].
  unfold_M. injection H as _ <-.
  eapply evolves_trans; [done|]. apply evolves_insert_existing. by eapply Hstored.
Qed.

(** Every step keeps the invariant and the promotions. *)
Lemma registry_step_evolves st st' : registry_step st st' → evolves st st'.
Proof.
  intros [st0 entropy counterparty performative kwargs r st0' _ H
         | st0 entropy m r st0' Hdrawn H
         | st0 k dialogue m dialogue' Hk _
         | st0 k dialogue tm performative kwargs reply dialogue' Hk _
         | st0 k dialogue label dialogue' Hk _].
  - by eapply create_evolves.
  - by eapply update_evolves.
  - apply evolves_insert_existing. by eexists.
  - apply evolves_insert_existing. by eexists.
  - apply evolves_insert_existing. by eexists.
Qed.

Lemma registry_reachable_invariant st : registry_reachable st → registry_invariant st.
Proof.
  induction 1 as [agent role_from_first_message|st st' _ IH Hstep].
  - apply registry_invariant_init.
  - by apply (registry_step_evolves _ _ Hstep).
Qed.

End Evolution.

(** ** Promotion of labels *)

Section Promotion.
Context {T : ProtocolTypes} {R : Dialogue.Rules}.
Implicit Types (st : Dialogues.t) (m message : Message.t) (k : LabelKey).

(** [get_dialogue] on an inbound message. *)
Lemma get_dialogue_inbound m sender to st :
  Message._sender m = Some sender →
  addr_eq sender (Dialogues._agent_address st) = false →
  Message._to m = Some to →
  chars (Dialogues._agent_address st) ≠ EmptyString →
  Dialogues.get_dialogue m st
  = (Ok match
          Dialogues.get_dialogue_from_label st
            (Dialogues.get_latest_label st
               (DialogueLabel.mk (Message.dialogue_reference m) sender
                  (Dialogues._agent_address st)))
        with
        | Some found => Some found
        | None =>
            Dialogues.get_dialogue_from_label st
              (Dialogues.get_latest_label st
                 (DialogueLabel.mk (Message.dialogue_reference m) sender to))
        end,
     st).
Proof.
  intros Hsender Hother Hto Hset. unfold Dialogues.get_dialogue.
  unfold Dialogues.bindM at 1. rewrite (is_message_by_self_Ok _ _ _ Hsender Hset), Hother.
  unfold Dialogues.bindM at 1. unfold Dialogues.lift at 1.
  unfold Message.sender, Message.to. rewrite Hsender, Hto.
  unfold Dialogues.bindM at 1. rewrite (agent_address_Ok _ Hset).
  reflexivity.
Qed.

(** [_complete_dialogue_reference] does nothing for a label that is no
    longer a key of the dialogues. *)
Lemma _complete_dialogue_reference_absent m sender st :
  Message._sender m = Some sender →
  chars (Dialogues._agent_address st) ≠ EmptyString →
  fst (Message.dialogue_reference m) ≠ UNASSIGNED_DIALOGUE_REFERENCE →
  snd (Message.dialogue_reference m) ≠ UNASSIGNED_DIALOGUE_REFERENCE →
  Dialogues.dialogues st
  !! DialogueLabel.key
       (DialogueLabel.mk
          (fst (Message.dialogue_reference m), UNASSIGNED_DIALOGUE_REFERENCE)
          sender (Dialogues._agent_address st)) = None →
  Dialogues._complete_dialogue_reference m st = (Ok tt, st).
Proof.
  intros Hsender Hset Hfst Hsnd Habsent. unfold Dialogues._complete_dialogue_reference.
  unfold Dialogues.bindM at 1. unfold Dialogues.lift at 1.
  rewrite !bool_decide_eq_false_2 by done; simpl.
  unfold Dialogues.bindM at 1. unfold Dialogues.lift at 1.
  unfold Message.sender. rewrite Hsender.
  unfold Dialogues.bindM at 1. rewrite (agent_address_Ok _ Hset).
  unfold Dialogues.bindM at 1. unfold Dialogues.get at 1.
  by rewrite Habsent.
Qed.


End Promotion.


(** ** The two ways in which [Dialogues.update] binds a dialogue *)

Section UpdateForward.
Context {T : ProtocolTypes} {R : Dialogue.Rules}.
Implicit Types (st : Dialogues.t) (m message : Message.t) (k : LabelKey).

Lemma has_to_set m to : Message._to m = Some to → Message.has_to m = true.
Proof.
  intros Hto. unfold Message.has_to. rewrite Hto.
  apply bool_decide_eq_true_2. by eexists.
Qed.

(** The first message of another agent: a dialogue is created under the
    complete label, the promotion of the incomplete label is recorded, and
    the message is appended. *)
Lemma update_creates entropy m sender to r0 st dialogue' :
  let agent := Dialogues._agent_address st in
  let incomplete :=
    DialogueLabel.mk (r0, UNASSIGNED_DIALOGUE_REFERENCE) sender sender in
  let complete := DialogueLabel.mk (r0, token_hex entropy) sender sender in
  Message._sender m = Some sender →
  addr_eq sender agent = false →
  Message._to m = Some to →
  chars agent ≠ EmptyString →
  Message.dialogue_reference m = (r0, UNASSIGNED_DIALOGUE_REFERENCE) →
  r0 ≠ UNASSIGNED_DIALOGUE_REFERENCE →
  Message.message_id m = 1 →
  Dialogues.incomplete_to_complete_dialogue_labels st !! DialogueLabel.key incomplete
  = None →
  Dialogues.dialogues st !! DialogueLabel.key complete = None →
  Dialogue.update
    (Dialogue.init complete agent (Dialogues._role_from_first_message st m)) m
  = Ok dialogue' →
  Dialogues.update entropy m st
  = (Ok (Some dialogue'),
     Dialogues.with_dialogues
       (<[DialogueLabel.key complete := dialogue']> (Dialogues.dialogues st))
       (Dialogues.with_incomplete_to_complete
          (<[DialogueLabel.key incomplete := complete]>
             (Dialogues.incomplete_to_complete_dialogue_labels st)) st)).
Proof.
  intros agent incomplete complete Hsender Hother Hto Hset Href Hr0 Hid Hpromo Hfree
    Haccepted.
  rewrite (update_unfold _ _ _ _ Hsender Hother (has_to_set _ _ Hto) Hset).
  unfold located, is_invalid_label, is_new_dialogue. rewrite Href, Hid; simpl.
  rewrite (bool_decide_eq_false_2 _ Hr0); simpl.
  unfold Message.sender. rewrite Hsender.
  unfold Dialogues.bindM at 1. unfold Dialogues.lift at 1.
  unfold Dialogues.bindM at 1. unfold Dialogues.get at 1.
  unfold Dialogues.bindM at 1.
  unfold Dialogues._create_opponent_initiated.
  unfold Dialogues.bindM at 1. unfold Dialogues.lift at 1. simpl.
  rewrite (bool_decide_eq_false_2 _ Hr0); simpl.
  unfold Dialogues._create, Dialogues._generate_dialogue_nonce.
  fold incomplete. fold complete.
  unfold Dialogues.bindM at 1. unfold Dialogues.get at 1.
  unfold Dialogues.bindM at 1. unfold Dialogues.lift at 1.
  rewrite (proj2 (contains_false _ _) Hpromo); simpl.
  unfold Dialogues.bindM at 1. unfold Dialogues.bindM at 1.
  unfold Dialogues.modify at 1. unfold Dialogues.ret at 1.
  unfold Dialogues.bindM at 1. unfold Dialogues.get at 1.
  unfold Dialogues.bindM at 1. unfold Dialogues.lift at 1.
  simpl. rewrite (proj2 (contains_false _ _) Hfree); simpl.
  unfold Dialogues.bindM at 1.
  match goal with
  | |- context [Dialogues.agent_address ?st1] =>
      rewrite (agent_address_Ok st1) by done
  end.
  unfold Dialogues.bindM at 1. unfold Dialogues.modify at 1.
  unfold Dialogues.ret at 1 2. simpl.
  unfold Dialogues.update_in_place. fold agent. rewrite Haccepted.
  unfold_M. simpl. by rewrite insert_insert_eq.
Qed.

(** The first reply to a dialogue that the agent started: the dialogue is
    moved from under its incomplete label to under the complete label, the
    promotion is recorded, and the message is appended. *)
Lemma update_promotes entropy m sender to r0 r1 st dialogue dialogue' :
  let agent := Dialogues._agent_address st in
  let incomplete :=
    DialogueLabel.mk (r0, UNASSIGNED_DIALOGUE_REFERENCE) sender agent in
  let final := DialogueLabel.mk (r0, r1) sender agent in
  Message._sender m = Some sender →
  addr_eq sender agent = false →
  Message._to m = Some to →
  chars agent ≠ EmptyString →
  Message.dialogue_reference m = (r0, r1) →
  r0 ≠ UNASSIGNED_DIALOGUE_REFERENCE →
  r1 ≠ UNASSIGNED_DIALOGUE_REFERENCE →
  Dialogues.dialogues st !! DialogueLabel.key incomplete = Some dialogue →
  Dialogues.incomplete_to_complete_dialogue_labels st !! DialogueLabel.key incomplete
  = None →
  Dialogues.incomplete_to_complete_dialogue_labels st !! DialogueLabel.key final
  = None →
  snd (DialogueLabel.dialogue_reference (Dialogue.dialogue_label dialogue))
  = UNASSIGNED_DIALOGUE_REFERENCE →
  Dialogue.update (Dialogue.with_dialogue_label final dialogue) m = Ok dialogue' →
  Dialogues.update entropy m st
  = (Ok (Some dialogue'),
     Dialogues.with_dialogues
       (<[DialogueLabel.key final := dialogue']>
          (delete (DialogueLabel.key incomplete) (Dialogues.dialogues st)))
       (Dialogues.with_incomplete_to_complete
          (<[DialogueLabel.key incomplete := final]>
             (Dialogues.incomplete_to_complete_dialogue_labels st)) st)).
Proof.
  intros agent incomplete final Hsender Hother Hto Hset Href Hr0 Hr1 Hdialogue Hpromo
    Hfinal Hlabel Haccepted.
  assert (DialogueLabel.key final ≠ DialogueLabel.key incomplete) as Hne
    by (intros [= ?]; done).
  set (st1 :=
         Dialogues.with_dialogues
           (<[DialogueLabel.key final := Dialogue.with_dialogue_label final dialogue]>
              (delete (DialogueLabel.key incomplete) (Dialogues.dialogues st)))
           (Dialogues.with_incomplete_to_complete
              (<[DialogueLabel.key incomplete := final]>
                 (Dialogues.incomplete_to_complete_dialogue_labels st)) st)).
  assert (Dialogues._complete_dialogue_reference m st = (Ok tt, st1)) as Hcomplete.
  { unfold Dialogues._complete_dialogue_reference.
    unfold Dialogues.bindM at 1. unfold Dialogues.lift at 1.
    rewrite Href; simpl. rewrite !bool_decide_eq_false_2 by done; simpl.
    unfold Dialogues.bindM at 1. unfold Dialogues.lift at 1.
    unfold Message.sender. rewrite Hsender.
    unfold Dialogues.bindM at 1. rewrite (agent_address_Ok _ Hset).
    unfold Dialogues.bindM at 1. unfold Dialogues.get at 1.
    fold agent. fold incomplete. rewrite Hdialogue.
    rewrite (proj2 (contains_false _ _) Hpromo); simpl.
    unfold Dialogue.update_dialogue_label. unfold_M.
    rewrite Hlabel; simpl. rewrite bool_decide_eq_false_2 by done; simpl.
    reflexivity. }
  assert (Dialogues.get_dialogue m st1
          = (Ok (Some (DialogueLabel.key final,
                       Dialogue.with_dialogue_label final dialogue)), st1)) as Hget.
  { rewrite (get_dialogue_inbound m sender to st1 Hsender Hother Hto Hset), Href.
    unfold Dialogues.get_latest_label, Dialogues.get_dialogue_from_label. simpl.
    fold agent. fold final.
    rewrite (lookup_insert_ne _ (DialogueLabel.key incomplete) (DialogueLabel.key final))
      by done.
    rewrite Hfinal. simpl. by rewrite lookup_insert_eq. }
  rewrite (update_unfold _ _ _ _ Hsender Hother (has_to_set _ _ Hto) Hset).
  unfold located, is_invalid_label, is_new_dialogue. rewrite Href; simpl.
  rewrite !bool_decide_eq_false_2 by done; simpl.
  unfold Dialogues.bindM at 1. rewrite Hcomplete, Hget.
  unfold Dialogues.update_in_place. rewrite Haccepted.
  unfold_M. simpl. by rewrite insert_insert_eq.
Qed.

End UpdateForward.



(** ** A dialogue that the opponent started *)

(** Two keys that differ in one of their strings. *)
Ltac distinct_keys :=
  let Heq := fresh "Heq" in
  intros Heq; vm_compute in Heq; discriminate Heq.

(** C1, at the second message of a dialogue that bob started with alice.
    [update] created the dialogue from the first message of bob, stored it
    under its complete label and recorded the promotion.  The second message
    of bob carries the reference of the dialogue; the dialogue itself takes
    the message as its own and would accept it; but [get_dialogue] builds
    the label of an opponent-initiated dialogue with the recipient of the
    message, alice, as starter, finds nothing, and [update] returns [None]. *)
Theorem opponent_initiated_dialogue_is_not_found :
  Dialogues.update TProtocolNoCt.entropy1 TProtocolNoCt.first_of_bob
    TProtocolNoCt.registry0
  = (Ok (Some TProtocolNoCt.dialogue_of_bob), TProtocolNoCt.registry_of_bob)
  ∧ Dialogues.dialogues TProtocolNoCt.registry_of_bob
    !! DialogueLabel.key TProtocolNoCt.bob_complete_label
    = Some TProtocolNoCt.dialogue_of_bob
  ∧ Dialogues.incomplete_to_complete_dialogue_labels TProtocolNoCt.registry_of_bob
    !! DialogueLabel.key TProtocolNoCt.bob_incomplete_label
    = Some TProtocolNoCt.bob_complete_label
  ∧ Message.dialogue_reference TProtocolNoCt.second_of_bob
    = DialogueLabel.dialogue_reference
        (Dialogue.dialogue_label TProtocolNoCt.dialogue_of_bob)
  ∧ Dialogue.is_belonging_to_dialogue TProtocolNoCt.dialogue_of_bob
      TProtocolNoCt.second_of_bob = Ok true
  ∧ (∃ dialogue', Dialogue.update TProtocolNoCt.dialogue_of_bob
                    TProtocolNoCt.second_of_bob = Ok dialogue')
  ∧ Dialogues.get_dialogue TProtocolNoCt.second_of_bob TProtocolNoCt.registry_of_bob
    = (Ok None, TProtocolNoCt.registry_of_bob)
  ∧ Dialogues.update TProtocolNoCt.entropy2 TProtocolNoCt.second_of_bob
      TProtocolNoCt.registry_of_bob
    = (Ok None, TProtocolNoCt.registry_of_bob).
Proof.
  split.
  { apply (update_creates TProtocolNoCt.entropy1 TProtocolNoCt.first_of_bob
             TProtocolNoCt.bob TProtocolNoCt.alice TProtocolNoCt.nonce2
             TProtocolNoCt.registry0 TProtocolNoCt.dialogue_of_bob);
      first [apply lookup_empty | discriminate | reflexivity]. }
  split; [apply lookup_insert_eq|]. split; [apply lookup_insert_eq|].
  split; [reflexivity|]. split; [reflexivity|].
  split; [eexists; reflexivity|].
  assert (chars (Dialogues._agent_address TProtocolNoCt.registry_of_bob) ≠ EmptyString)
    as Hset by (change (chars TProtocolNoCt.alice ≠ EmptyString); discriminate).
  assert (Dialogues.get_dialogue TProtocolNoCt.second_of_bob TProtocolNoCt.registry_of_bob
          = (Ok None, TProtocolNoCt.registry_of_bob)) as Hget.
  { rewrite (get_dialogue_inbound TProtocolNoCt.second_of_bob TProtocolNoCt.bob
               TProtocolNoCt.alice TProtocolNoCt.registry_of_bob
               eq_refl eq_refl eq_refl Hset).
    unfold Dialogues.get_latest_label, Dialogues.get_dialogue_from_label,
      TProtocolNoCt.registry_of_bob; simpl.
    rewrite (lookup_insert_ne _ (DialogueLabel.key TProtocolNoCt.bob_incomplete_label))
      by distinct_keys.
    rewrite lookup_empty; simpl.
    rewrite (lookup_insert_ne _ (DialogueLabel.key TProtocolNoCt.bob_complete_label))
      by distinct_keys.
    rewrite lookup_empty. reflexivity. }
  split; [exact Hget|].
  assert (Dialogues._complete_dialogue_reference TProtocolNoCt.second_of_bob
            TProtocolNoCt.registry_of_bob
          = (Ok tt, TProtocolNoCt.registry_of_bob)) as Hcomplete.
  { apply (_complete_dialogue_reference_absent TProtocolNoCt.second_of_bob
             TProtocolNoCt.bob TProtocolNoCt.registry_of_bob eq_refl Hset);
      [distinct_keys|distinct_keys|].
    unfold TProtocolNoCt.registry_of_bob; simpl.
    rewrite lookup_insert_ne by distinct_keys. apply lookup_empty. }
  rewrite (update_unfold TProtocolNoCt.entropy2 TProtocolNoCt.second_of_bob
             TProtocolNoCt.bob TProtocolNoCt.registry_of_bob
             eq_refl eq_refl eq_refl Hset).
  unfold located.
  replace (is_invalid_label TProtocolNoCt.second_of_bob) with false by reflexivity.
  replace (is_new_dialogue TProtocolNoCt.second_of_bob) with false by reflexivity.
  unfold Dialogues.bindM. by rewrite Hcomplete, Hget.
Qed.


(** * Further properties of the module *)

(** ** Labels *)

(** Two labels with the same reference and the same characters in their
    addresses are equal. *)
Lemma label_eq_helper (l : DialogueLabel.t) (opponent_oid starter_oid : nat) :
  DialogueLabel.eq
    (DialogueLabel.mk (DialogueLabel.dialogue_reference l)
       (mkAddress opponent_oid (chars (DialogueLabel.dialogue_opponent_addr l)))
       (mkAddress starter_oid (chars (DialogueLabel.dialogue_starter_addr l)))) l
  = true.
Proof.
  unfold DialogueLabel.eq, addr_eq; simpl. by rewrite !bool_decide_eq_true_2.
Qed.

(** X1. [__eq__] holds between two labels exactly when [__hash__] hashes
    the same tuple for both, which is when they have the same key in a
    dictionary; it is reflexive, symmetric and transitive. *)
Theorem label_eq_agrees_with_hash (l1 l2 l3 : DialogueLabel.t) :
  (DialogueLabel.eq l1 l2 = true ↔ DialogueLabel.hashed l1 = DialogueLabel.hashed l2)
  ∧ (DialogueLabel.eq l1 l2 = true ↔ DialogueLabel.key l1 = DialogueLabel.key l2)
  ∧ DialogueLabel.eq l1 l1 = true
  ∧ DialogueLabel.eq l1 l2 = DialogueLabel.eq l2 l1
  ∧ (DialogueLabel.eq l1 l2 = true → DialogueLabel.eq l2 l3 = true →
     DialogueLabel.eq l1 l3 = true).
Proof.
  assert (∀ a b, DialogueLabel.eq a b = true
                 ↔ DialogueLabel.hashed a = DialogueLabel.hashed b) as Hhash.
  { intros [ra [ioa oa] [isa sa]] [rb [iob ob] [isb sb]].
    unfold DialogueLabel.eq, DialogueLabel.hashed, addr_eq; simpl.
    rewrite !andb_true_iff, !bool_decide_eq_true. split.
    - by intros [[-> ->] ->].
    - by intros [= -> -> ->]. }
  assert (∀ a b, DialogueLabel.hashed a = DialogueLabel.hashed b
                 ↔ DialogueLabel.key a = DialogueLabel.key b) as Hkey.
  { intros [[sra rra] [ioa oa] [isa sa]] [[srb rrb] [iob ob] [isb sb]].
    unfold DialogueLabel.hashed, DialogueLabel.key,
      DialogueLabel.dialogue_starter_reference,
      DialogueLabel.dialogue_responder_reference; simpl.
    split; by intros [= -> -> -> ->]. }
  split; [apply Hhash|]. split; [by rewrite Hhash, Hkey|].
  split; [by apply Hhash|]. split.
  - destruct (DialogueLabel.eq l1 l2) eqn:E12, (DialogueLabel.eq l2 l1) eqn:E21;
      try done.
    + apply Hhash in E12. symmetry in E12. apply Hhash in E12. congruence.
    + apply Hhash in E21. symmetry in E21. apply Hhash in E21. congruence.
  - rewrite !Hhash. congruence.
Qed.

(** X2. JSON round trip: [from_json] applied to the dictionary that
    [json] gives for a label gives the label back, with the same string
    objects. *)
Theorem from_json_json_roundtrip (l : DialogueLabel.t) :
  DialogueLabel.from_json (oid (DialogueLabel.dialogue_opponent_addr l))
    (oid (DialogueLabel.dialogue_starter_addr l)) (DialogueLabel.json l) = Some l
  ∧ ∀ opponent_oid starter_oid,
      ∃ l', DialogueLabel.from_json opponent_oid starter_oid (DialogueLabel.json l)
            = Some l'
            ∧ DialogueLabel.eq l' l = true.
Proof.
  assert (∀ opponent_oid starter_oid,
            DialogueLabel.from_json opponent_oid starter_oid (DialogueLabel.json l)
            = Some (DialogueLabel.mk (DialogueLabel.dialogue_reference l)
                      (mkAddress opponent_oid
                         (chars (DialogueLabel.dialogue_opponent_addr l)))
                      (mkAddress starter_oid
                         (chars (DialogueLabel.dialogue_starter_addr l))))) as Hget.
  { intros opponent_oid starter_oid.
    unfold DialogueLabel.from_json, DialogueLabel.json.
    rewrite lookup_insert_eq.
    rewrite (lookup_insert_ne _ "dialogue_starter_reference"
               "dialogue_responder_reference") by done.
    rewrite lookup_insert_eq.
    do 2 rewrite (lookup_insert_ne _ _ "dialogue_opponent_addr") by done.
    rewrite lookup_insert_eq.
    do 3 rewrite (lookup_insert_ne _ _ "dialogue_starter_addr") by done.
    rewrite lookup_insert_eq.
    by destruct l as [[sr rr] opponent starter]. }
  split.
  - rewrite Hget. by destruct l as [[sr rr] [ido oa] [ids sa]].
  - intros opponent_oid starter_oid. eexists. split; [apply Hget|].
    apply label_eq_helper.
Qed.

Section SplitCount.

Lemma split_cons sep s : ∃ piece pieces, split sep s = piece :: pieces.
Proof.
  destruct s as [|c rest]; simpl; [by eexists _, _|].
  case_decide; [by eexists _, _|].
  destruct (split sep rest); by eexists _, _.
Qed.

Lemma length_split sep s : length (split sep s) = S (count_char sep s).
Proof.
  induction s as [|c rest IH]; simpl; [done|].
  case_decide; simpl; [by rewrite IH|].
  destruct (split sep rest) as [|piece pieces]; simpl in *; done.
Qed.

Lemma join_cons sep piece piece' pieces :
  join sep (piece :: piece' :: pieces)
  = piece +:+ String sep (join sep (piece' :: pieces)).
Proof. done. Qed.

Lemma join_split sep s : join sep (split sep s) = s.
Proof.
  induction s as [|c rest IH]; [done|].
  destruct (split_cons sep rest) as (piece & pieces & Hsplit).
  cbn [split]. rewrite Hsplit in *. case_decide as Hc.
  - subst c. by rewrite join_cons, IH.
  - destruct pieces as [|piece' pieces].
    + cbn [join] in *. by rewrite IH.
    + rewrite join_cons. rewrite join_cons in IH.
      change (String c piece +:+ ?x) with (String c (piece +:+ x)). by rewrite IH.
Qed.

Lemma count_char_app c s1 s2 :
  count_char c (s1 +:+ s2) = (count_char c s1 + count_char c s2)%nat.
Proof.
  induction s1 as [|c' s1 IH]; simpl; [done|]. case_decide; simpl; by rewrite IH.
Qed.

Lemma in_str_count c s : in_str c s = true ↔ count_char c s ≠ 0%nat.
Proof.
  induction s as [|c' s IH]; simpl; [done|]. case_decide; [done|]. apply IH.
Qed.

Lemma count_char_str l :
  count_char underscore (DialogueLabel.str l)
  = (3 + count_char underscore (DialogueLabel.dialogue_starter_reference l)
     + count_char underscore (DialogueLabel.dialogue_responder_reference l)
     + count_char underscore (chars (DialogueLabel.dialogue_opponent_addr l))
     + count_char underscore (chars (DialogueLabel.dialogue_starter_addr l)))%nat.
Proof.
  unfold DialogueLabel.str. rewrite !count_char_app. simpl. lia.
Qed.

Lemma from_str_cases fresh obj :
  match DialogueLabel.from_str fresh obj with
  | Ok l => count_char underscore obj = 3%nat ∧ DialogueLabel.str l = obj
  | Raise e => e = ValueError ∧ count_char underscore obj ≠ 3%nat
  end.
Proof.
  unfold DialogueLabel.from_str.
  pose proof (length_split underscore obj) as Hlength.
  pose proof (join_split underscore obj) as Hjoin.
  destruct (split underscore obj) as [|a [|b [|c [|d [|e pieces]]]]];
    simpl in Hlength; try (split; [done|lia]).
  split; [lia|]. by rewrite <- Hjoin.
Qed.

End SplitCount.

(** X3. [from_str] returns exactly for the strings that hold three
    underscores, and raises [ValueError] for the others; the textual form of
    the label it returns is the string it was given. *)
Theorem from_str_returns_for_three_underscores (fresh : nat) (obj : string) :
  match DialogueLabel.from_str fresh obj with
  | Ok l => count_char underscore obj = 3%nat ∧ DialogueLabel.str l = obj
  | Raise e => e = ValueError ∧ count_char underscore obj ≠ 3%nat
  end.
Proof. apply from_str_cases. Qed.

(** X4. The textual form of a label one of whose four components holds an
    underscore is not parsed back: [from_str] raises [ValueError] on it. *)
Theorem from_str_str_raises_with_underscore (l : DialogueLabel.t) (fresh : nat) :
  in_str underscore (DialogueLabel.dialogue_starter_reference l) = true
  ∨ in_str underscore (DialogueLabel.dialogue_responder_reference l) = true
  ∨ in_str underscore (chars (DialogueLabel.dialogue_opponent_addr l)) = true
  ∨ in_str underscore (chars (DialogueLabel.dialogue_starter_addr l)) = true →
  DialogueLabel.from_str fresh (DialogueLabel.str l) = Raise ValueError.
Proof.
  intros Hunderscore.
  pose proof (from_str_cases fresh (DialogueLabel.str l)) as Hcases.
  destruct (DialogueLabel.from_str fresh (DialogueLabel.str l)) as [l'|e].
  - destruct Hcases as [Hcount _]. rewrite count_char_str in Hcount.
    rewrite !in_str_count in Hunderscore. lia.
  - by destruct Hcases as [-> _].
Qed.

Lemma from_str_str_raises_with_underscore_witness :
  DialogueLabel.str
    (DialogueLabel.mk ("r", "n") (mkAddress 2 "b_ob") (mkAddress 1 "alice"))
  = "r_n_b_ob_alice"
  ∧ DialogueLabel.from_str 7 "r_n_b_ob_alice" = Raise ValueError.
Proof.
  split; [reflexivity|].
  apply (from_str_str_raises_with_underscore
           (DialogueLabel.mk ("r", "n") (mkAddress 2 "b_ob") (mkAddress 1 "alice")) 7).
  right; right; left. reflexivity.
Defined.


(** ** Nonces *)

Section NonceFacts.

Lemma hex_digit_is_hex n : in_str (hex_digit n) "0123456789abcdef" = true.
Proof.
  unfold hex_digit. destruct (N.to_nat n) as [|k]; [done|].
  do 15 (destruct k as [|k]; [done|]). done.
Qed.

Lemma length_hexlify bytes : String.length (hexlify bytes) = (2 * length bytes)%nat.
Proof.
  induction bytes as [|b bytes IH]; [done|].
  cbn [hexlify length]. unfold hexlify_byte.
  change (String ?x (String ?y EmptyString) +:+ ?z) with (String x (String y z)).
  cbn [String.length]. rewrite IH. lia.
Qed.

Lemma hexlify_is_hex bytes c :
  in_str c (hexlify bytes) = true → in_str c "0123456789abcdef" = true.
Proof.
  induction bytes as [|b bytes IH]; [done|].
  cbn [hexlify]. unfold hexlify_byte.
  change (String ?x (String ?y EmptyString) +:+ ?z) with (String x (String y z)).
  cbn [in_str].
  case_decide as H1; [intros _; subst c; apply hex_digit_is_hex|].
  case_decide as H2; [intros _; subst c; apply hex_digit_is_hex|].
  apply IH.
Qed.

End NonceFacts.

(** X5. The reference that [new_self_initiated_dialogue_reference] returns
    is [(n, "")] where the nonce [n] has twice [NONCE_BYTES_NB], that is 64,
    characters, all of them hexadecimal digits: [n] is not the empty string
    that marks an unassigned reference, and it holds no underscore, the
    separator of the textual form of labels. *)
Theorem new_reference_is_fresh_hex {T : ProtocolTypes}
    (entropy : list Init.Byte.byte) :
  drawn entropy →
  let reference := Dialogues.new_self_initiated_dialogue_reference entropy in
  snd reference = UNASSIGNED_DIALOGUE_REFERENCE
  ∧ String.length (fst reference) = 64%nat
  ∧ fst reference ≠ UNASSIGNED_DIALOGUE_REFERENCE
  ∧ (∀ c, in_str c (fst reference) = true → in_str c "0123456789abcdef" = true)
  ∧ in_str underscore (fst reference) = false.
Proof.
  intros Hdrawn reference. split; [done|].
  assert (String.length (fst reference) = 64%nat) as Hlength.
  { unfold reference; simpl. unfold Dialogues._generate_dialogue_nonce, token_hex.
    rewrite length_hexlify, Hdrawn. done. }
  split; [done|]. split.
  { intros Hempty. rewrite Hempty in Hlength. discriminate Hlength. }
  split; [intros c; apply hexlify_is_hex|].
  destruct (in_str underscore (fst reference)) eqn:Hin; [|done].
  apply hexlify_is_hex in Hin. discriminate Hin.
Qed.

Lemma new_reference_is_fresh_hex_witness :
  drawn TProtocolNoCt.entropy1
  ∧ String.length
      (fst (Dialogues.new_self_initiated_dialogue_reference TProtocolNoCt.entropy1))
    = 64%nat.
Proof.
  split; [reflexivity|].
  apply (new_reference_is_fresh_hex TProtocolNoCt.entropy1). reflexivity.
Defined.

(** ** Dialogues, one at a time *)

Section DialogueSteps.
Context {T : ProtocolTypes} {R : Dialogue.Rules}.
Implicit Types (d : Dialogue.t) (m message : Message.t).

(** What [update] keeps of the dialogue. *)
Lemma update_keeps d m d' :
  Dialogue.update d m = Ok d' →
  Dialogue.agent_address d' = Dialogue.agent_address d
  ∧ Dialogue.role d' = Dialogue.role d
  ∧ Dialogue.dialogue_label d' = Dialogue.dialogue_label d
  ∧ Dialogue.incomplete_dialogue_label d' = Dialogue.incomplete_dialogue_label d
  ∧ Dialogue.is_self_initiated d' = Dialogue.is_self_initiated d.
Proof.
  intros H. apply update_Ok in H as (_ & _ & _ & _ & [[_ ->]|[_ ->]]); done.
Qed.

Lemma update_dialogue_label_Ok d label d' :
  Dialogue.update_dialogue_label d label = Ok d' →
  snd (DialogueLabel.dialogue_reference (Dialogue.dialogue_label d))
  = UNASSIGNED_DIALOGUE_REFERENCE
  ∧ snd (DialogueLabel.dialogue_reference label) ≠ UNASSIGNED_DIALOGUE_REFERENCE
  ∧ d' = Dialogue.with_dialogue_label label d.
Proof.
  unfold Dialogue.update_dialogue_label. intros H. step_in H.
  apply assert_that_Ok, andb_true_iff in E as [Hcurrent Hfinal].
  apply bool_decide_eq_true in Hcurrent.
  apply negb_true_iff, bool_decide_eq_false in Hfinal.
  by inversion H.
Qed.

End DialogueSteps.

(** X6. A message whose sender is not set is taken as a message of the
    agent: [Dialogue.update] assigns the address of the agent as its sender,
    and, when it accepts the message, appends it to the outgoing log and
    leaves the incoming log as it was. *)
Theorem update_stamps_unset_sender {T : ProtocolTypes} {R : Dialogue.Rules}
    (d d' : Dialogue.t) (m : Message.t) :
  Message._sender m = None →
  Dialogue.update d m = Ok d' →
  Dialogue.outgoing_messages d'
  = Dialogue.outgoing_messages d ++ [Message.set_sender (Dialogue.agent_address d) m]
  ∧ Dialogue.incoming_messages d' = Dialogue.incoming_messages d.
Proof.
  intros Hsender H. apply update_Ok in H as (_ & _ & _ & _ & H).
  assert (Dialogue.stamped d m = Message.set_sender (Dialogue.agent_address d) m)
    as Hstamped.
  { unfold Dialogue.stamped, Message.has_sender. rewrite Hsender.
    rewrite bool_decide_eq_false_2; [done|]. by intros [? ?]. }
  rewrite Hstamped in H.
  assert (Dialogue.is_message_by_self d
            (Message.set_sender (Dialogue.agent_address d) m) = Ok true) as Hself.
  { unfold Dialogue.is_message_by_self, addr_eq; simpl.
    by rewrite bool_decide_eq_true_2. }
  rewrite Hself in H. destruct H as [[_ ->]|[? _]]; done.
Qed.

Lemma update_stamps_unset_sender_witness :
  Dialogue.outgoing_messages TProtocolNoCt.dialogue1 = [TProtocolNoCt.message1]
  ∧ Dialogue.incoming_messages TProtocolNoCt.dialogue1 = [].
Proof.
  apply (update_stamps_unset_sender TProtocolNoCt.dialogue0 TProtocolNoCt.dialogue1
           (@Message.mk TProtocolNoCt.types (TProtocolNoCt.nonce1, EmptyString) 1 0
              TProtocolNoCt.PERFORMATIVE_PT tt None (Some TProtocolNoCt.bob)));
    reflexivity.
Defined.

(** X7. [update], [reply] and [update_dialogue_label] never change the
    address of the agent, the role, the incomplete label and
    [is_self_initiated] of a dialogue; [update] and [reply] do not change its
    label either. *)
Theorem dialogue_attributes_are_kept {T : ProtocolTypes} {R : Dialogue.Rules}
    (d d' : Dialogue.t) :
  (∃ m, Dialogue.update d m = Ok d')
  ∨ (∃ target_message performative kwargs reply,
        Dialogue.reply d target_message performative kwargs = Ok (reply, d'))
  ∨ (∃ label, Dialogue.update_dialogue_label d label = Ok d') →
  Dialogue.agent_address d' = Dialogue.agent_address d
  ∧ Dialogue.role d' = Dialogue.role d
  ∧ Dialogue.incomplete_dialogue_label d' = Dialogue.incomplete_dialogue_label d
  ∧ Dialogue.is_self_initiated d' = Dialogue.is_self_initiated d
  ∧ ((∀ label, Dialogue.update_dialogue_label d label ≠ Ok d') →
     Dialogue.dialogue_label d' = Dialogue.dialogue_label d).
Proof.
  intros [[m H]|[(tm & p & kw & r & H)|[label H]]].
  - apply update_keeps in H as (? & ? & ? & ? & ?). done.
  - apply reply_is_update, update_keeps in H as (? & ? & ? & ? & ?). done.
  - pose proof H as H'. apply update_dialogue_label_Ok in H as (_ & _ & ->).
    do 4 (split; [done|]). intros Hnot. by destruct (Hnot label).
Qed.

Lemma dialogue_attributes_are_kept_witness :
  Dialogue.is_self_initiated TProtocolNoCt.dialogue2
  = Dialogue.is_self_initiated TProtocolNoCt.dialogue1.
Proof.
  apply (dialogue_attributes_are_kept TProtocolNoCt.dialogue1 TProtocolNoCt.dialogue2).
  left. exists TProtocolNoCt.message2. reflexivity.
Defined.

(** X8. [update_dialogue_label] completes the label of a dialogue at most
    once: it returns only when the responder reference of the current label
    is unassigned and that of the final label is assigned; the final label
    is then the label of the dialogue, the logs are as before, and every
    later call fails its assertion. *)
Theorem update_dialogue_label_only_once {T : ProtocolTypes} {R : Dialogue.Rules}
    (d d' : Dialogue.t) (final : DialogueLabel.t) :
  Dialogue.update_dialogue_label d final = Ok d' →
  snd (DialogueLabel.dialogue_reference (Dialogue.dialogue_label d))
  = UNASSIGNED_DIALOGUE_REFERENCE
  ∧ snd (DialogueLabel.dialogue_reference final) ≠ UNASSIGNED_DIALOGUE_REFERENCE
  ∧ Dialogue.dialogue_label d' = final
  ∧ Dialogue.outgoing_messages d' = Dialogue.outgoing_messages d
  ∧ Dialogue.incoming_messages d' = Dialogue.incoming_messages d
  ∧ ∀ label, Dialogue.update_dialogue_label d' label
             = Raise (AssertionError "Dialogue label cannot be updated.").
Proof.
  intros H. apply update_dialogue_label_Ok in H as (Hcurrent & Hfinal & ->).
  do 5 (split; [done|]). intros label.
  unfold Dialogue.update_dialogue_label; simpl.
  by rewrite (bool_decide_eq_false_2 _ Hfinal).
Qed.

Lemma update_dialogue_label_only_once_witness :
  Dialogue.update_dialogue_label
    (Dialogue.with_dialogue_label TProtocolNoCt.final_label TProtocolNoCt.dialogue1)
    TProtocolNoCt.final_label
  = Raise (AssertionError "Dialogue label cannot be updated.").
Proof.
  apply (update_dialogue_label_only_once TProtocolNoCt.dialogue1
           (Dialogue.with_dialogue_label TProtocolNoCt.final_label
              TProtocolNoCt.dialogue1)
           TProtocolNoCt.final_label).
  reflexivity.
Defined.

(** ** The logs of a reachable dialogue *)

Section ReachableLogs.
Context {T : ProtocolTypes} {R : Dialogue.Rules}.
Implicit Types (d : Dialogue.t) (m message : Message.t).

Lemma length_merged_log d :
  length (merged_log d)
  = (length (Dialogue.outgoing_messages d) + length (Dialogue.incoming_messages d))%nat.
Proof.
  unfold merged_log. rewrite <- length_app. apply Permutation_length, merge_perm.
Qed.

Lemma last_message_position d m :
  log_invariant d →
  Dialogue.last_message d = Some m →
  ∃ log, merged_log d = log ++ [m]
         ∧ Message.message_id m = Z.of_nat (length log) + 1
         ∧ Message.target m = Z.of_nat (length log).
Proof.
  intros [Hlog Hlast] Hm. rewrite Hlast in Hm.
  apply last_Some in Hm as [log Hmerged]. exists log. split; [done|].
  apply Hlog. rewrite Hmerged. by apply list_lookup_middle.
Qed.

(** The message that [get_message] finds is the one at that position of
    the merged log. *)
Lemma get_message_position d message_id m :
  log_invariant d →
  Dialogue.get_message d message_id = Ok (Some m) →
  merged_log d !! Z.to_nat (message_id - 1) = Some m.
Proof.
  intros [Hlog _] Hget. apply get_message_Some in Hget as [Hin Hid].
  rewrite <- merge_perm in Hin. apply list_elem_of_lookup in Hin as [k Hk].
  destruct (Hlog _ _ Hk) as [Hidk _].
  replace (Z.to_nat (message_id - 1)) with k by lia. done.
Qed.

Lemma get_message_found d message_id :
  log_invariant d →
  1 ≤ message_id ≤ Z.of_nat (length (merged_log d)) →
  ∃ m, Dialogue.get_message d message_id = Ok (Some m).
Proof.
  intros Hinv Hrange. pose proof Hinv as [Hlog _].
  destruct (lookup_lt_is_Some_2 (merged_log d) (Z.to_nat (message_id - 1)))
    as [m0 Hm0]; [lia|].
  destruct (Hlog _ _ Hm0) as [Hid0 _].
  unfold Dialogue.get_message.
  rewrite length_merged_log, <- length_app in Hrange.
  destruct (1 <=? message_id) eqn:E1; [|lia].
  destruct (message_id <=?
            Z.of_nat (length (Dialogue.outgoing_messages d ++ Dialogue.incoming_messages d)))
    eqn:E2; [|lia].
  simpl.
  destruct (find (λ message, Message.message_id message =? message_id)
              (Dialogue.outgoing_messages d ++ Dialogue.incoming_messages d))
    as [m|] eqn:Hfind; [by exists m|].
  assert (m0 ∈ Dialogue.outgoing_messages d ++ Dialogue.incoming_messages d) as Hin.
  { rewrite <- merge_perm. by apply list_elem_of_lookup_2 in Hm0. }
  apply list_elem_of_In in Hin.
  pose proof (find_none _ _ Hfind _ Hin) as Hno. simpl in Hno. lia.
Qed.

(** The merged log after an accepted message. *)
Lemma merged_log_update d m d' :
  log_invariant d →
  Dialogue.update d m = Ok d' →
  merged_log d' = merged_log d ++ [Dialogue.stamped d m].
Proof.
  intros Hinv Hupdate. pose proof Hinv as [Hlog _].
  apply update_Ok in Hupdate as (_ & [reason Hbasic] & Hadd & _ & Hd').
  destruct (accepted_is_next _ _ _ Hinv Hbasic Hadd) as [Hid _].
  assert (∀ x, x ∈ Dialogue.outgoing_messages d ++ Dialogue.incoming_messages d →
               Message.message_id x < Message.message_id (Dialogue.stamped d m))
    as Hnewer.
  { intros x Hx. rewrite <- merge_perm in Hx.
    pose proof (consecutive_bound _ _ Hlog Hx). unfold merged_log in *. lia. }
  destruct Hd' as [[_ ->]|[_ ->]]; unfold merged_log; simpl;
    [by apply merge_snoc_l | by apply merge_snoc_r].
Qed.

Lemma follows_grammar_update d m d' :
  log_invariant d →
  follows_grammar (merged_log d) →
  Dialogue.update d m = Ok d' →
  follows_grammar (merged_log d').
Proof.
  intros Hinv [Hfirst Hnext] Hupdate.
  rewrite (merged_log_update _ _ _ Hinv Hupdate).
  apply update_Ok in Hupdate as (_ & [reason Hbasic] & Hadd & _ & _).
  destruct (accepted_is_next _ _ _ Hinv Hbasic Hadd) as [_ Htarget].
  apply _basic_validation_true in Hbasic as [_ Hbasic].
  destruct (Dialogue.last_message d) as [last_msg|] eqn:Hlast.
  - destruct (last_message_position _ _ Hinv Hlast) as (log & Hmerged & _ & _).
    destruct Hbasic as (_ & _ & tm & replies & Hget & Hreplies & Hin).
    apply (get_message_position _ _ _ Hinv) in Hget.
    split.
    + intros x Hx. apply Hfirst. rewrite Hmerged in *.
      rewrite lookup_app_l in Hx; [done|]. rewrite length_app; simpl. lia.
    + intros k x x' Hk Hk'.
      apply lookup_snoc_Some in Hk' as [[Hlt Hk']|[Hlen <-]].
      * rewrite lookup_app_l in Hk by lia. by apply (Hnext k).
      * rewrite lookup_app_l in Hk by lia.
        rewrite Htarget in Hget.
        replace (Z.to_nat (Z.of_nat (length (merged_log d)) - 1)) with k in Hget by lia.
        rewrite Hk in Hget. inversion Hget; subst. by exists replies.
  - destruct Hinv as [_ Hl]. rewrite Hlast in Hl. symmetry in Hl.
    apply last_None in Hl. rewrite Hl. destruct Hbasic as (_ & _ & Hinitial).
    split.
    + intros x [= <-]. done.
    + intros k x x' Hk Hk'. destruct k; discriminate Hk'.
Qed.

Lemma follows_grammar_reachable d :
  dialogue_reachable d → follows_grammar (merged_log d).
Proof.
  induction 1 as [label agent role | d m d' Hd IH Hupdate
                 | d tm p kw r d' Hd IH Hreply | d label d' Hd IH Hlabel].
  - split; [intros m Hm; discriminate Hm|intros k m m' Hk; discriminate Hk].
  - apply (follows_grammar_update d m); [by apply log_invariant_reachable|done..].
  - apply reply_is_update in Hreply.
    apply (follows_grammar_update d r); [by apply log_invariant_reachable|done..].
  - by apply update_dialogue_label_Ok in Hlabel as (_ & _ & ->).
Qed.

Lemma is_message_by_self_agent d d' m :
  Dialogue.agent_address d' = Dialogue.agent_address d →
  Dialogue.is_message_by_self d' m = Dialogue.is_message_by_self d m.
Proof. unfold Dialogue.is_message_by_self. by intros ->. Qed.

Lemma partition_update d m d' :
  (∀ x, x ∈ Dialogue.outgoing_messages d → Dialogue.is_message_by_self d x = Ok true) →
  (∀ x, x ∈ Dialogue.incoming_messages d → Dialogue.is_message_by_self d x = Ok false) →
  Dialogue.update d m = Ok d' →
  (∀ x, x ∈ Dialogue.outgoing_messages d' → Dialogue.is_message_by_self d' x = Ok true)
  ∧ (∀ x, x ∈ Dialogue.incoming_messages d' → Dialogue.is_message_by_self d' x = Ok false).
Proof.
  intros Hout Hinc Hupdate.
  apply update_Ok in Hupdate as (_ & _ & _ & _ & [[Hself ->]|[Hself ->]]);
    split; intros x Hx; simpl in Hx;
    rewrite (is_message_by_self_agent d) by done;
    try apply elem_of_app in Hx as [Hx|Hx%list_elem_of_singleton];
    subst; auto.
Qed.

End ReachableLogs.

(** X9. In a dialogue reached through [update], [reply] and
    [update_dialogue_label], every message of the outgoing log has its
    sender set and was sent by the agent, and every message of the incoming
    log has its sender set and was sent by someone else. *)
Theorem logs_are_partitioned_by_sender {T : ProtocolTypes} {R : Dialogue.Rules}
    (d : Dialogue.t) :
  dialogue_reachable d →
  (∀ m, m ∈ Dialogue.outgoing_messages d →
        Dialogue.is_message_by_self d m = Ok true
        ∧ ∃ sender, Message._sender m = Some sender
                    ∧ addr_eq sender (Dialogue.agent_address d) = true)
  ∧ (∀ m, m ∈ Dialogue.incoming_messages d →
        Dialogue.is_message_by_self d m = Ok false
        ∧ ∃ sender, Message._sender m = Some sender
                    ∧ addr_eq sender (Dialogue.agent_address d) = false).
Proof.
  intros Hreach.
  assert ((∀ x, x ∈ Dialogue.outgoing_messages d →
                Dialogue.is_message_by_self d x = Ok true)
          ∧ (∀ x, x ∈ Dialogue.incoming_messages d →
                Dialogue.is_message_by_self d x = Ok false)) as [Hout Hinc].
  { induction Hreach as [label agent role | d m d' Hd [IHo IHi] Hupdate
                        | d tm p kw r d' Hd [IHo IHi] Hreply | d label d' Hd IH Hlabel].
    - split; intros x Hx; by apply elem_of_nil in Hx.
    - by apply (partition_update d m).
    - apply reply_is_update in Hreply. by apply (partition_update d r).
    - by apply update_dialogue_label_Ok in Hlabel as (_ & _ & ->). }
  assert (∀ m b, Dialogue.is_message_by_self d m = Ok b →
                 ∃ sender, Message._sender m = Some sender
                           ∧ addr_eq sender (Dialogue.agent_address d) = b) as Hsender.
  { intros m b. unfold Dialogue.is_message_by_self, Message.sender.
    destruct (Message._sender m) as [sender|]; simpl; [|done].
    intros [= <-]. by exists sender. }
  split; intros m Hm; split; auto.
Qed.

Lemma logs_are_partitioned_by_sender_witness :
  Dialogue.is_message_by_self TProtocolNoCt.dialogue2 TProtocolNoCt.message2 = Ok false.
Proof.
  assert (dialogue_reachable TProtocolNoCt.dialogue2) as Hreach.
  { apply (reachable_update TProtocolNoCt.dialogue1 TProtocolNoCt.message2);
      [|reflexivity].
    apply (reachable_update TProtocolNoCt.dialogue0 TProtocolNoCt.message1);
      [|reflexivity].
    apply reachable_init. }
  apply (logs_are_partitioned_by_sender TProtocolNoCt.dialogue2 Hreach).
  apply list_elem_of_singleton. reflexivity.
Defined.

(** X10. In a reachable dialogue [last_message] is the last message of the
    merged log; its identifier is the number of messages of the dialogue and
    its target is one less; and [last_message] is [None] exactly when
    [is_empty] holds. *)
Theorem last_message_is_newest {T : ProtocolTypes} {R : Dialogue.Rules}
    (d : Dialogue.t) :
  dialogue_reachable d →
  Dialogue.last_message d = last (merged_log d)
  ∧ (∀ m, Dialogue.last_message d = Some m →
          Message.message_id m
          = Z.of_nat (length (Dialogue.outgoing_messages d)
                      + length (Dialogue.incoming_messages d))
          ∧ Message.target m = Message.message_id m - 1)
  ∧ (Dialogue.last_message d = None ↔ Dialogue.is_empty d = true).
Proof.
  intros Hreach. apply log_invariant_reachable in Hreach as Hinv.
  split; [by destruct Hinv|]. split.
  - intros m Hm.
    destruct (last_message_position _ _ Hinv Hm) as (log & Hmerged & Hid & Htarget).
    pose proof (length_merged_log d) as Hlen.
    rewrite Hmerged, length_app in Hlen; simpl in Hlen. lia.
  - destruct Hinv as [_ ->]. rewrite last_None.
    pose proof (length_merged_log d) as Hlen. unfold Dialogue.is_empty.
    rewrite andb_true_iff, !bool_decide_eq_true. split.
    + intros Hnil. rewrite Hnil in Hlen; simpl in Hlen. lia.
    + intros [Ho Hi]. apply length_zero_iff_nil. lia.
Qed.

Lemma last_message_is_newest_witness :
  Dialogue.last_message TProtocolNoCt.dialogue2 = Some TProtocolNoCt.message2
  ∧ Message.message_id TProtocolNoCt.message2 = 2.
Proof.
  assert (dialogue_reachable TProtocolNoCt.dialogue2) as Hreach.
  { apply (reachable_update TProtocolNoCt.dialogue1 TProtocolNoCt.message2);
      [|reflexivity].
    apply (reachable_update TProtocolNoCt.dialogue0 TProtocolNoCt.message1);
      [|reflexivity].
    apply reachable_init. }
  split; [reflexivity|].
  destruct (last_message_is_newest TProtocolNoCt.dialogue2 Hreach) as (_ & Hid & _).
  apply (Hid TProtocolNoCt.message2). reflexivity.
Defined.

(** X11. [get_message] in a reachable dialogue: it raises an
    [AssertionError] when the identifier is below 1 or above the number of
    messages, and otherwise returns the message at that position of the
    merged log, whose identifier is the one asked for; it never returns
    [None]. *)
Theorem get_message_returns_by_position {T : ProtocolTypes} {R : Dialogue.Rules}
    (d : Dialogue.t) (message_id : Z) :
  dialogue_reachable d →
  let count := Z.of_nat (length (Dialogue.outgoing_messages d)
                         + length (Dialogue.incoming_messages d)) in
  match Dialogue.get_message d message_id with
  | Ok found =>
      1 ≤ message_id ≤ count
      ∧ ∃ m, found = Some m
             ∧ merged_log d !! Z.to_nat (message_id - 1) = Some m
             ∧ Message.message_id m = message_id
  | Raise e =>
      (message_id < 1 ∨ count < message_id) ∧ ∃ reason, e = AssertionError reason
  end.
Proof.
  intros Hreach count. apply log_invariant_reachable in Hreach as Hinv.
  assert (count = Z.of_nat (length (merged_log d))) as Hcount
    by (by rewrite length_merged_log).
  destruct (decide (1 ≤ message_id ≤ count)) as [Hrange|Hrange].
  - destruct (get_message_found d message_id Hinv) as [m Hget]; [lia|].
    rewrite Hget. split; [done|]. exists m. split; [done|].
    split; [by apply get_message_position|].
    by apply get_message_Some in Hget as [_ ?].
  - unfold Dialogue.get_message. unfold count in Hrange. rewrite <- length_app in Hrange.
    destruct (1 <=? message_id) eqn:E1; simpl.
    + destruct (message_id <=?
                Z.of_nat (length (Dialogue.outgoing_messages d
                                  ++ Dialogue.incoming_messages d))) eqn:E2; simpl.
      * lia.
      * split; [|by eexists]. right. unfold count. rewrite <- length_app. lia.
    + split; [|by eexists]. left. lia.
Qed.

Lemma get_message_returns_by_position_witness :
  Dialogue.get_message TProtocolNoCt.dialogue2 2 = Ok (Some TProtocolNoCt.message2)
  ∧ 1 ≤ 2 ≤ 2.
Proof.
  assert (dialogue_reachable TProtocolNoCt.dialogue2) as Hreach.
  { apply (reachable_update TProtocolNoCt.dialogue1 TProtocolNoCt.message2);
      [|reflexivity].
    apply (reachable_update TProtocolNoCt.dialogue0 TProtocolNoCt.message1);
      [|reflexivity].
    apply reachable_init. }
  split; [reflexivity|].
  apply (get_message_returns_by_position TProtocolNoCt.dialogue2 2 Hreach).
Defined.

(** X12. The messages of a reachable dialogue follow the reply structure
    of the protocol: the first message of the merged log has an initial
    performative, and the performative of every later message is among the
    valid replies to the performative of the message just before it. *)
Theorem reachable_dialogue_follows_grammar {T : ProtocolTypes} {R : Dialogue.Rules}
    (d : Dialogue.t) :
  dialogue_reachable d →
  (∀ m, merged_log d !! 0%nat = Some m →
        Message.performative m ∈ Dialogue.initial_performatives)
  ∧ (∀ (k : nat) m m',
        merged_log d !! k = Some m → merged_log d !! S k = Some m' →
        ∃ replies,
          Dialogue.get_valid_replies (Message.performative m) = Ok replies
          ∧ Message.performative m' ∈ replies).
Proof.
  intros Hreach. destruct (follows_grammar_reachable d Hreach) as [Hfirst Hnext].
  split; [done|]. intros k m m' Hk Hk'.
  destruct (Hnext k m m' Hk Hk') as (replies & Hreplies & Hin).
  exists replies. unfold Dialogue.get_valid_replies. by rewrite Hreplies.
Qed.

Lemma reachable_dialogue_follows_grammar_witness :
  ∃ replies,
    Dialogue.get_valid_replies (Message.performative TProtocolNoCt.message1) = Ok replies
    ∧ Message.performative TProtocolNoCt.message2 ∈ replies.
Proof.
  assert (dialogue_reachable TProtocolNoCt.dialogue2) as Hreach.
  { apply (reachable_update TProtocolNoCt.dialogue1 TProtocolNoCt.message2);
      [|reflexivity].
    apply (reachable_update TProtocolNoCt.dialogue0 TProtocolNoCt.message1);
      [|reflexivity].
    apply reachable_init. }
  destruct (reachable_dialogue_follows_grammar TProtocolNoCt.dialogue2 Hreach)
    as [_ Hnext].
  apply (Hnext 0%nat); reflexivity.
Defined.

(** X13. [reply] answers the last message only.  When it returns in a
    reachable dialogue, the dialogue was not empty and the target message
    has the identifier of the last message; the reply carries
    the reference of the label of the dialogue, the next identifier, the
    identifier of the last message as target, the agent as sender and the
    opponent of the label as receiver; and it is appended to the outgoing
    log, the incoming log being kept. *)
Theorem reply_answers_the_last_message {T : ProtocolTypes} {R : Dialogue.Rules}
    (d d' : Dialogue.t) (target_message reply : Message.t)
    (performative : Performative) (kwargs : Content) :
  dialogue_reachable d →
  Dialogue.reply d target_message performative kwargs = Ok (reply, d') →
  ∃ last_msg,
    Dialogue.last_message d = Some last_msg
    ∧ Message.message_id target_message = Message.message_id last_msg
    ∧ reply = Message.mk (DialogueLabel.dialogue_reference (Dialogue.dialogue_label d))
                (Message.message_id last_msg + 1) (Message.message_id last_msg)
                performative kwargs
                (Some (Dialogue.agent_address d))
                (Some (DialogueLabel.dialogue_opponent_addr (Dialogue.dialogue_label d)))
    ∧ Dialogue.outgoing_messages d' = Dialogue.outgoing_messages d ++ [reply]
    ∧ Dialogue.incoming_messages d' = Dialogue.incoming_messages d.
Proof.
  intros Hreach Hreply. apply log_invariant_reachable in Hreach as Hinv.
  pose proof (reply_is_update _ _ _ _ _ _ Hreply) as Hupdate.
  unfold Dialogue.reply in Hreply.
  destruct (Dialogue.last_message d) as [last_msg|] eqn:Hlast; [|discriminate Hreply].
  step_in Hreply. injection Hreply as Hr Hd'.
  exists last_msg. split; [done|].
  destruct (update_Ok_next _ _ _ _ Hupdate Hlast) as [_ Htarget].
  destruct (last_message_position _ _ Hinv Hlast) as (log & _ & Hid & Hlast_target).
  rewrite <- Hr in Htarget. simpl in Htarget.
  assert (Message.message_id target_message = Message.message_id last_msg) as Hsame
    by lia.
  split; [done|]. split.
  { rewrite <- Hr. unfold Message.set_to, Message.set_sender; simpl. by rewrite Hsame. }
  assert (Dialogue.stamped d reply = reply) as Hstamped.
  { rewrite <- Hr. by eapply stamped_has_sender. }
  apply update_Ok in Hupdate as (_ & _ & _ & _ & Hcases). rewrite Hstamped in Hcases.
  assert (Dialogue.is_message_by_self d reply = Ok true) as Hself.
  { rewrite <- Hr. unfold Dialogue.is_message_by_self, addr_eq; simpl.
    by rewrite bool_decide_eq_true_2. }
  rewrite Hself in Hcases. destruct Hcases as [[_ ->]|[? _]]; done.
Qed.

Lemma reply_answers_the_last_message_witness :
  ∃ last_msg,
    Dialogue.last_message TProtocolNoCt.dialogue2 = Some last_msg
    ∧ Message.message_id TProtocolNoCt.message2 = Message.message_id last_msg.
Proof.
  assert (dialogue_reachable TProtocolNoCt.dialogue2) as Hreach.
  { apply (reachable_update TProtocolNoCt.dialogue1 TProtocolNoCt.message2);
      [|reflexivity].
    apply (reachable_update TProtocolNoCt.dialogue0 TProtocolNoCt.message1);
      [|reflexivity].
    apply reachable_init. }
  destruct (Dialogue.reply TProtocolNoCt.dialogue2 TProtocolNoCt.message2
              TProtocolNoCt.PERFORMATIVE_MT tt) as [[reply d']|e] eqn:Hreply;
    [|discriminate Hreply].
  destruct (reply_answers_the_last_message _ _ _ _ _ _ Hreach Hreply)
    as (last_msg & Hlast & Hid & _).
  by exists last_msg.
Defined.

(** ** Interleaving of the two logs *)

Section Interleave.
Context {A : Type}.

Lemma _interleave_nil_l (list_2 : list (option A)) : Dialogue._interleave [] list_2 = omap id list_2.
Proof.
  unfold Dialogue._interleave, Dialogue.chain. cbn [Dialogue.zip_longest].
  induction list_2 as [|y list_2 IH]; [done|].
  cbn [fmap list_fmap flat_map fst snd app omap list_omap id]. rewrite <- IH.
  by destruct y.
Qed.

Lemma _interleave_nil_r (list_1 : list (option A)) : Dialogue._interleave list_1 [] = omap id list_1.
Proof.
  unfold Dialogue._interleave, Dialogue.chain.
  induction list_1 as [|x list_1 IH]; [done|].
  cbn [Dialogue.zip_longest flat_map fst snd app omap list_omap id]. rewrite <- IH.
  by destruct x.
Qed.

Lemma _interleave_cons (x : option A) (list_1 : list (option A)) (y : option A)
    (list_2 : list (option A)) :
  Dialogue._interleave (x :: list_1) (y :: list_2)
  = omap id [x; y] ++ Dialogue._interleave list_1 list_2.
Proof. unfold Dialogue._interleave, Dialogue.chain. by destruct x, y. Qed.

Lemma _interleave_perm (list_1 list_2 : list (option A)) :
  Dialogue._interleave list_1 list_2 ≡ₚ omap id list_1 ++ omap id list_2.
Proof.
  revert list_2. induction list_1 as [|x list_1 IH]; intros list_2.
  { by rewrite _interleave_nil_l. }
  destruct list_2 as [|y list_2].
  { by rewrite _interleave_nil_r, app_nil_r. }
  rewrite _interleave_cons, IH.
  destruct x, y; simpl; try done; try (constructor; apply Permutation_middle).
  apply Permutation_middle.
Qed.

Lemma _interleave_sublist_l (list_1 list_2 : list (option A)) :
  omap id list_1 `sublist_of` Dialogue._interleave list_1 list_2.
Proof.
  revert list_2. induction list_1 as [|x list_1 IH]; intros list_2.
  { apply sublist_nil_l. }
  destruct list_2 as [|y list_2].
  { by rewrite _interleave_nil_r. }
  rewrite _interleave_cons.
  destruct x, y; simpl; repeat constructor; apply IH.
Qed.

Lemma _interleave_sublist_r (list_1 list_2 : list (option A)) :
  omap id list_2 `sublist_of` Dialogue._interleave list_1 list_2.
Proof.
  revert list_2. induction list_1 as [|x list_1 IH]; intros list_2.
  { by rewrite _interleave_nil_l. }
  destruct list_2 as [|y list_2].
  { apply sublist_nil_l. }
  rewrite _interleave_cons.
  destruct x, y; simpl; repeat constructor; apply IH.
Qed.

Lemma _interleave_positions (values_1 values_2 : list A) (k : nat) a b :
  values_1 !! k = Some a → values_2 !! k = Some b →
  Dialogue._interleave (Some <$> values_1) (Some <$> values_2) !! (2 * k)%nat = Some a
  ∧ Dialogue._interleave (Some <$> values_1) (Some <$> values_2) !! S (2 * k) = Some b.
Proof.
  revert values_1 values_2.
  induction k as [|k IH]; intros [|a' values_1] [|b' values_2] Ha Hb;
    try discriminate Ha; try discriminate Hb; rewrite !fmap_cons, _interleave_cons.
  - simpl in *. by simplify_eq.
  - replace (2 * S k)%nat with (S (S (2 * k))) by lia. simpl in Ha, Hb.
    apply (IH values_1 values_2 Ha Hb).
Qed.

End Interleave.

(** X14. [_interleave] keeps exactly the elements of the two lists that are
    not [None]: the result is a permutation of them, the elements of each
    list come in the order of that list, and for two lists without [None]
    the elements alternate as long as both lists last, those of the first
    list at the even positions. *)
Theorem interleave_alternates {A : Type} (list_1 list_2 : list (option A)) :
  Dialogue._interleave list_1 list_2 ≡ₚ omap id list_1 ++ omap id list_2
  ∧ omap id list_1 `sublist_of` Dialogue._interleave list_1 list_2
  ∧ omap id list_2 `sublist_of` Dialogue._interleave list_1 list_2
  ∧ (Forall is_Some list_1 → Forall is_Some list_2 →
     length (Dialogue._interleave list_1 list_2)
     = (length list_1 + length list_2)%nat
     ∧ ∀ (k : nat) a b,
         list_1 !! k = Some (Some a) → list_2 !! k = Some (Some b) →
         Dialogue._interleave list_1 list_2 !! (2 * k)%nat = Some a
         ∧ Dialogue._interleave list_1 list_2 !! S (2 * k) = Some b).
Proof.
  split; [apply _interleave_perm|].
  split; [apply _interleave_sublist_l|].
  split; [apply _interleave_sublist_r|].
  intros H1 H2.
  assert (∀ l : list (option A), Forall is_Some l → l = Some <$> omap id l) as Hvalues.
  { induction 1 as [|x l [a ->] _ IH]; [done|]. simpl. f_equal. exact IH. }
  split.
  - assert (∀ l : list (option A), Forall is_Some l → length (omap id l) = length l)
      as Hlength.
    { intros l Hl. rewrite (Hvalues l Hl) at 2. by rewrite length_fmap. }
    by rewrite _interleave_perm, length_app, (Hlength _ H1), (Hlength _ H2).
  - intros k a b Ha Hb.
    rewrite (Hvalues _ H1), (Hvalues _ H2).
    apply _interleave_positions.
    + rewrite (Hvalues _ H1), list_lookup_fmap in Ha.
      destruct (omap id list_1 !! k); by simplify_eq/=.
    + rewrite (Hvalues _ H2), list_lookup_fmap in Hb.
      destruct (omap id list_2 !! k); by simplify_eq/=.
Qed.

Lemma interleave_alternates_witness :
  Dialogue._interleave [Some 1; Some 3; Some 4] [Some 2] = [1; 2; 3; 4]
  ∧ length (Dialogue._interleave [Some 1; Some 3; Some 4] [Some 2]) = 4%nat.
Proof.
  split; [reflexivity|].
  destruct (interleave_alternates [Some 1; Some 3; Some 4] [Some 2])
    as (_ & _ & _ & Hvalues).
  apply Hvalues; repeat constructor; by eexists.
Defined.

(** ** Statistics *)

Section Stats.
Context {EndState : Type} `{Countable EndState}.
Implicit Types (stats : @DialogueStats.t EndState _ _) (calls : list (EndState * bool)).

Lemma calls_with_cons end_state is_self_initiated e b calls :
  calls_with end_state is_self_initiated ((e, b) :: calls)
  = (if decide ((e, b) = (end_state, is_self_initiated)) then 1 else 0)
    + calls_with end_state is_self_initiated calls.
Proof.
  unfold calls_with. rewrite filter_cons.
  case_decide; simpl; lia.
Qed.

Lemma endstates_counted_from (end_states : gset EndState) calls stats :
  (∀ e, is_Some (DialogueStats._self_initiated stats !! e) ↔ e ∈ end_states) →
  (∀ e, is_Some (DialogueStats._other_initiated stats !! e) ↔ e ∈ end_states) →
  match add_dialogue_endstates calls stats with
  | Ok stats' =>
      (∀ e b, (e, b) ∈ calls → e ∈ end_states)
      ∧ (∀ e, DialogueStats._self_initiated stats' !! e
              = (λ count, count + calls_with e true calls)
                <$> DialogueStats._self_initiated stats !! e)
      ∧ (∀ e, DialogueStats._other_initiated stats' !! e
              = (λ count, count + calls_with e false calls)
                <$> DialogueStats._other_initiated stats !! e)
  | Raise error =>
      error = AssertionError "End state not present!"
      ∧ ∃ e b, (e, b) ∈ calls ∧ e ∉ end_states
  end.
Proof.
  revert stats. induction calls as [|[e0 b0] calls IH]; intros stats Hself Hother.
  { simpl. split; [by intros e b Hin%elem_of_nil|].
    split; intros e; unfold calls_with; simpl.
    - destruct (DialogueStats._self_initiated stats !! e); simpl; f_equal; lia.
    - destruct (DialogueStats._other_initiated stats !! e); simpl; f_equal; lia. }
  cbn [add_dialogue_endstates]. unfold DialogueStats.add_dialogue_endstate.
  destruct b0.
  - destruct (DialogueStats._self_initiated stats !! e0) as [n|] eqn:Hn; simpl.
    + assert (e0 ∈ end_states) as He0 by (apply Hself; by rewrite Hn).
      match goal with |- context [add_dialogue_endstates calls ?s] =>
        specialize (IH s) end.
      simpl in IH.
      destruct (add_dialogue_endstates calls _) as [stats'|error].
      * destruct IH as (Hcalls & Hs & Ho).
        { intros e. rewrite lookup_insert_is_Some. rewrite Hself.
          split; [intros [<-|[_ ?]]; done|]. intros He.
          destruct (decide (e0 = e)); [by left|by right]. }
        { done. }
        split.
        { intros e b [[= -> ->]|Hin]%elem_of_cons; [done|by apply (Hcalls e b)]. }
        split; intros e; rewrite calls_with_cons.
        -- rewrite Hs. destruct (decide (e0 = e)) as [->|Hne].
           ++ rewrite lookup_insert_eq, Hn; simpl. rewrite decide_True by done.
              f_equal. lia.
           ++ rewrite lookup_insert_ne by done.
              rewrite decide_False by (intros [= ?]; done).
              destruct (DialogueStats._self_initiated stats !! e); simpl; f_equal; lia.
        -- rewrite Ho. rewrite decide_False by (intros [= ? ?]; done).
           destruct (DialogueStats._other_initiated stats !! e); simpl; f_equal; lia.
      * destruct IH as (-> & e & b & Hin & He).
        { intros e. rewrite lookup_insert_is_Some. rewrite Hself.
          split; [intros [<-|[_ ?]]; done|]. intros He.
          destruct (decide (e0 = e)); [by left|by right]. }
        { done. }
        split; [done|]. exists e, b. split; [by apply elem_of_cons; right|done].
    + split; [done|]. exists e0, true. split; [by apply elem_of_cons; left|].
      intros He0%Hself. rewrite Hn in He0. by destruct He0.
  - destruct (DialogueStats._other_initiated stats !! e0) as [n|] eqn:Hn; simpl.
    + assert (e0 ∈ end_states) as He0 by (apply Hother; by rewrite Hn).
      match goal with |- context [add_dialogue_endstates calls ?s] =>
        specialize (IH s) end.
      simpl in IH.
      destruct (add_dialogue_endstates calls _) as [stats'|error].
      * destruct IH as (Hcalls & Hs & Ho).
        { done. }
        { intros e. rewrite lookup_insert_is_Some. rewrite Hother.
          split; [intros [<-|[_ ?]]; done|]. intros He.
          destruct (decide (e0 = e)); [by left|by right]. }
        split.
        { intros e b [[= -> ->]|Hin]%elem_of_cons; [done|by apply (Hcalls e b)]. }
        split; intros e; rewrite calls_with_cons.
        -- rewrite Hs. rewrite decide_False by (intros [= ? ?]; done).
           destruct (DialogueStats._self_initiated stats !! e); simpl; f_equal; lia.
        -- rewrite Ho. destruct (decide (e0 = e)) as [->|Hne].
           ++ rewrite lookup_insert_eq, Hn; simpl. rewrite decide_True by done.
              f_equal. lia.
           ++ rewrite lookup_insert_ne by done.
              rewrite decide_False by (intros [= ?]; done).
              destruct (DialogueStats._other_initiated stats !! e); simpl; f_equal; lia.
      * destruct IH as (-> & e & b & Hin & He).
        { done. }
        { intros e. rewrite lookup_insert_is_Some. rewrite Hother.
          split; [intros [<-|[_ ?]]; done|]. intros He.
          destruct (decide (e0 = e)); [by left|by right]. }
        split; [done|]. exists e, b. split; [by apply elem_of_cons; right|done].
    + split; [done|]. exists e0, false. split; [by apply elem_of_cons; left|].
      intros He0%Hother. rewrite Hn in He0. by destruct He0.
Qed.

End Stats.

(** X15. Counters of end states.  Starting from the statistics that
    [__init__] builds for a set of end states, a sequence of calls of
    [add_dialogue_endstate] goes through exactly when every end state it
    names is in the set; each of the two dictionaries then has the end
    states of the set as keys, and the counter of an end state is the number
    of calls that named it with the corresponding flag.  Otherwise the
    assertion [End state not present!] fails. *)
Theorem add_dialogue_endstate_counts {EndState : Type} `{Countable EndState}
    (end_states : gset EndState) (calls : list (EndState * bool)) :
  match add_dialogue_endstates calls (DialogueStats.init end_states) with
  | Ok stats =>
      (∀ e b, (e, b) ∈ calls → e ∈ end_states)
      ∧ (∀ e, DialogueStats.self_initiated stats !! e
              = if decide (e ∈ end_states) then Some (calls_with e true calls)
                else None)
      ∧ (∀ e, DialogueStats.other_initiated stats !! e
              = if decide (e ∈ end_states) then Some (calls_with e false calls)
                else None)
  | Raise error =>
      error = AssertionError "End state not present!"
      ∧ ∃ e b, (e, b) ∈ calls ∧ e ∉ end_states
  end.
Proof.
  pose proof (endstates_counted_from end_states calls
                (DialogueStats.init end_states)) as Hcounts.
  assert (∀ e, is_Some (gset_to_gmap (0 : Z) end_states !! e) ↔ e ∈ end_states)
    as Hdom.
  { intros e. rewrite lookup_gset_to_gmap. unfold guard. case_decide.
    - split; [done|]. by eexists.
    - split; [by intros [? ?]|done]. }
  specialize (Hcounts Hdom Hdom).
  destruct (add_dialogue_endstates calls (DialogueStats.init end_states))
    as [stats|error]; [|done].
  destruct Hcounts as (Hcalls & Hs & Ho). split; [done|].
  unfold DialogueStats.self_initiated, DialogueStats.other_initiated.
  split; intros e; [rewrite Hs|rewrite Ho]; simpl;
    rewrite lookup_gset_to_gmap; unfold guard; case_decide; simpl; f_equal; lia.
Qed.

Lemma add_dialogue_endstate_counts_witness :
  ∃ stats,
    add_dialogue_endstates [(1%nat, true); (2%nat, false); (1%nat, true)]
      (DialogueStats.init ({[1%nat; 2%nat]} : gset nat)) = Ok stats
    ∧ DialogueStats.self_initiated stats !! 1%nat = Some 2.
Proof.
  pose proof (add_dialogue_endstate_counts ({[1%nat; 2%nat]} : gset nat)
                [(1%nat, true); (2%nat, false); (1%nat, true)]) as Hcounts.
  destruct (add_dialogue_endstates [(1%nat, true); (2%nat, false); (1%nat, true)]
              (DialogueStats.init ({[1%nat; 2%nat]} : gset nat))) as [stats|error].
  - exists stats. split; [reflexivity|].
    destruct Hcounts as (_ & Hs & _). rewrite Hs. reflexivity.
  - destruct Hcounts as (_ & e & b & Hin & He). exfalso. apply He.
    apply elem_of_cons in Hin as [[= -> _]|Hin]; [set_solver|].
    apply elem_of_cons in Hin as [[= -> _]|Hin]; [set_solver|].
    apply elem_of_cons in Hin as [[= -> _]|Hin]; [set_solver|].
    by apply elem_of_nil in Hin.
Defined.

(** ** The registry: guards of [update] *)

(** X16. [Dialogues.update] is for the messages of other agents: for a
    message whose sender is the agent itself it fails its first assertion,
    and for a message of another agent whose receiver is not set it fails
    its second assertion; in both cases the registry is as before. *)
Theorem update_asserts_inbound_message {T : ProtocolTypes} {R : Dialogue.Rules}
    (st : Dialogues.t) (entropy : list Init.Byte.byte) (m : Message.t)
    (sender : Address) :
  Message._sender m = Some sender →
  chars (Dialogues._agent_address st) ≠ EmptyString →
  (addr_eq sender (Dialogues._agent_address st) = true →
   Dialogues.update entropy m st
   = (Raise (AssertionError
        "Invalid 'update' usage. Update must only be used with a message by another agent."),
      st))
  ∧ (addr_eq sender (Dialogues._agent_address st) = false →
     Message._to m = None →
     Dialogues.update entropy m st
     = (Raise (AssertionError "The message's 'to' field is not set {}"), st)).
Proof.
  intros Hsender Hset. split.
  - intros Hself. unfold Dialogues.update.
    unfold Dialogues.bindM at 1.
    rewrite (is_message_by_other_Ok _ _ _ Hsender Hset), Hself. done.
  - intros Hother Hto. unfold Dialogues.update.
    unfold Dialogues.bindM at 1.
    rewrite (is_message_by_other_Ok _ _ _ Hsender Hset), Hother.
    unfold Dialogues.bindM at 1. unfold Dialogues.lift at 1. simpl.
    unfold Dialogues.bindM at 1. unfold Dialogues.lift at 1.
    unfold Message.has_to. rewrite Hto.
    rewrite bool_decide_eq_false_2; [done|]. by intros [? ?].
Qed.

Lemma update_asserts_inbound_message_witness :
  Dialogues.update TProtocolNoCt.entropy1 TProtocolNoCt.message1 TProtocolNoCt.registry0
  = (Raise (AssertionError
       "Invalid 'update' usage. Update must only be used with a message by another agent."),
     TProtocolNoCt.registry0).
Proof.
  apply (update_asserts_inbound_message TProtocolNoCt.registry0 TProtocolNoCt.entropy1
           TProtocolNoCt.message1 TProtocolNoCt.alice);
    [reflexivity|discriminate|reflexivity].
Defined.

(** X17. A message of another agent whose reference is unassigned in both
    components names no dialogue: [Dialogues.update] returns [None] and
    leaves the registry as it was. *)
Theorem update_ignores_unassigned_reference {T : ProtocolTypes}
    {R : Dialogue.Rules} (st : Dialogues.t) (entropy : list Init.Byte.byte)
    (m : Message.t) (sender to : Address) :
  Message._sender m = Some sender →
  addr_eq sender (Dialogues._agent_address st) = false →
  Message._to m = Some to →
  chars (Dialogues._agent_address st) ≠ EmptyString →
  Message.dialogue_reference m
  = (UNASSIGNED_DIALOGUE_REFERENCE, UNASSIGNED_DIALOGUE_REFERENCE) →
  Dialogues.update entropy m st = (Ok None, st).
Proof.
  intros Hsender Hother Hto Hset Href.
  rewrite (update_unfold _ _ _ _ Hsender Hother (has_to_set _ _ Hto) Hset).
  unfold located, is_invalid_label. by rewrite Href.
Qed.

Lemma update_ignores_unassigned_reference_witness :
  Dialogues.update TProtocolNoCt.entropy1
    (TProtocolNoCt.inbound (EmptyString, EmptyString) 5 4 TProtocolNoCt.PERFORMATIVE_MT)
    TProtocolNoCt.registry0
  = (Ok None, TProtocolNoCt.registry0).
Proof.
  apply (update_ignores_unassigned_reference TProtocolNoCt.registry0
           TProtocolNoCt.entropy1
           (TProtocolNoCt.inbound (EmptyString, EmptyString) 5 4
              TProtocolNoCt.PERFORMATIVE_MT)
           TProtocolNoCt.bob TProtocolNoCt.alice);
    [reflexivity|reflexivity|reflexivity|discriminate|reflexivity].
Defined.

(** ** The registry: the first message of another agent *)

Section FirstMessage.
Context {T : ProtocolTypes} {R : Dialogue.Rules}.
Implicit Types (st : Dialogues.t) (m message : Message.t) (k : LabelKey).

(** A dialogue just made by [__init__], given a message whose sender is
    set and is not the agent, accepts it, or rejects it with
    [InvalidDialogueMessage], or lets through what [is_valid] raises; it
    raises nothing else. *)
Lemma fresh_update_outcome label agent role m sender :
  Message._sender m = Some sender →
  addr_eq sender agent = false →
  (∃ dialogue', Dialogue.update (Dialogue.init label agent role) m = Ok dialogue')
  ∨ (∃ reason, Dialogue.update (Dialogue.init label agent role) m
               = Raise (InvalidDialogueMessage reason))
  ∨ (∃ e, Dialogue.is_valid (Dialogue.init label agent role) m = Raise e
          ∧ Dialogue.update (Dialogue.init label agent role) m = Raise e).
Proof.
  intros Hsender Hother. unfold Dialogue.update.
  rewrite (stamped_has_sender _ _ _ Hsender).
  unfold Dialogue.is_belonging_to_dialogue, Dialogue.is_message_by_self,
    Message.sender.
  rewrite Hsender; simpl. rewrite Hother; simpl.
  unfold Dialogue.is_valid_next_message, Dialogue._basic_validation,
    Dialogue._additional_validation; simpl.
  destruct (Dialogue.is_valid (Dialogue.init label agent role) m)
    as [[valid reason]|e]; simpl;
    repeat (match goal with
            | |- context [if ?b then _ else _] => destruct b; simpl
            end);
    try (left; by eexists); try (right; left; by eexists);
    try (right; right; by eexists).
Qed.

Lemma located_first_message entropy m sender r0 st :
  let agent := Dialogues._agent_address st in
  let incomplete :=
    DialogueLabel.mk (r0, UNASSIGNED_DIALOGUE_REFERENCE) sender sender in
  let complete := DialogueLabel.mk (r0, token_hex entropy) sender sender in
  let fresh := Dialogue.init complete agent (Dialogues._role_from_first_message st m) in
  let st1 :=
    Dialogues.with_incomplete_to_complete
      (<[DialogueLabel.key incomplete := complete]>
         (Dialogues.incomplete_to_complete_dialogue_labels st)) st in
  Message._sender m = Some sender →
  chars agent ≠ EmptyString →
  Message.dialogue_reference m = (r0, UNASSIGNED_DIALOGUE_REFERENCE) →
  r0 ≠ UNASSIGNED_DIALOGUE_REFERENCE →
  Message.message_id m = 1 →
  located entropy m st
  = match Dialogues.incomplete_to_complete_dialogue_labels st
          !! DialogueLabel.key incomplete with
    | Some _ =>
        (Raise (AssertionError "Incomplete dialogue label already present."), st)
    | None =>
        match Dialogues.dialogues st !! DialogueLabel.key complete with
        | Some _ =>
            (Raise (AssertionError "Dialogue label already present in dialogues."), st1)
        | None =>
            (Ok (Some (DialogueLabel.key complete, fresh)),
             Dialogues.with_dialogues
               (<[DialogueLabel.key complete := fresh]> (Dialogues.dialogues st)) st1)
        end
    end.
Proof.
  intros agent incomplete complete fresh st1 Hsender Hset Href Hr0 Hid.
  unfold located, is_invalid_label, is_new_dialogue. rewrite Href, Hid; simpl.
  rewrite (bool_decide_eq_false_2 _ Hr0); simpl.
  unfold Message.sender. rewrite Hsender.
  unfold Dialogues.bindM at 1. unfold Dialogues.lift at 1.
  unfold Dialogues.bindM at 1. unfold Dialogues.get at 1.
  unfold Dialogues.bindM at 1.
  unfold Dialogues._create_opponent_initiated.
  unfold Dialogues.bindM at 1. unfold Dialogues.lift at 1. simpl.
  rewrite (bool_decide_eq_false_2 _ Hr0); simpl.
  unfold Dialogues._generate_dialogue_nonce.
  fold incomplete. fold complete.
  destruct (Dialogues._create incomplete (Dialogues._role_from_first_message st m)
              (Some complete) st) as [r st'] eqn:Hcreate.
  apply _create_inv in Hcreate. simpl in Hcreate.
  destruct Hcreate as [(Hin & -> & ->)|(Hnot & Hcreate)].
  { apply contains_true in Hin as [v Hv]. by rewrite Hv. }
  apply contains_false in Hnot. rewrite Hnot.
  destruct Hcreate as [(Hin & -> & ->)|[(_ & Hunset & _)|(Hfree & _ & -> & ->)]].
  - apply contains_true in Hin as [v Hv]. by rewrite Hv.
  - done.
  - apply contains_false in Hfree. by rewrite Hfree.
Qed.

(** [Dialogues.update] on the first message of another agent. *)
Lemma update_first_message entropy m sender to r0 st :
  let agent := Dialogues._agent_address st in
  let incomplete :=
    DialogueLabel.mk (r0, UNASSIGNED_DIALOGUE_REFERENCE) sender sender in
  let complete := DialogueLabel.mk (r0, token_hex entropy) sender sender in
  let fresh := Dialogue.init complete agent (Dialogues._role_from_first_message st m) in
  let st1 :=
    Dialogues.with_incomplete_to_complete
      (<[DialogueLabel.key incomplete := complete]>
         (Dialogues.incomplete_to_complete_dialogue_labels st)) st in
  Message._sender m = Some sender →
  addr_eq sender agent = false →
  Message._to m = Some to →
  chars agent ≠ EmptyString →
  Message.dialogue_reference m = (r0, UNASSIGNED_DIALOGUE_REFERENCE) →
  r0 ≠ UNASSIGNED_DIALOGUE_REFERENCE →
  Message.message_id m = 1 →
  Dialogues.update entropy m st
  = match Dialogues.incomplete_to_complete_dialogue_labels st
          !! DialogueLabel.key incomplete with
    | Some _ =>
        (Raise (AssertionError "Incomplete dialogue label already present."), st)
    | None =>
        match Dialogues.dialogues st !! DialogueLabel.key complete with
        | Some _ =>
            (Raise (AssertionError "Dialogue label already present in dialogues."), st1)
        | None =>
            match Dialogue.update fresh m with
            | Ok dialogue' =>
                (Ok (Some dialogue'),
                 Dialogues.with_dialogues
                   (<[DialogueLabel.key complete := dialogue']> (Dialogues.dialogues st))
                   st1)
            | Raise (InvalidDialogueMessage _) =>
                (Ok None,
                 Dialogues.with_dialogues
                   (<[DialogueLabel.key complete := fresh]> (Dialogues.dialogues st))
                   st1)
            | Raise e =>
                (Raise e,
                 Dialogues.with_dialogues
                   (<[DialogueLabel.key complete := fresh]> (Dialogues.dialogues st))
                   st1)
            end
        end
    end.
Proof.
  intros agent incomplete complete fresh st1 Hsender Hother Hto Hset Href Hr0 Hid.
  rewrite (update_unfold _ _ _ _ Hsender Hother (has_to_set _ _ Hto) Hset).
  rewrite (located_first_message entropy m sender r0 st Hsender Hset Href Hr0 Hid).
  fold agent incomplete complete fresh st1.
  destruct (Dialogues.incomplete_to_complete_dialogue_labels st
            !! DialogueLabel.key incomplete); [done|].
  destruct (Dialogues.dialogues st !! DialogueLabel.key complete); [done|].
  unfold Dialogues.update_in_place.
  destruct (Dialogue.update fresh m) as [dialogue'|[]]; try done.
  unfold_M. simpl. by rewrite insert_insert_eq.
Qed.

End FirstMessage.

(** X18. The first message of another agent (reference [(r, "")] with [r]
    assigned, identifier 1).  If the incomplete label of the sender was
    already promoted, [update] fails the assertion of [_create] and changes
    nothing.  Otherwise it records the promotion of the incomplete label to
    a complete label with a new nonce; if that label is already a key of the
    dialogues, the second assertion of [_create] fails, the promotion
    staying recorded; if not, a dialogue is stored under the complete label,
    and [update] returns it with the message appended, or returns [None]
    when the dialogue rejects the message, the new dialogue then staying in
    the registry without any message.  Any other exception of
    [dialogue.update] is raised by [is_valid]; [update] lets it through, and
    the new dialogue stays in the registry as well. *)
Theorem update_on_first_message {T : ProtocolTypes} {R : Dialogue.Rules}
    (st : Dialogues.t) (entropy : list Init.Byte.byte) (m : Message.t)
    (sender to : Address) (r0 : string) :
  let agent := Dialogues._agent_address st in
  let incomplete :=
    DialogueLabel.mk (r0, UNASSIGNED_DIALOGUE_REFERENCE) sender sender in
  let complete :=
    DialogueLabel.mk (r0, Dialogues._generate_dialogue_nonce entropy) sender sender in
  let fresh := Dialogue.init complete agent (Dialogues._role_from_first_message st m) in
  let st1 :=
    Dialogues.with_incomplete_to_complete
      (<[DialogueLabel.key incomplete := complete]>
         (Dialogues.incomplete_to_complete_dialogue_labels st)) st in
  Message._sender m = Some sender →
  addr_eq sender agent = false →
  Message._to m = Some to →
  chars agent ≠ EmptyString →
  Message.dialogue_reference m = (r0, UNASSIGNED_DIALOGUE_REFERENCE) →
  r0 ≠ UNASSIGNED_DIALOGUE_REFERENCE →
  Message.message_id m = 1 →
  (Dialogues.update entropy m st
   = match Dialogues.incomplete_to_complete_dialogue_labels st
          !! DialogueLabel.key incomplete with
    | Some _ =>
        (Raise (AssertionError "Incomplete dialogue label already present."), st)
    | None =>
        match Dialogues.dialogues st !! DialogueLabel.key complete with
        | Some _ =>
            (Raise (AssertionError "Dialogue label already present in dialogues."), st1)
        | None =>
            match Dialogue.update fresh m with
            | Ok dialogue' =>
                (Ok (Some dialogue'),
                 Dialogues.with_dialogues
                   (<[DialogueLabel.key complete := dialogue']> (Dialogues.dialogues st))
                   st1)
            | Raise (InvalidDialogueMessage _) =>
                (Ok None,
                 Dialogues.with_dialogues
                   (<[DialogueLabel.key complete := fresh]> (Dialogues.dialogues st))
                   st1)
            | Raise e =>
                (Raise e,
                 Dialogues.with_dialogues
                   (<[DialogueLabel.key complete := fresh]> (Dialogues.dialogues st))
                   st1)
            end
        end
    end)
  ∧ (∀ e, Dialogue.update fresh m = Raise e →
       (∃ reason, e = InvalidDialogueMessage reason)
       ∨ Dialogue.is_valid fresh m = Raise e).
Proof.
  intros agent incomplete complete fresh st1 Hsender Hother Hto Hset Href Hr0 Hid.
  split; [by apply update_first_message with (to := to)|].
  intros e Hraise.
  destruct (fresh_update_outcome complete agent
              (Dialogues._role_from_first_message st m) m sender Hsender Hother)
    as [[dialogue' Hok]|[[reason Hrejected]|(e' & Hhook & Hpropagated)]];
    fold fresh in Hok || fold fresh in Hrejected || fold fresh in Hhook, Hpropagated.
  - rewrite Hok in Hraise. discriminate Hraise.
  - rewrite Hrejected in Hraise. injection Hraise as <-. left. by exists reason.
  - rewrite Hpropagated in Hraise. injection Hraise as <-. by right.
Qed.

(** X19. A first message is taken once.  Whatever [update] did with the
    first message of another agent, unless the address of the agent is not
    set, the incomplete label of the sender is promoted afterwards, and a
    second call with a first message of the same sender and the same
    reference fails the assertion [Incomplete dialogue label already
    present.], leaving the registry as the first call left it. *)
Theorem update_takes_first_message_once {T : ProtocolTypes} {R : Dialogue.Rules}
    (st st' : Dialogues.t) (entropy entropy' : list Init.Byte.byte)
    (m m' : Message.t) (sender to to' : Address) (r0 : string)
    (r : Result (option Dialogue.t)) :
  Message._sender m = Some sender →
  addr_eq sender (Dialogues._agent_address st) = false →
  Message._to m = Some to →
  chars (Dialogues._agent_address st) ≠ EmptyString →
  Message.dialogue_reference m = (r0, UNASSIGNED_DIALOGUE_REFERENCE) →
  r0 ≠ UNASSIGNED_DIALOGUE_REFERENCE →
  Message.message_id m = 1 →
  Message._sender m' = Some sender →
  Message._to m' = Some to' →
  Message.dialogue_reference m' = (r0, UNASSIGNED_DIALOGUE_REFERENCE) →
  Message.message_id m' = 1 →
  Dialogues.update entropy m st = (r, st') →
  is_Some (Dialogues.incomplete_to_complete_dialogue_labels st'
           !! (r0, UNASSIGNED_DIALOGUE_REFERENCE, chars sender, chars sender))
  ∧ Dialogues.update entropy' m' st'
    = (Raise (AssertionError "Incomplete dialogue label already present."), st').
Proof.
  intros Hsender Hother Hto Hset Href Hr0 Hid Hsender' Hto' Href' Hid' Hupdate.
  rewrite (update_first_message entropy m sender to r0 st Hsender Hother Hto Hset
             Href Hr0 Hid) in Hupdate.
  assert (Dialogues._agent_address st' = Dialogues._agent_address st
          ∧ is_Some (Dialogues.incomplete_to_complete_dialogue_labels st'
                     !! (r0, UNASSIGNED_DIALOGUE_REFERENCE, chars sender, chars sender)))
    as [Hagent Hpromoted].
  { change (r0, UNASSIGNED_DIALOGUE_REFERENCE, chars sender, chars sender)
      with (DialogueLabel.key
              (DialogueLabel.mk (r0, UNASSIGNED_DIALOGUE_REFERENCE) sender sender))
      in *.
    destruct (Dialogues.incomplete_to_complete_dialogue_labels st
              !! DialogueLabel.key
                   (DialogueLabel.mk (r0, UNASSIGNED_DIALOGUE_REFERENCE) sender sender))
      as [v|] eqn:Hv.
    { inversion Hupdate; subst. split; [done|]. by rewrite Hv. }
    destruct (Dialogues.dialogues st !! _).
    { inversion Hupdate; subst. split; [done|]. simpl. by rewrite lookup_insert_eq. }
    destruct (Dialogue.update _ m) as [dialogue'|[]];
      inversion Hupdate; subst; (split; [done|]); simpl; by rewrite lookup_insert_eq. }
  split; [done|].
  rewrite <- Hagent in Hother, Hset.
  rewrite (update_first_message entropy' m' sender to' r0 st' Hsender' Hother Hto' Hset
             Href' Hr0 Hid').
  change (DialogueLabel.key
            (DialogueLabel.mk (r0, UNASSIGNED_DIALOGUE_REFERENCE) sender sender))
    with (r0, UNASSIGNED_DIALOGUE_REFERENCE, chars sender, chars sender).
  by destruct Hpromoted as [v ->].
Qed.

(** ** The registry: [create] *)

Section CreateOutcome.
Context {T : ProtocolTypes} {R : Dialogue.Rules}.
Implicit Types (st : Dialogues.t) (m message : Message.t) (k : LabelKey).

(** A dialogue just made by [__init__], given a message whose sender and
    receiver are set, accepts it, or rejects it with
    [InvalidDialogueMessage], or lets through what [is_valid] raises. *)
Lemma fresh_update_addressed label agent role m sender to :
  Message._sender m = Some sender →
  Message._to m = Some to →
  (∃ dialogue', Dialogue.update (Dialogue.init label agent role) m = Ok dialogue')
  ∨ (∃ reason, Dialogue.update (Dialogue.init label agent role) m
               = Raise (InvalidDialogueMessage reason))
  ∨ (∃ e, Dialogue.is_valid (Dialogue.init label agent role) m = Raise e
          ∧ Dialogue.update (Dialogue.init label agent role) m = Raise e).
Proof.
  intros Hsender Hto. unfold Dialogue.update.
  rewrite (stamped_has_sender _ _ _ Hsender).
  unfold Dialogue.is_belonging_to_dialogue, Dialogue.is_message_by_self,
    Message.sender, Message.to.
  rewrite Hsender, Hto; simpl.
  unfold Dialogue.is_valid_next_message, Dialogue._basic_validation,
    Dialogue._additional_validation; simpl.
  destruct (Dialogue.is_valid (Dialogue.init label agent role) m)
    as [[valid reason]|e]; simpl;
    repeat (match goal with
            | |- context [if ?b then _ else _] => destruct b; simpl
            end);
    try (left; by eexists); try (right; left; by eexists);
    try (right; right; by eexists).
Qed.

(** When [create] raises, the registry is as it was, unless the exception
    is one that [is_valid] raised on the initial message: [create] handles
    [InvalidDialogueMessage] only, and the new dialogue stays stored. *)
Lemma create_Raise entropy counterparty performative kwargs st e st' :
  Dialogues.create entropy counterparty performative kwargs st = (Raise e, st') →
  let agent := Dialogues._agent_address st in
  let label := self_initiated_label agent counterparty entropy in
  let message := initial_message agent counterparty entropy performative kwargs in
  let fresh :=
    Dialogue.init label agent (Dialogues._role_from_first_message st message) in
  st' = st
  ∨ (Dialogue.is_valid fresh message = Raise e
     ∧ (∀ reason, e ≠ InvalidDialogueMessage reason)
     ∧ Dialogues.dialogues st !! DialogueLabel.key label = None
     ∧ st' = Dialogues.with_dialogues
               (<[DialogueLabel.key label := fresh]> (Dialogues.dialogues st)) st).
Proof.
  intros H agent label message fresh.
  destruct (decide (chars (Dialogues._agent_address st) = EmptyString)) as [Hunset|Hset].
  { left. unfold Dialogues.create, Dialogues.agent_address in H. unfold_M.
    rewrite bool_decide_eq_true_2 in H by done. simpl in H. by injection H as _ <-. }
  rewrite (create_unfold _ _ _ _ _ Hset) in H. cbv zeta in H.
  destruct (Dialogues._create_self_initiated _ _ _ st) as [[dialogue|e1] st1] eqn:Hcreate.
  2: { left. apply _create_self_initiated_Raise in Hcreate. by injection H as _ <-. }
  apply _create_self_initiated_Ok in Hcreate
    as (_ & _ & _ & _ & Hfree & Hdialogue & Hst1).
  apply update_in_place_inv in H
    as [(dialogue' & _ & H)|[(reason & _ & H)|(e2 & Hupdate & Hother & He & Hst')]].
  - unfold_M. discriminate H.
  - left. unfold_M. injection H as _ <-. rewrite Hst1, Hdialogue; simpl.
    rewrite delete_insert_eq, delete_id by done. by destruct st.
  - right. injection He as <-. rewrite Hdialogue in Hupdate.
    destruct (fresh_update_addressed label agent
                (Dialogues._role_from_first_message st message) message
                agent counterparty eq_refl eq_refl)
      as [[dialogue' Hok]|[[reason Hrejected]|(e' & Hhook & Hpropagated)]].
    + pose proof (eq_trans (eq_sym Hok) Hupdate) as Heq. discriminate Heq.
    + pose proof (eq_trans (eq_sym Hrejected) Hupdate) as Heq.
      injection Heq as <-. by destruct (Hother reason).
    + pose proof (eq_trans (eq_sym Hpropagated) Hupdate) as Heq.
      injection Heq as ->.
      split; [exact Hhook|]. split; [done|]. split; [exact Hfree|].
      by rewrite Hst', Hst1, Hdialogue.
Qed.

End CreateOutcome.

(** X20. [create] changes the registry in one place or not at all.  When
    it returns, the new dialogue is stored under the key of its label, which
    was free; the other dialogues, the promotions and the address of the
    agent are as before.  When it raises, the registry is exactly as it
    was, with one exception: [create] handles [InvalidDialogueMessage] only,
    so when [is_valid] raises something else on the initial message, that
    exception is raised by [create] and the new dialogue, without any
    message, stays stored under its label.  The exception is met: whenever
    the new dialogue raises something other than [InvalidDialogueMessage]
    on the initial message, [create] raises it and leaves the registry with
    the new dialogue stored. *)
Theorem create_changes_one_key_or_nothing {T : ProtocolTypes} {R : Dialogue.Rules}
    (st : Dialogues.t) (entropy : list Init.Byte.byte) (counterparty : Address)
    (performative : Performative) (kwargs : Content) :
  let agent := Dialogues._agent_address st in
  let label :=
    DialogueLabel.mk
      (Dialogues._generate_dialogue_nonce entropy, UNASSIGNED_DIALOGUE_REFERENCE)
      counterparty agent in
  let message :=
    Message.mk (Dialogues.new_self_initiated_dialogue_reference entropy)
      Dialogue.STARTING_MESSAGE_ID Dialogue.STARTING_TARGET performative kwargs
      (Some agent) (Some counterparty) in
  let fresh :=
    Dialogue.init label agent (Dialogues._role_from_first_message st message) in
  match Dialogues.create entropy counterparty performative kwargs st with
  | (Ok (message, dialogue), st') =>
      let k := DialogueLabel.key (Dialogue.dialogue_label dialogue) in
      Dialogues.dialogues st !! k = None
      ∧ Dialogues.dialogues st' !! k = Some dialogue
      ∧ (∀ k', k' ≠ k → Dialogues.dialogues st' !! k' = Dialogues.dialogues st !! k')
      ∧ Dialogues.incomplete_to_complete_dialogue_labels st'
        = Dialogues.incomplete_to_complete_dialogue_labels st
      ∧ Dialogues._agent_address st' = Dialogues._agent_address st
  | (Raise e, st') =>
      st' = st
      ∨ (Dialogue.is_valid fresh message = Raise e
         ∧ (∀ reason, e ≠ InvalidDialogueMessage reason)
         ∧ Dialogues.dialogues st !! DialogueLabel.key label = None
         ∧ Dialogues.dialogues st' !! DialogueLabel.key label = Some fresh
         ∧ (∀ k', k' ≠ DialogueLabel.key label →
              Dialogues.dialogues st' !! k' = Dialogues.dialogues st !! k')
         ∧ Dialogues.incomplete_to_complete_dialogue_labels st'
           = Dialogues.incomplete_to_complete_dialogue_labels st)
  end
  ∧ (∀ e,
       chars agent ≠ EmptyString →
       Dialogues._generate_dialogue_nonce entropy ≠ UNASSIGNED_DIALOGUE_REFERENCE →
       Dialogues.incomplete_to_complete_dialogue_labels st !! DialogueLabel.key label
       = None →
       Dialogues.dialogues st !! DialogueLabel.key label = None →
       Dialogue.update fresh message = Raise e →
       (∀ reason, e ≠ InvalidDialogueMessage reason) →
       Dialogues.create entropy counterparty performative kwargs st
       = (Raise e,
          Dialogues.with_dialogues
            (<[DialogueLabel.key label := fresh]> (Dialogues.dialogues st)) st)).
Proof.
  intros agent label message fresh. split.
  - destruct (Dialogues.create entropy counterparty performative kwargs st)
      as [[[message' dialogue]|e] st'] eqn:Hcreate.
    + apply create_Ok in Hcreate as (_ & _ & _ & Hfree & Hupdate & ->).
      apply update_keeps in Hupdate as (_ & _ & Hlabel & _). simpl in Hlabel.
      cbv zeta. rewrite Hlabel. unfold self_initiated_label in *.
      split; [done|]. simpl. split; [apply lookup_insert_eq|].
      split; [|done]. intros k' Hk'. by rewrite lookup_insert_ne.
    + apply create_Raise in Hcreate as [->|(Hhook & Hother & Hfree & ->)];
        [by left|right].
      split; [exact Hhook|]. split; [done|]. split; [exact Hfree|]. simpl.
      split; [apply lookup_insert_eq|]. split; [|done].
      intros k' Hk'. by rewrite lookup_insert_ne.
  - intros e Hset Hnonce Hpromo Hfree Hupdate Hother.
    exact (create_propagates entropy counterparty performative kwargs st e
             Hset Hnonce Hpromo Hfree Hupdate Hother).
Qed.

(** The exception of X20 at work: with rules whose [is_valid] raises,
    [create] raises and the registry of alice keeps the empty dialogue. *)
Lemma create_changes_one_key_or_nothing_witness :
  let rules :=
    {| Dialogue.initial_performatives := TProtocolNoCt.INITIAL_PERFORMATIVES;
       Dialogue.terminal_performatives := TProtocolNoCt.TERMINAL_PERFORMATIVES;
       Dialogue.valid_replies := TProtocolNoCt.VALID_REPLIES;
       Dialogue.is_valid := λ _ _, Raise AttributeError |} in
  @Dialogues.create TProtocolNoCt.types rules TProtocolNoCt.entropy1
    TProtocolNoCt.bob TProtocolNoCt.PERFORMATIVE_PT tt TProtocolNoCt.registry0
  = (Raise AttributeError,
     Dialogues.with_dialogues
       (<[DialogueLabel.key TProtocolNoCt.incomplete_label := TProtocolNoCt.dialogue0]> ∅)
       TProtocolNoCt.registry0).
Proof.
  intros rules.
  apply (proj2 (@create_changes_one_key_or_nothing TProtocolNoCt.types rules
                  TProtocolNoCt.registry0
                  TProtocolNoCt.entropy1 TProtocolNoCt.bob
                  TProtocolNoCt.PERFORMATIVE_PT tt) AttributeError);
    (discriminate || reflexivity).
Defined.

(** ** The registry: labels and look-up *)

Section Lookup.
Context {T : ProtocolTypes} {R : Dialogue.Rules}.
Implicit Types (st : Dialogues.t) (m message : Message.t) (k : LabelKey).

(** [get_dialogue] on a message of the agent. *)
Lemma get_dialogue_outbound m sender to st :
  Message._sender m = Some sender →
  addr_eq sender (Dialogues._agent_address st) = true →
  Message._to m = Some to →
  chars (Dialogues._agent_address st) ≠ EmptyString →
  Dialogues.get_dialogue m st
  = (Ok match
          Dialogues.get_dialogue_from_label st
            (Dialogues.get_latest_label st
               (DialogueLabel.mk (Message.dialogue_reference m) to
                  (Dialogues._agent_address st)))
        with
        | Some found => Some found
        | None =>
            Dialogues.get_dialogue_from_label st
              (Dialogues.get_latest_label st
                 (DialogueLabel.mk (Message.dialogue_reference m) to to))
        end,
     st).
Proof.
  intros Hsender Hself Hto Hset. unfold Dialogues.get_dialogue.
  unfold Dialogues.bindM at 1. rewrite (is_message_by_self_Ok _ _ _ Hsender Hset), Hself.
  unfold Dialogues.bindM at 1. unfold Dialogues.lift at 1.
  unfold Message.sender, Message.to. rewrite Hto.
  unfold Dialogues.bindM at 1. rewrite (agent_address_Ok _ Hset).
  reflexivity.
Qed.

(** The registry of alice once the first message of bob was taken. *)
Lemma registry_of_bob_reachable : registry_reachable TProtocolNoCt.registry_of_bob.
Proof.
  apply (registry_next TProtocolNoCt.registry0); [apply registry_init|].
  apply step_update
    with (entropy := TProtocolNoCt.entropy1) (message := TProtocolNoCt.first_of_bob)
         (r := Ok (Some TProtocolNoCt.dialogue_of_bob));
    [reflexivity|].
  apply (update_creates TProtocolNoCt.entropy1 TProtocolNoCt.first_of_bob
           TProtocolNoCt.bob TProtocolNoCt.alice TProtocolNoCt.nonce2
           TProtocolNoCt.registry0 TProtocolNoCt.dialogue_of_bob);
    first [apply lookup_empty | discriminate | reflexivity].
Qed.

End Lookup.

(** X21. In a reachable registry [get_latest_label] is idempotent, it
    returns a complete label unchanged, and the label it returns for a
    promoted label is a key of the dialogues. *)
Theorem get_latest_label_is_idempotent {T : ProtocolTypes} {R : Dialogue.Rules}
    (st : Dialogues.t) (label : DialogueLabel.t) :
  registry_reachable st →
  Dialogues.get_latest_label st (Dialogues.get_latest_label st label)
  = Dialogues.get_latest_label st label
  ∧ (DialogueLabel.dialogue_responder_reference label ≠ UNASSIGNED_DIALOGUE_REFERENCE →
     Dialogues.get_latest_label st label = label)
  ∧ (Dialogues.contains (Dialogues.incomplete_to_complete_dialogue_labels st) label
     = true →
     is_Some (Dialogues.get_dialogue_from_label st
                (Dialogues.get_latest_label st label))).
Proof.
  intros Hreach. apply registry_reachable_invariant in Hreach as Hinv.
  unfold Dialogues.get_latest_label, Dialogues.get_dialogue_from_label.
  split; [|split].
  - destruct (Dialogues.incomplete_to_complete_dialogue_labels st
              !! DialogueLabel.key label) as [v|] eqn:Hv; simpl; [|by rewrite Hv].
    rewrite (complete_not_promoted st (DialogueLabel.key v) Hinv); [done|].
    by eapply promoted_to_complete.
  - intros Hcomplete.
    rewrite (complete_not_promoted st (DialogueLabel.key label) Hinv); done.
  - intros [v Hv]%contains_true. rewrite Hv; simpl.
    destruct (promoted_present _ Hinv _ _ Hv) as [dialogue ->]. by eexists.
Qed.

Lemma get_latest_label_is_idempotent_witness :
  Dialogues.get_latest_label TProtocolNoCt.registry_of_bob
    (Dialogues.get_latest_label TProtocolNoCt.registry_of_bob
       TProtocolNoCt.bob_incomplete_label)
  = Dialogues.get_latest_label TProtocolNoCt.registry_of_bob
      TProtocolNoCt.bob_incomplete_label.
Proof.
  apply (get_latest_label_is_idempotent TProtocolNoCt.registry_of_bob
           TProtocolNoCt.bob_incomplete_label registry_of_bob_reachable).
Defined.

(** X22. For a message that the agent itself sent, [get_dialogue] looks
    under the label with the receiver as opponent and the agent as starter,
    then under the label with the receiver as opponent and as starter, each
    replaced by its promotion if it has one: it finds the dialogue that the
    receiver started, stored under its complete label, when the agent holds
    no dialogue of its own with the same reference. *)
Theorem get_dialogue_of_outgoing_message {T : ProtocolTypes} {R : Dialogue.Rules}
    (st : Dialogues.t) (m : Message.t) (sender to : Address) (dialogue : Dialogue.t) :
  let agent := Dialogues._agent_address st in
  let own := DialogueLabel.mk (Message.dialogue_reference m) to agent in
  let other := DialogueLabel.mk (Message.dialogue_reference m) to to in
  Message._sender m = Some sender →
  addr_eq sender agent = true →
  Message._to m = Some to →
  chars agent ≠ EmptyString →
  Dialogues.get_dialogue_from_label st (Dialogues.get_latest_label st own) = None →
  Dialogues.incomplete_to_complete_dialogue_labels st !! DialogueLabel.key other = None →
  Dialogues.dialogues st !! DialogueLabel.key other = Some dialogue →
  Dialogues.get_dialogue m st = (Ok (Some (DialogueLabel.key other, dialogue)), st).
Proof.
  intros agent own other Hsender Hself Hto Hset Hown Hpromo Hother.
  rewrite (get_dialogue_outbound _ _ _ _ Hsender Hself Hto Hset).
  fold agent own other. rewrite Hown.
  unfold Dialogues.get_latest_label, Dialogues.get_dialogue_from_label.
  rewrite Hpromo; simpl. by rewrite Hother.
Qed.

Lemma get_dialogue_of_outgoing_message_witness :
  Dialogues.get_dialogue
    (TProtocolNoCt.outbound (TProtocolNoCt.nonce2, TProtocolNoCt.nonce1) 2 1
       TProtocolNoCt.PERFORMATIVE_PCT)
    TProtocolNoCt.registry_of_bob
  = (Ok (Some (DialogueLabel.key TProtocolNoCt.bob_complete_label,
               TProtocolNoCt.dialogue_of_bob)),
     TProtocolNoCt.registry_of_bob).
Proof.
  apply (get_dialogue_of_outgoing_message TProtocolNoCt.registry_of_bob
           (TProtocolNoCt.outbound (TProtocolNoCt.nonce2, TProtocolNoCt.nonce1) 2 1
              TProtocolNoCt.PERFORMATIVE_PCT)
           TProtocolNoCt.alice TProtocolNoCt.bob TProtocolNoCt.dialogue_of_bob).
  - reflexivity.
  - reflexivity.
  - reflexivity.
  - change (chars TProtocolNoCt.alice ≠ EmptyString). discriminate.
  - unfold Dialogues.get_latest_label, Dialogues.get_dialogue_from_label,
      TProtocolNoCt.registry_of_bob; simpl.
    rewrite (lookup_insert_ne _ (DialogueLabel.key TProtocolNoCt.bob_incomplete_label))
      by distinct_keys.
    rewrite lookup_empty; simpl.
    rewrite (lookup_insert_ne _ (DialogueLabel.key TProtocolNoCt.bob_complete_label))
      by distinct_keys.
    rewrite lookup_empty. reflexivity.
  - unfold TProtocolNoCt.registry_of_bob; simpl.
    rewrite (lookup_insert_ne _ (DialogueLabel.key TProtocolNoCt.bob_incomplete_label))
      by distinct_keys.
    apply lookup_empty.
  - apply lookup_insert_eq.
Defined.

Lemma update_on_first_message_witness :
  ∃ st',
    Dialogues.update TProtocolNoCt.entropy1
      (TProtocolNoCt.inbound (TProtocolNoCt.nonce2, EmptyString) 1 0
         TProtocolNoCt.PERFORMATIVE_MT)
      TProtocolNoCt.registry0
    = (Ok None, st')
    ∧ is_Some (Dialogues.dialogues st'
               !! DialogueLabel.key TProtocolNoCt.bob_complete_label).
Proof.
  assert (chars (Dialogues._agent_address TProtocolNoCt.registry0) ≠ EmptyString)
    as Hset by (change (chars TProtocolNoCt.alice ≠ EmptyString); discriminate).
  assert (TProtocolNoCt.nonce2 ≠ UNASSIGNED_DIALOGUE_REFERENCE) as Hnonce
    by (apply token_hex_drawn; reflexivity).
  pose proof (update_on_first_message TProtocolNoCt.registry0 TProtocolNoCt.entropy1
                (TProtocolNoCt.inbound (TProtocolNoCt.nonce2, EmptyString) 1 0
                   TProtocolNoCt.PERFORMATIVE_MT)
                TProtocolNoCt.bob TProtocolNoCt.alice TProtocolNoCt.nonce2
                eq_refl eq_refl eq_refl Hset eq_refl Hnonce eq_refl) as [Hupdate _].
  cbv zeta in Hupdate.
  change (Dialogues.incomplete_to_complete_dialogue_labels TProtocolNoCt.registry0)
    with (∅ : gmap LabelKey DialogueLabel.t) in Hupdate.
  change (Dialogues.dialogues TProtocolNoCt.registry0)
    with (∅ : gmap LabelKey Dialogue.t) in Hupdate.
  rewrite !lookup_empty in Hupdate.
  destruct (Dialogue.update _ _) as [dialogue'|e] eqn:Hdialogue in Hupdate.
  { vm_compute in Hdialogue. discriminate Hdialogue. }
  vm_compute in Hdialogue. injection Hdialogue as <-.
  eexists. split; [exact Hupdate|].
  simpl. rewrite lookup_insert_eq. by eexists.
Defined.

Lemma update_takes_first_message_once_witness :
  ∃ r st',
    Dialogues.update TProtocolNoCt.entropy1 TProtocolNoCt.first_of_bob
      TProtocolNoCt.registry0 = (r, st')
    ∧ Dialogues.update TProtocolNoCt.entropy2 TProtocolNoCt.first_of_bob st'
      = (Raise (AssertionError "Incomplete dialogue label already present."), st').
Proof.
  assert (chars (Dialogues._agent_address TProtocolNoCt.registry0) ≠ EmptyString)
    as Hset by (change (chars TProtocolNoCt.alice ≠ EmptyString); discriminate).
  assert (TProtocolNoCt.nonce2 ≠ UNASSIGNED_DIALOGUE_REFERENCE) as Hnonce
    by (apply token_hex_drawn; reflexivity).
  destruct (Dialogues.update TProtocolNoCt.entropy1 TProtocolNoCt.first_of_bob
              TProtocolNoCt.registry0) as [r st'] eqn:Hupdate.
  exists r, st'. split; [reflexivity|].
  apply (update_takes_first_message_once TProtocolNoCt.registry0 st'
           TProtocolNoCt.entropy1 TProtocolNoCt.entropy2
           TProtocolNoCt.first_of_bob TProtocolNoCt.first_of_bob
           TProtocolNoCt.bob TProtocolNoCt.alice TProtocolNoCt.alice
           TProtocolNoCt.nonce2 r
           eq_refl eq_refl eq_refl Hset eq_refl Hnonce eq_refl
           eq_refl eq_refl eq_refl eq_refl Hupdate).
Defined.

(** ** The registry: the dialogues it holds *)

Section StoredDialogues.
Context {T : ProtocolTypes} {R : Dialogue.Rules}.
Implicit Types (st : Dialogues.t) (m message : Message.t) (k : LabelKey).

Lemma stored_insert st k dialogue :
  stored_invariant st →
  dialogue_reachable dialogue →
  Dialogue.agent_address dialogue = Dialogues._agent_address st →
  stored_invariant
    (Dialogues.with_dialogues (<[k := dialogue]> (Dialogues.dialogues st)) st).
Proof.
  intros Hst Hreach Hagent k' dialogue' Hk'. simpl in *.
  destruct (decide (k = k')) as [->|Hne].
  - rewrite lookup_insert_eq in Hk'. by simplify_eq.
  - rewrite lookup_insert_ne in Hk' by done. by apply (Hst k').
Qed.

Lemma stored_delete st k :
  stored_invariant st →
  stored_invariant (Dialogues.with_dialogues (delete k (Dialogues.dialogues st)) st).
Proof.
  intros Hst k' dialogue' Hk'. simpl in *.
  apply lookup_delete_Some in Hk' as [_ Hk']. by apply (Hst k').
Qed.

Lemma stored_promotions st promotions :
  stored_invariant st →
  stored_invariant (Dialogues.with_incomplete_to_complete promotions st).
Proof. intros Hst k dialogue Hk. by apply (Hst k). Qed.

Lemma stored_recorded st incomplete complete :
  stored_invariant st → stored_invariant (recorded incomplete complete st).
Proof. destruct complete; [apply stored_promotions|done]. Qed.

Lemma _create_stored incomplete role complete st r st' :
  stored_invariant st →
  Dialogues._create incomplete role complete st = (r, st') →
  stored_invariant st'
  ∧ Dialogues._agent_address st' = Dialogues._agent_address st
  ∧ ∀ dialogue, r = Ok dialogue →
      Dialogues.dialogues st' !! DialogueLabel.key (Dialogue.dialogue_label dialogue)
      = Some dialogue.
Proof.
  intros Hst Hcreate. apply _create_inv in Hcreate. simpl in Hcreate.
  destruct Hcreate as [(_ & -> & ->)|(_ & [(_ & -> & ->)|[(_ & _ & -> & ->)
                                                          |(_ & _ & -> & ->)]])].
  - done.
  - split; [by apply stored_recorded|]. split; [by destruct complete|done].
  - split; [by apply stored_recorded|]. split; [by destruct complete|done].
  - split; [|split].
    + destruct complete as [c|]; simpl;
        match goal with
        | |- stored_invariant (Dialogues.with_dialogues (<[?k := ?d]> _) ?st1) =>
            apply (stored_insert st1 k d)
        end; try done; try apply reachable_init.
    + by destruct complete.
    + intros dialogue [= <-]. simpl. apply lookup_insert_eq.
Qed.

Lemma _complete_dialogue_reference_stored m st r st' :
  stored_invariant st →
  Dialogues._complete_dialogue_reference m st = (r, st') →
  stored_invariant st' ∧ Dialogues._agent_address st' = Dialogues._agent_address st.
Proof.
  intros Hst. unfold Dialogues._complete_dialogue_reference.
  unfold Dialogues.bindM at 1. unfold Dialogues.lift at 1.
  destruct (assert_that _ _); simpl; [|by intros [= <- <-]].
  unfold Dialogues.bindM at 1. unfold Dialogues.lift at 1.
  destruct (Message.sender m) as [sender|e]; [|by intros [= <- <-]].
  unfold Dialogues.bindM at 1.
  destruct (Dialogues.agent_address st) as [ra sta] eqn:Hagent.
  apply agent_address_inv in Hagent as [-> [[Hset ->]|[_ ->]]];
    [|by intros [= <- <-]].
  unfold Dialogues.bindM at 1. unfold Dialogues.get at 1.
  destruct (Dialogues.dialogues st !! _) as [dialogue|] eqn:Hdialogue;
    [|by intros [= <- <-]].
  destruct (Dialogues.contains _ _); simpl; [by intros [= <- <-]|].
  destruct (Hst _ _ Hdialogue) as [Hreach Hagent].
  unfold_M.
  destruct (Dialogue.update_dialogue_label dialogue _) as [dialogue'|e] eqn:Hlabel;
    simpl; intros [= <- <-].
  - split; [|done].
    apply stored_promotions.
    match goal with
    | |- stored_invariant (Dialogues.with_dialogues (<[?k := _]> _) ?st1) =>
        apply (stored_insert st1 k)
    end.
    + by apply stored_delete.
    + by eapply reachable_update_dialogue_label.
    + by apply update_dialogue_label_Ok in Hlabel as (_ & _ & ->).
  - split; [by apply stored_delete|done].
Qed.

Lemma located_stored entropy m st r st' :
  stored_invariant st →
  located entropy m st = (r, st') →
  stored_invariant st'
  ∧ Dialogues._agent_address st' = Dialogues._agent_address st
  ∧ ∀ k dialogue, r = Ok (Some (k, dialogue)) →
      Dialogues.dialogues st' !! k = Some dialogue.
Proof.
  intros Hst. unfold located.
  destruct (is_invalid_label m); [by intros [= <- <-]|].
  destruct (is_new_dialogue m).
  - unfold Dialogues.bindM at 1. unfold Dialogues.lift at 1.
    destruct (Message.sender m) as [sender|e]; [|by intros [= <- <-]].
    unfold Dialogues.bindM at 1. unfold Dialogues.get at 1.
    unfold Dialogues.bindM at 1. unfold Dialogues._create_opponent_initiated.
    unfold Dialogues.bindM at 1. unfold Dialogues.lift at 1.
    destruct (assert_that _ _); simpl; [|by intros [= <- <-]].
    destruct (Dialogues._create _ _ _ st) as [rc st1] eqn:Hcreate.
    apply (_create_stored _ _ _ _ _ _ Hst) in Hcreate as (Hst1 & Hagent & Hstored).
    destruct rc as [created|e]; unfold Dialogues.ret; intros [= <- <-];
      (split; [done|]); (split; [done|]); [|done].
    intros k dialogue [= <- <-]. by apply Hstored.
  - unfold Dialogues.bindM.
    destruct (Dialogues._complete_dialogue_reference m st) as [rc st1] eqn:Hcomplete.
    apply (_complete_dialogue_reference_stored _ _ _ _ Hst) in Hcomplete
      as [Hst1 Hagent].
    destruct rc as [[]|e]; [|by intros [= <- <-]].
    intros Hget. pose proof (get_dialogue_state _ _ _ _ Hget) as ->.
    split; [done|]. split; [done|].
    intros k dialogue ->. by apply get_dialogue_Some in Hget.
Qed.

(** [Dialogues.update] returns only for the message of another agent. *)
Lemma update_Ok_inbound entropy m st r st' :
  Dialogues.update entropy m st = (Ok r, st') →
  ∃ sender,
    Message._sender m = Some sender
    ∧ addr_eq sender (Dialogues._agent_address st) = false
    ∧ Message.has_to m = true
    ∧ chars (Dialogues._agent_address st) ≠ EmptyString.
Proof.
  intros H. unfold Dialogues.update in H. unfold Dialogues.bindM at 1 in H.
  destruct (Message._sender m) as [sender|] eqn:Hsender.
  2: { unfold Dialogues.is_message_by_other, Dialogues.is_message_by_self,
         Message.sender in H. rewrite Hsender in H. unfold_M. discriminate H. }
  destruct (decide (chars (Dialogues._agent_address st) = EmptyString)) as [Hunset|Hset].
  { unfold Dialogues.is_message_by_other, Dialogues.is_message_by_self,
      Message.sender, Dialogues.agent_address in H. rewrite Hsender in H. unfold_M.
    rewrite bool_decide_eq_true_2 in H by done. simpl in H. discriminate H. }
  rewrite (is_message_by_other_Ok _ _ _ Hsender Hset) in H.
  unfold Dialogues.bindM at 1 in H. unfold Dialogues.lift at 1 in H.
  destruct (addr_eq sender (Dialogues._agent_address st)) eqn:Hother; simpl in H;
    [discriminate H|].
  unfold Dialogues.bindM at 1 in H. unfold Dialogues.lift at 1 in H.
  destruct (Message.has_to m) eqn:Hto; simpl in H; [|discriminate H].
  by exists sender.
Qed.

Lemma update_stored entropy m st r st' :
  stored_invariant st →
  Dialogues.update entropy m st = (r, st') →
  stored_invariant st'
  ∧ ∀ dialogue', r = Ok (Some dialogue') →
      ∃ k dialogue,
        dialogue_reachable dialogue
        ∧ Dialogue.agent_address dialogue = Dialogues._agent_address st
        ∧ Dialogue.update dialogue m = Ok dialogue'
        ∧ Dialogues.dialogues st' !! k = Some dialogue'.
Proof.
  intros Hst H.
  destruct (update_cases _ _ _ _ _ H) as [->|(sender & Hsender & Hother & Hto & Hset)].
  { split; [done|]. intros dialogue' ->.
    pose proof (update_Ok_inbound _ _ _ _ _ H) as (sender & Hsender & Hother & Hto & Hset).
    rewrite (update_unfold _ _ _ _ Hsender Hother Hto Hset) in H.
    destruct (located entropy m st) as [rl st1] eqn:Hlocated.
    apply (located_stored _ _ _ _ _ Hst) in Hlocated as (Hst1 & Hagent & Hstored).
    destruct rl as [[[k dialogue]|]|e]; [|discriminate H..].
    apply update_in_place_inv in H
      as [(dialogue'' & Hupdate & H)|[(reason & _ & H)|(e & _ & _ & H & _)]];
      [|unfold_M; discriminate H|discriminate H].
    unfold_M. injection H as <- Hst'.
    destruct (Hst1 _ _ (Hstored _ _ eq_refl)) as [Hreach Hagent'].
    exists k, dialogue. split; [done|]. split; [congruence|]. split; [done|].
    rewrite <- Hst'. simpl. apply lookup_insert_eq. }
  rewrite (update_unfold _ _ _ _ Hsender Hother Hto Hset) in H.
  destruct (located entropy m st) as [rl st1] eqn:Hlocated.
  apply (located_stored _ _ _ _ _ Hst) in Hlocated as (Hst1 & Hagent & Hstored).
  destruct rl as [[[k dialogue]|]|e];
    [|injection H as <- <-; split; [done|discriminate]..].
  destruct (Hst1 _ _ (Hstored _ _ eq_refl)) as [Hreach Hagent'].
  apply update_in_place_inv in H
    as [(dialogue'' & Hupdate & H)|[(reason & _ & H)|(e & _ & _ & -> & ->)]].
  - unfold_M. injection H as <- <-. split.
    + apply stored_insert; [done|by apply (reachable_update dialogue m)|].
      by apply update_keeps in Hupdate as (-> & _).
    + intros dialogue' [= <-]. exists k, dialogue.
      split; [done|]. split; [congruence|]. split; [done|].
      simpl. apply lookup_insert_eq.
  - unfold_M. injection H as <- <-. split; [done|discriminate].
  - split; [done|discriminate].
Qed.

Lemma create_stored entropy counterparty performative kwargs st r st' :
  stored_invariant st →
  Dialogues.create entropy counterparty performative kwargs st = (r, st') →
  stored_invariant st'.
Proof.
  intros Hst H. destruct r as [[message dialogue]|e].
  - apply create_Ok in H as (_ & _ & _ & _ & Hupdate & ->).
    apply stored_insert; [done| |].
    + apply (reachable_update _ _ _ (reachable_init _ _ _) Hupdate).
    + by apply update_keeps in Hupdate as (-> & _).
  - apply create_Raise in H as [->|(_ & _ & _ & ->)]; [done|].
    apply stored_insert; [done|apply reachable_init|done].
Qed.

Lemma registry_step_stored st st' :
  stored_invariant st → registry_step st st' → stored_invariant st'.
Proof.
  intros Hst Hstep. revert Hst.
  destruct Hstep
    as [st0 entropy counterparty performative kwargs r st0' _ H
       | st0 entropy m r st0' Hdrawn H
       | st0 k dialogue m dialogue' Hk H
       | st0 k dialogue tm performative kwargs reply dialogue' Hk H
       | st0 k dialogue label dialogue' Hk H]; intros Hst.
  - exact (create_stored _ _ _ _ _ _ _ Hst H).
  - exact (proj1 (update_stored _ _ _ _ _ Hst H)).
  - destruct (Hst _ _ Hk) as [Hreach Hagent].
    apply stored_insert; [done|by apply (reachable_update dialogue m)|].
    by apply update_keeps in H as (-> & _).
  - destruct (Hst _ _ Hk) as [Hreach Hagent].
    apply stored_insert;
      [done|by apply (reachable_reply dialogue tm performative kwargs reply)|].
    by apply reply_is_update, update_keeps in H as (-> & _).
  - destruct (Hst _ _ Hk) as [Hreach Hagent].
    apply stored_insert;
      [done|by apply (reachable_update_dialogue_label dialogue label)|].
    by apply update_dialogue_label_Ok in H as (_ & _ & ->).
Qed.

Lemma registry_reachable_stored st : registry_reachable st → stored_invariant st.
Proof.
  induction 1 as [agent role_from_first_message|st st' _ IH Hstep].
  - intros k dialogue Hk. simpl in Hk. by rewrite lookup_empty in Hk.
  - by apply (registry_step_stored st).
Qed.

End StoredDialogues.

(** X23. Every dialogue that a reachable registry holds was reached
    through [__init__], [update], [reply] and [update_dialogue_label], and
    its agent is the agent of the registry: what holds of the reachable
    dialogues holds of each of them. *)
Theorem stored_dialogues_are_reachable {T : ProtocolTypes} {R : Dialogue.Rules}
    (st : Dialogues.t) (k : LabelKey) (dialogue : Dialogue.t) :
  registry_reachable st →
  Dialogues.dialogues st !! k = Some dialogue →
  dialogue_reachable dialogue
  ∧ Dialogue.agent_address dialogue = Dialogues._agent_address st
  ∧ log_invariant dialogue.
Proof.
  intros Hreach Hk.
  destruct (registry_reachable_stored st Hreach k dialogue Hk) as [Hd Hagent].
  split; [done|]. split; [done|]. by apply log_invariant_reachable.
Qed.

Lemma stored_dialogues_are_reachable_witness :
  dialogue_reachable TProtocolNoCt.dialogue_of_bob
  ∧ Dialogue.agent_address TProtocolNoCt.dialogue_of_bob = TProtocolNoCt.alice.
Proof.
  destruct (stored_dialogues_are_reachable TProtocolNoCt.registry_of_bob
              (DialogueLabel.key TProtocolNoCt.bob_complete_label)
              TProtocolNoCt.dialogue_of_bob registry_of_bob_reachable
              (lookup_insert_eq _ _ _)) as (Hreach & Hagent & _).
  split; [exact Hreach|exact Hagent].
Defined.

(** X24. When [Dialogues.update] returns a dialogue in a reachable
    registry, the message is the last message of that dialogue and the last
    of its incoming log, its sender is not the agent, and the registry holds
    the dialogue as returned. *)
Theorem update_appends_to_incoming {T : ProtocolTypes} {R : Dialogue.Rules}
    (st st' : Dialogues.t) (entropy : list Init.Byte.byte) (m : Message.t)
    (dialogue' : Dialogue.t) :
  registry_reachable st →
  Dialogues.update entropy m st = (Ok (Some dialogue'), st') →
  Dialogue.last_incoming_message dialogue' = Some m
  ∧ Dialogue.last_message dialogue' = Some m
  ∧ Dialogue.is_message_by_other dialogue' m = Ok true
  ∧ ∃ k, Dialogues.dialogues st' !! k = Some dialogue'.
Proof.
  intros Hreach Hupdate.
  pose proof (update_Ok_inbound _ _ _ _ _ Hupdate)
    as (sender & Hsender & Hother & _ & _).
  destruct (update_stored _ _ _ _ _ (registry_reachable_stored st Hreach) Hupdate)
    as [_ Hfound].
  destruct (Hfound dialogue' eq_refl) as (k & dialogue & Hd & Hagent & Haccepted & Hk).
  pose proof (log_invariant_reachable _ Hd) as Hinv.
  pose proof (merged_log_update _ _ _ Hinv Haccepted) as Hmerged.
  pose proof (log_invariant_update _ _ _ Hinv Haccepted) as [_ Hlast].
  rewrite (stamped_has_sender _ _ _ Hsender) in Hmerged.
  apply update_Ok in Haccepted as (_ & _ & _ & _ & Hcases).
  rewrite (stamped_has_sender _ _ _ Hsender) in Hcases.
  assert (Dialogue.is_message_by_self dialogue m = Ok false) as Hself.
  { unfold Dialogue.is_message_by_self, Message.sender. rewrite Hsender; simpl.
    by rewrite Hagent, Hother. }
  rewrite Hself in Hcases. destruct Hcases as [[? _]|[_ Hd']]; [done|].
  split; [|split; [|split]].
  - rewrite Hd'. unfold Dialogue.last_incoming_message; simpl. apply last_snoc.
  - by rewrite Hlast, Hmerged, last_snoc.
  - unfold Dialogue.is_message_by_other.
    rewrite (is_message_by_self_agent dialogue) by (by rewrite Hd').
    by rewrite Hself.
  - by exists k.
Qed.

Lemma update_appends_to_incoming_witness :
  Dialogue.last_message TProtocolNoCt.dialogue_of_bob = Some TProtocolNoCt.first_of_bob.
Proof.
  apply (update_appends_to_incoming TProtocolNoCt.registry0
           TProtocolNoCt.registry_of_bob TProtocolNoCt.entropy1
           TProtocolNoCt.first_of_bob TProtocolNoCt.dialogue_of_bob).
  - apply registry_init.
  - apply (update_creates TProtocolNoCt.entropy1 TProtocolNoCt.first_of_bob
             TProtocolNoCt.bob TProtocolNoCt.alice TProtocolNoCt.nonce2
             TProtocolNoCt.registry0 TProtocolNoCt.dialogue_of_bob);
      first [apply lookup_empty | discriminate | reflexivity].
Defined.

(** ** The registry: a dialogue of the agent and its first reply *)

Section FirstReply.
Context {T : ProtocolTypes} {R : Dialogue.Rules}.
Implicit Types (st : Dialogues.t) (m message : Message.t) (k : LabelKey).

(** What [Dialogue.update] does with a message whose sender is set. *)
Lemma update_by_sender dialogue m sender dialogue' :
  Message._sender m = Some sender →
  Dialogue.update dialogue m = Ok dialogue' →
  dialogue'
  = if addr_eq sender (Dialogue.agent_address dialogue)
    then Dialogue.with_outgoing_messages (Dialogue.outgoing_messages dialogue ++ [m])
           dialogue
    else Dialogue.with_incoming_messages (Dialogue.incoming_messages dialogue ++ [m])
           dialogue.
Proof.
  intros Hsender Hupdate. apply update_Ok in Hupdate as (_ & _ & _ & _ & Hcases).
  rewrite (stamped_has_sender _ _ _ Hsender) in Hcases.
  unfold Dialogue.is_message_by_self, Message.sender in Hcases.
  rewrite Hsender in Hcases; simpl in Hcases.
  destruct (addr_eq sender (Dialogue.agent_address dialogue));
    destruct Hcases as [[? ?]|[? ?]]; done.
Qed.

(** [_complete_dialogue_reference] removes the dialogue from under its
    incomplete label before it asks the dialogue to take the final label. *)
Lemma _complete_dialogue_reference_pops m sender st dialogue :
  let agent := Dialogues._agent_address st in
  let incomplete :=
    DialogueLabel.mk (fst (Message.dialogue_reference m), UNASSIGNED_DIALOGUE_REFERENCE)
      sender agent in
  Message._sender m = Some sender →
  chars agent ≠ EmptyString →
  fst (Message.dialogue_reference m) ≠ UNASSIGNED_DIALOGUE_REFERENCE →
  snd (Message.dialogue_reference m) ≠ UNASSIGNED_DIALOGUE_REFERENCE →
  Dialogues.dialogues st !! DialogueLabel.key incomplete = Some dialogue →
  Dialogues.incomplete_to_complete_dialogue_labels st !! DialogueLabel.key incomplete
  = None →
  snd (DialogueLabel.dialogue_reference (Dialogue.dialogue_label dialogue))
  ≠ UNASSIGNED_DIALOGUE_REFERENCE →
  Dialogues._complete_dialogue_reference m st
  = (Raise (AssertionError "Dialogue label cannot be updated."),
     Dialogues.with_dialogues
       (delete (DialogueLabel.key incomplete) (Dialogues.dialogues st)) st).
Proof.
  intros agent incomplete Hsender Hset Hfst Hsnd Hdialogue Hpromo Hlabel.
  unfold Dialogues._complete_dialogue_reference.
  unfold Dialogues.bindM at 1. unfold Dialogues.lift at 1.
  rewrite (bool_decide_eq_false_2 _ Hfst), (bool_decide_eq_false_2 _ Hsnd); simpl.
  unfold Dialogues.bindM at 1. unfold Dialogues.lift at 1.
  unfold Message.sender. rewrite Hsender.
  unfold Dialogues.bindM at 1. rewrite (agent_address_Ok _ Hset).
  unfold Dialogues.bindM at 1. unfold Dialogues.get at 1.
  fold agent. fold incomplete. rewrite Hdialogue.
  rewrite (proj2 (contains_false _ _) Hpromo); simpl.
  unfold Dialogue.update_dialogue_label.
  rewrite (bool_decide_eq_false_2 _ Hlabel). unfold_M. reflexivity.
Qed.

End FirstReply.

(** X25. A dialogue from [create] to the first reply.  In a reachable
    registry, once [create] has returned a dialogue for a counterparty, the
    first message of the counterparty that carries the nonce of the
    dialogue with a responder reference, and that the dialogue accepts under
    its completed label, makes [update] return the dialogue: it is then
    stored under the complete label and no longer under the incomplete one,
    the promotion of the incomplete label is recorded, its outgoing log
    holds the initial message and its incoming log the reply. *)
Theorem create_then_first_reply {T : ProtocolTypes} {R : Dialogue.Rules}
    (st st1 : Dialogues.t) (entropy entropy' : list Init.Byte.byte)
    (counterparty to : Address) (performative : Performative) (kwargs : Content)
    (message1 message2 : Message.t) (dialogue1 dialogue2 : Dialogue.t)
    (responder_reference : string) :
  let agent := Dialogues._agent_address st in
  let n := Dialogues._generate_dialogue_nonce entropy in
  let incomplete :=
    DialogueLabel.mk (n, UNASSIGNED_DIALOGUE_REFERENCE) counterparty agent in
  let final := DialogueLabel.mk (n, responder_reference) counterparty agent in
  registry_reachable st →
  Dialogues.create entropy counterparty performative kwargs st
  = (Ok (message1, dialogue1), st1) →
  Message._sender message2 = Some counterparty →
  addr_eq counterparty agent = false →
  Message._to message2 = Some to →
  Message.dialogue_reference message2 = (n, responder_reference) →
  responder_reference ≠ UNASSIGNED_DIALOGUE_REFERENCE →
  Dialogue.update (Dialogue.with_dialogue_label final dialogue1) message2
  = Ok dialogue2 →
  ∃ st2,
    Dialogues.update entropy' message2 st1 = (Ok (Some dialogue2), st2)
    ∧ Dialogues.dialogues st2 !! DialogueLabel.key final = Some dialogue2
    ∧ Dialogues.dialogues st2 !! DialogueLabel.key incomplete = None
    ∧ Dialogues.get_latest_label st2 incomplete = final
    ∧ Dialogue.dialogue_label dialogue2 = final
    ∧ Dialogue.outgoing_messages dialogue2 = [message1]
    ∧ Dialogue.incoming_messages dialogue2 = [message2].
Proof.
  intros agent n incomplete final Hreach Hcreate Hsender Hother Hto Href Hr1 Haccepted.
  apply registry_reachable_invariant in Hreach as Hinv.
  pose proof (create_outcome _ _ _ _ _ _ _ Hcreate) as Houtcome.
  apply create_Ok in Hcreate as (Hm1 & Hset & Hnonce & Hfree & Hupdate1 & Hst1).
  unfold self_initiated_label in *. fold agent in Hfree, Hupdate1, Hst1, Houtcome.
  change (token_hex entropy) with n in *. fold incomplete in Hfree, Hupdate1, Hst1, Houtcome.
  assert (Dialogues.incomplete_to_complete_dialogue_labels st
          !! DialogueLabel.key incomplete = None) as Hpromo.
  { assert (Dialogues.dialogues st1 !! DialogueLabel.key incomplete = Some dialogue1)
      as Hhas by (rewrite Hst1; simpl; apply lookup_insert_eq).
    destruct Houtcome as [Hsame|(dialogue & Hnone & _)]; [|done].
    rewrite Hsame, Hfree in Hhas. discriminate Hhas. }
  clear Houtcome. subst st1.
  assert (Message._sender message1 = Some agent) as Hsender1 by (by rewrite Hm1).
  pose proof (update_by_sender _ _ _ _ Hsender1 Hupdate1) as Hd1.
  simpl in Hd1. unfold addr_eq in Hd1. rewrite bool_decide_eq_true_2 in Hd1 by done.
  pose proof (update_by_sender _ _ _ _ Hsender Haccepted) as Hd2.
  assert (Dialogue.agent_address dialogue1 = agent) as Hagent1 by (by rewrite Hd1).
  simpl in Hd2. rewrite Hagent1, Hother in Hd2.
  eexists.
  split.
  { apply (update_promotes entropy' message2 counterparty to n responder_reference
             _ dialogue1 dialogue2); simpl; try done.
    - apply lookup_insert_eq.
    - by apply complete_not_promoted.
    - by rewrite Hd1. }
  split; [simpl; apply lookup_insert_eq|].
  split.
  { simpl. rewrite lookup_insert_ne, lookup_delete_eq; [done|].
    intros Heq. apply Hr1. by injection Heq. }
  split.
  { unfold Dialogues.get_latest_label; simpl. by rewrite lookup_insert_eq. }
  rewrite Hd2, Hd1. done.
Qed.

Lemma create_then_first_reply_witness :
  ∃ st2,
    Dialogues.update TProtocolNoCt.entropy2 TProtocolNoCt.message2
      TProtocolNoCt.registry_created
    = (Ok (Some TProtocolNoCt.dialogue2_promoted), st2)
    ∧ Dialogues.dialogues st2 !! DialogueLabel.key TProtocolNoCt.final_label
      = Some TProtocolNoCt.dialogue2_promoted.
Proof.
  assert (TProtocolNoCt.nonce2 ≠ UNASSIGNED_DIALOGUE_REFERENCE) as Hnonce
    by (apply token_hex_drawn; reflexivity).
  assert (Dialogues.create TProtocolNoCt.entropy1 TProtocolNoCt.bob
            TProtocolNoCt.PERFORMATIVE_PT tt TProtocolNoCt.registry0
          = (Ok (TProtocolNoCt.message1, TProtocolNoCt.dialogue1),
             TProtocolNoCt.registry_created)) as Hcreate
    by (apply create_accepted; (discriminate || reflexivity)).
  destruct (create_then_first_reply TProtocolNoCt.registry0
              TProtocolNoCt.registry_created TProtocolNoCt.entropy1
              TProtocolNoCt.entropy2 TProtocolNoCt.bob TProtocolNoCt.alice
              TProtocolNoCt.PERFORMATIVE_PT tt TProtocolNoCt.message1
              TProtocolNoCt.message2 TProtocolNoCt.dialogue1
              TProtocolNoCt.dialogue2_promoted TProtocolNoCt.nonce2
              (registry_init _ _) Hcreate eq_refl eq_refl eq_refl eq_refl Hnonce eq_refl)
    as (st2 & Hupdate & Hstored & _).
  exists st2. split; [exact Hupdate|exact Hstored].
Defined.

(** X26. [_complete_dialogue_reference] pops before it asserts.  When the
    dialogue stored under the incomplete label of an inbound message already
    carries a complete label, [update_dialogue_label] fails its assertion
    after the dialogue was removed from the registry: [Dialogues.update]
    raises, the dictionary of dialogues is the one before the call without
    the entry of the incomplete label, and the promotions are as before. *)
Theorem update_drops_dialogue_with_completed_label {T : ProtocolTypes}
    {R : Dialogue.Rules} (st : Dialogues.t) (entropy : list Init.Byte.byte)
    (m : Message.t) (sender to : Address) (dialogue : Dialogue.t) :
  let agent := Dialogues._agent_address st in
  let incomplete :=
    DialogueLabel.mk (fst (Message.dialogue_reference m), UNASSIGNED_DIALOGUE_REFERENCE)
      sender agent in
  Message._sender m = Some sender →
  addr_eq sender agent = false →
  Message._to m = Some to →
  chars agent ≠ EmptyString →
  fst (Message.dialogue_reference m) ≠ UNASSIGNED_DIALOGUE_REFERENCE →
  snd (Message.dialogue_reference m) ≠ UNASSIGNED_DIALOGUE_REFERENCE →
  Dialogues.dialogues st !! DialogueLabel.key incomplete = Some dialogue →
  Dialogues.incomplete_to_complete_dialogue_labels st !! DialogueLabel.key incomplete
  = None →
  snd (DialogueLabel.dialogue_reference (Dialogue.dialogue_label dialogue))
  ≠ UNASSIGNED_DIALOGUE_REFERENCE →
  ∃ st',
    Dialogues.update entropy m st
    = (Raise (AssertionError "Dialogue label cannot be updated."), st')
    ∧ Dialogues.dialogues st' = delete (DialogueLabel.key incomplete) (Dialogues.dialogues st)
    ∧ Dialogues.dialogues st' !! DialogueLabel.key incomplete = None
    ∧ Dialogues.incomplete_to_complete_dialogue_labels st'
      = Dialogues.incomplete_to_complete_dialogue_labels st.
Proof.
  intros agent incomplete Hsender Hother Hto Hset Hfst Hsnd Hdialogue Hpromo Hlabel.
  eexists. split.
  - rewrite (update_unfold _ _ _ _ Hsender Hother (has_to_set _ _ Hto) Hset).
    unfold located, is_invalid_label, is_new_dialogue.
    rewrite (bool_decide_eq_false_2 _ Hfst), (bool_decide_eq_false_2 _ Hsnd); simpl.
    unfold Dialogues.bindM at 1.
    rewrite (_complete_dialogue_reference_pops m sender st dialogue Hsender Hset Hfst
               Hsnd Hdialogue Hpromo Hlabel).
    reflexivity.
  - simpl. split; [done|]. split; [apply lookup_delete_eq|done].
Qed.

Lemma update_drops_dialogue_with_completed_label_witness :
  ∃ st',
    Dialogues.update TProtocolNoCt.entropy2 TProtocolNoCt.message2
      (Dialogues.with_dialogues
         (<[DialogueLabel.key TProtocolNoCt.incomplete_label :=
              Dialogue.with_dialogue_label TProtocolNoCt.final_label
                TProtocolNoCt.dialogue1]> ∅)
         TProtocolNoCt.registry0)
    = (Raise (AssertionError "Dialogue label cannot be updated."), st')
    ∧ Dialogues.dialogues st' !! DialogueLabel.key TProtocolNoCt.incomplete_label = None.
Proof.
  assert (TProtocolNoCt.nonce1 ≠ UNASSIGNED_DIALOGUE_REFERENCE) as Hnonce1
    by (apply token_hex_drawn; reflexivity).
  assert (TProtocolNoCt.nonce2 ≠ UNASSIGNED_DIALOGUE_REFERENCE) as Hnonce2
    by (apply token_hex_drawn; reflexivity).
  assert (chars TProtocolNoCt.alice ≠ EmptyString) as Hset by discriminate.
  destruct (update_drops_dialogue_with_completed_label
              (Dialogues.with_dialogues
                 (<[DialogueLabel.key TProtocolNoCt.incomplete_label :=
                      Dialogue.with_dialogue_label TProtocolNoCt.final_label
                        TProtocolNoCt.dialogue1]> ∅)
                 TProtocolNoCt.registry0)
              TProtocolNoCt.entropy2 TProtocolNoCt.message2
              TProtocolNoCt.bob TProtocolNoCt.alice
              (Dialogue.with_dialogue_label TProtocolNoCt.final_label
                 TProtocolNoCt.dialogue1)
              eq_refl eq_refl eq_refl Hset Hnonce1 Hnonce2
              (lookup_insert_eq _ _ _) (lookup_empty _) Hnonce2)
    as (st' & Hupdate & _ & Hgone & _).
  exists st'. split; [exact Hupdate|exact Hgone].
Defined.

(** ** [Dialogues.update] against the specification *)

Section Keys.
Context {T : ProtocolTypes} {R : Dialogue.Rules}.
Implicit Types (st : Dialogues.t) (m message : Message.t) (k : LabelKey).

Lemma keys_insert st k dialogue :
  keys_invariant st →
  key_starter k = chars (Dialogues._agent_address st) ∨ key_starter k = key_opponent k →
  keys_invariant
    (Dialogues.with_dialogues (<[k := dialogue]> (Dialogues.dialogues st)) st).
Proof.
  intros Hst Hk k' dialogue' Hk'. simpl in *.
  destruct (decide (k = k')) as [<-|Hne]; [done|].
  rewrite lookup_insert_ne in Hk' by done. by apply (Hst k' dialogue').
Qed.

Lemma keys_insert_existing st k dialogue :
  keys_invariant st →
  is_Some (Dialogues.dialogues st !! k) →
  keys_invariant
    (Dialogues.with_dialogues (<[k := dialogue]> (Dialogues.dialogues st)) st).
Proof. intros Hst [d Hd]. apply keys_insert; [done|]. by apply (Hst k d). Qed.

Lemma keys_delete st k :
  keys_invariant st →
  keys_invariant (Dialogues.with_dialogues (delete k (Dialogues.dialogues st)) st).
Proof.
  intros Hst k' dialogue' Hk'. simpl in *.
  apply lookup_delete_Some in Hk' as [_ Hk']. by apply (Hst k' dialogue').
Qed.

Lemma keys_promotions st promotions :
  keys_invariant st →
  keys_invariant (Dialogues.with_incomplete_to_complete promotions st).
Proof. intros Hst k dialogue Hk. by apply (Hst k dialogue). Qed.

Lemma keys_label_completion st m sender :
  keys_invariant st → keys_invariant (label_completion st m sender).
Proof.
  intros Hst. unfold label_completion.
  destruct (Dialogues.dialogues st !! _) as [dialogue|]; [|done].
  destruct (Dialogues.incomplete_to_complete_dialogue_labels st !! _); [done|].
  apply keys_promotions.
  match goal with
  | |- keys_invariant
         (Dialogues.with_dialogues (<[?k := ?d]> (delete ?k0 _)) ?st0) =>
      exact (keys_insert
               (Dialogues.with_dialogues (delete k0 (Dialogues.dialogues st0)) st0) k d
               (keys_delete st0 k0 Hst) (or_introl eq_refl))
  end.
Qed.

Lemma _create_keys incomplete role complete st r st' :
  keys_invariant st →
  (let k := DialogueLabel.key (default incomplete complete) in
   key_starter k = chars (Dialogues._agent_address st)
   ∨ key_starter k = key_opponent k) →
  Dialogues._create incomplete role complete st = (r, st') →
  keys_invariant st'.
Proof.
  intros Hst Hk Hcreate. apply _create_inv in Hcreate. simpl in Hcreate.
  destruct Hcreate as [(_ & _ & ->)|(_ & [(_ & _ & ->)|[(_ & _ & _ & ->)
                                                        |(_ & _ & _ & ->)]])];
    [done| | |]; destruct complete as [c|]; simpl in *;
    try done; try (by apply keys_promotions).
  - match goal with
    | |- keys_invariant (Dialogues.with_dialogues (<[?k := ?d]> _) ?st1) =>
        apply (keys_insert st1 k d)
    end; [by apply keys_promotions|done].
  - by apply keys_insert.
Qed.

(** What [_complete_dialogue_reference] does when it returns: label
    completion, for a message with a complete reference. *)
Lemma _complete_dialogue_reference_Ok m sender st st1 :
  Message._sender m = Some sender →
  Dialogues._complete_dialogue_reference m st = (Ok tt, st1) →
  fst (Message.dialogue_reference m) ≠ UNASSIGNED_DIALOGUE_REFERENCE
  ∧ snd (Message.dialogue_reference m) ≠ UNASSIGNED_DIALOGUE_REFERENCE
  ∧ st1 = label_completion st m sender.
Proof.
  intros Hsender. unfold Dialogues._complete_dialogue_reference, label_completion.
  unfold Dialogues.bindM at 1. unfold Dialogues.lift at 1.
  destruct (assert_that _ _) eqn:Hassert; simpl; [|discriminate].
  apply assert_that_Ok, andb_true_iff in Hassert as [Hfst Hsnd].
  apply negb_true_iff, bool_decide_eq_false in Hfst.
  apply negb_true_iff, bool_decide_eq_false in Hsnd.
  unfold Dialogues.bindM at 1. unfold Dialogues.lift at 1.
  unfold Message.sender. rewrite Hsender.
  unfold Dialogues.bindM at 1.
  destruct (Dialogues.agent_address st) as [ra sta] eqn:Hagent.
  apply agent_address_inv in Hagent as [-> [[Hset ->]|[_ ->]]]; [|discriminate].
  unfold Dialogues.bindM at 1. unfold Dialogues.get at 1.
  destruct (Dialogues.dialogues st !! _) as [dialogue|] eqn:Hdialogue;
    [|by intros [= <-]].
  unfold Dialogues.contains.
  destruct (Dialogues.incomplete_to_complete_dialogue_labels st !! _) as [v|] eqn:Hv.
  - rewrite bool_decide_eq_true_2 by (by eexists). simpl. by intros [= <-].
  - rewrite bool_decide_eq_false_2 by (by intros [? ?]). simpl.
    unfold Dialogue.update_dialogue_label. unfold_M.
    destruct (assert_that _ _); simpl; [|discriminate]. by intros [= <-].
Qed.

(** The outcomes of [_complete_dialogue_reference]. *)
Lemma _complete_dialogue_reference_keys m st r st' :
  keys_invariant st →
  Dialogues._complete_dialogue_reference m st = (r, st') →
  keys_invariant st'.
Proof.
  intros Hst. unfold Dialogues._complete_dialogue_reference.
  unfold Dialogues.bindM at 1. unfold Dialogues.lift at 1.
  destruct (assert_that _ _); simpl; [|by intros [= <- <-]].
  unfold Dialogues.bindM at 1. unfold Dialogues.lift at 1.
  destruct (Message.sender m) as [sender|e]; [|by intros [= <- <-]].
  unfold Dialogues.bindM at 1.
  destruct (Dialogues.agent_address st) as [ra sta] eqn:Hagent.
  apply agent_address_inv in Hagent as [-> [[Hset ->]|[_ ->]]];
    [|by intros [= <- <-]].
  unfold Dialogues.bindM at 1. unfold Dialogues.get at 1.
  destruct (Dialogues.dialogues st !! _) as [dialogue|] eqn:Hdialogue;
    [|by intros [= <- <-]].
  destruct (Dialogues.contains _ _); simpl; [by intros [= <- <-]|].
  unfold_M.
  destruct (Dialogue.update_dialogue_label dialogue _) as [dialogue'|e] eqn:Hlabel;
    simpl; intros [= <- <-].
  - apply keys_promotions.
    match goal with
    | |- keys_invariant (Dialogues.with_dialogues (<[?k := ?d]> _) ?st1) =>
        apply (keys_insert st1 k d)
    end; [by apply keys_delete|].
    apply update_dialogue_label_Ok in Hlabel as (_ & _ & ->). by left.
  - by apply keys_delete.
Qed.

Lemma located_keys entropy m st r st' :
  keys_invariant st →
  located entropy m st = (r, st') →
  keys_invariant st'.
Proof.
  intros Hst. unfold located.
  destruct (is_invalid_label m); [by intros [= <- <-]|].
  destruct (is_new_dialogue m).
  - unfold Dialogues.bindM at 1. unfold Dialogues.lift at 1.
    destruct (Message.sender m) as [sender|e]; [|by intros [= <- <-]].
    unfold Dialogues.bindM at 1. unfold Dialogues.get at 1.
    unfold Dialogues.bindM at 1. unfold Dialogues._create_opponent_initiated.
    unfold Dialogues.bindM at 1. unfold Dialogues.lift at 1.
    destruct (assert_that _ _); simpl; [|by intros [= <- <-]].
    destruct (Dialogues._create _ _ _ st) as [rc st1] eqn:Hcreate.
    apply (_create_keys _ _ _ _ _ _ Hst) in Hcreate; [|by right].
    by destruct rc as [created|e]; unfold Dialogues.ret; intros [= <- <-].
  - unfold Dialogues.bindM.
    destruct (Dialogues._complete_dialogue_reference m st) as [rc st1] eqn:Hcomplete.
    apply (_complete_dialogue_reference_keys _ _ _ _ Hst) in Hcomplete.
    destruct rc as [[]|e]; [|by intros [= <- <-]].
    intros Hget. by pose proof (get_dialogue_state _ _ _ _ Hget) as ->.
Qed.

Lemma update_keys entropy m st r st' :
  stored_invariant st →
  keys_invariant st →
  Dialogues.update entropy m st = (r, st') →
  keys_invariant st'.
Proof.
  intros Hstored Hst H.
  destruct (update_cases _ _ _ _ _ H) as [->|(sender & Hsender & Hother & Hto & Hset)];
    [done|].
  rewrite (update_unfold _ _ _ _ Hsender Hother Hto Hset) in H.
  destruct (located entropy m st) as [rl st1] eqn:Hlocated.
  pose proof (located_keys _ _ _ _ _ Hst Hlocated) as Hst1.
  apply (located_stored _ _ _ _ _ Hstored) in Hlocated as (_ & _ & Hfound).
  destruct rl as [[[k dialogue]|]|e]; [|by injection H as _ <-..].
  apply update_in_place_inv in H
    as [(dialogue' & _ & H)|[(reason & _ & H)|(e & _ & _ & _ & ->)]];
    [|unfold_M; by injection H as _ <-|done].
  unfold_M. injection H as _ <-.
  apply keys_insert_existing; [done|]. rewrite (Hfound k dialogue eq_refl). by eexists.
Qed.

Lemma create_keys entropy counterparty performative kwargs st r st' :
  keys_invariant st →
  Dialogues.create entropy counterparty performative kwargs st = (r, st') →
  keys_invariant st'.
Proof.
  intros Hst H. apply create_outcome in H as [->|(dialogue & _ & ->)]; [done|].
  apply keys_insert; [done|by left].
Qed.

Lemma registry_reachable_keys st : registry_reachable st → keys_invariant st.
Proof.
  induction 1 as [agent role_from_first_message|st st' Hreach IH Hstep].
  { intros k dialogue Hk. simpl in Hk. by rewrite lookup_empty in Hk. }
  pose proof (registry_reachable_stored st Hreach) as Hstored.
  revert Hstored IH. clear Hreach.
  destruct Hstep
    as [st0 entropy counterparty performative kwargs r st0' _ H
       | st0 entropy m r st0' Hdrawn H
       | st0 k dialogue m dialogue' Hk H
       | st0 k dialogue tm performative kwargs reply dialogue' Hk H
       | st0 k dialogue label dialogue' Hk H]; intros Hstored Hst.
  - exact (create_keys _ _ _ _ _ _ _ Hst H).
  - exact (update_keys _ _ _ _ _ Hstored Hst H).
  - apply keys_insert_existing; [done|by eexists].
  - apply keys_insert_existing; [done|by eexists].
  - apply keys_insert_existing; [done|by eexists].
Qed.

End Keys.

Section UpdateAgainstSpec.
Context {T : ProtocolTypes} {R : Dialogue.Rules}.
Implicit Types (st : Dialogues.t) (m message : Message.t) (k : LabelKey).

Lemma label_completion_agent st m sender :
  Dialogues._agent_address (label_completion st m sender) = Dialogues._agent_address st.
Proof.
  unfold label_completion.
  destruct (Dialogues.dialogues st !! _); [|done].
  by destruct (Dialogues.incomplete_to_complete_dialogue_labels st !! _).
Qed.

(** Label completion does not touch the dialogues that the sender
    started. *)
Lemma label_completion_opponent_initiated st m sender :
  registry_invariant st →
  addr_eq sender (Dialogues._agent_address st) = false →
  snd (Message.dialogue_reference m) ≠ UNASSIGNED_DIALOGUE_REFERENCE →
  Dialogues.get_dialogue_from_label st (opponent_initiated_candidate st m sender) = None →
  Dialogues.get_dialogue_from_label (label_completion st m sender)
    (opponent_initiated_candidate (label_completion st m sender) m sender) = None.
Proof.
  intros Hinv Hother Hsnd Hnone. unfold label_completion.
  destruct (Dialogues.dialogues st !! _) as [dialogue|] eqn:Hdialogue; [|done].
  destruct (Dialogues.incomplete_to_complete_dialogue_labels st !! _) eqn:Hpromo;
    [done|].
  assert (chars sender ≠ chars (Dialogues._agent_address st)) as Hne.
  { unfold addr_eq in Hother. by apply bool_decide_eq_false in Hother. }
  assert (Dialogues.incomplete_to_complete_dialogue_labels st
          !! DialogueLabel.key
               (DialogueLabel.mk (Message.dialogue_reference m) sender sender) = None)
    as Hplain by (by apply complete_not_promoted).
  unfold opponent_initiated_candidate, Dialogues.get_latest_label,
    Dialogues.get_dialogue_from_label in *.
  rewrite Hplain in Hnone. simpl in Hnone.
  cbn [Dialogues.incomplete_to_complete_dialogue_labels Dialogues.dialogues
       Dialogues.with_incomplete_to_complete Dialogues.with_dialogues
       Dialogues._agent_address].
  rewrite (lookup_insert_ne (Dialogues.incomplete_to_complete_dialogue_labels st))
    by (intros Heq; apply Hne; by injection Heq).
  rewrite Hplain. simpl.
  rewrite lookup_insert_ne by (intros Heq; apply Hne; by injection Heq).
  rewrite lookup_delete_ne by (intros Heq; apply Hne; by injection Heq).
  exact Hnone.
Qed.

(** In a registry that keeps its invariants, [get_dialogue] returns for
    an inbound message with a complete reference the dialogue that matches
    the reconstructed label, provided the registry holds no dialogue that
    the sender started under the reference of the message. *)
Lemma get_dialogue_is_matching st m sender to :
  registry_invariant st →
  keys_invariant st →
  Message._sender m = Some sender →
  addr_eq sender (Dialogues._agent_address st) = false →
  Message._to m = Some to →
  chars (Dialogues._agent_address st) ≠ EmptyString →
  snd (Message.dialogue_reference m) ≠ UNASSIGNED_DIALOGUE_REFERENCE →
  Dialogues.get_dialogue_from_label st (opponent_initiated_candidate st m sender) = None →
  Dialogues.get_dialogue m st = (Ok (matching_dialogue st m sender), st).
Proof.
  intros Hinv Hkeys Hsender Hother Hto Hset Hsnd Hnone.
  rewrite (get_dialogue_inbound _ _ _ _ Hsender Hother Hto Hset).
  unfold matching_dialogue. rewrite Hnone.
  assert (∀ starter,
            Dialogues.get_latest_label st
              (DialogueLabel.mk (Message.dialogue_reference m) sender starter)
            = DialogueLabel.mk (Message.dialogue_reference m) sender starter)
    as Hlatest.
  { intros starter. unfold Dialogues.get_latest_label.
    by rewrite (complete_not_promoted st _ Hinv). }
  unfold self_initiated_candidate, opponent_initiated_candidate in *.
  rewrite !Hlatest in *.
  unfold Dialogues.get_dialogue_from_label in *.
  destruct (Dialogues.dialogues st
            !! DialogueLabel.key
                 (DialogueLabel.mk (Message.dialogue_reference m) sender
                    (Dialogues._agent_address st))) as [own|] eqn:Hown; [done|].
  destruct (Dialogues.dialogues st
            !! DialogueLabel.key
                 (DialogueLabel.mk (Message.dialogue_reference m) sender to))
    as [other|] eqn:Hto_key; [|done].
  exfalso. destruct (Hkeys _ _ Hto_key) as [Hstarter|Hstarter];
    unfold key_starter, key_opponent, DialogueLabel.key in Hstarter;
    simpl in Hstarter.
  - assert (DialogueLabel.key
              (DialogueLabel.mk (Message.dialogue_reference m) sender to)
            = DialogueLabel.key
                (DialogueLabel.mk (Message.dialogue_reference m) sender
                   (Dialogues._agent_address st))) as Hkey.
    { unfold DialogueLabel.key; simpl. by rewrite Hstarter. }
    rewrite Hkey, Hown in Hto_key. discriminate Hto_key.
  - destruct (Dialogues.dialogues st
              !! DialogueLabel.key
                   (DialogueLabel.mk (Message.dialogue_reference m) sender sender))
      eqn:Hopp; [done|].
    assert (DialogueLabel.key
              (DialogueLabel.mk (Message.dialogue_reference m) sender to)
            = DialogueLabel.key
                (DialogueLabel.mk (Message.dialogue_reference m) sender sender))
      as Hkey.
    { unfold DialogueLabel.key; simpl. by rewrite Hstarter. }
    rewrite Hkey, Hopp in Hto_key. discriminate Hto_key.
Qed.

Lemma is_new_dialogue_true m :
  is_new_dialogue m = true →
  ∃ r0, Message.dialogue_reference m = (r0, UNASSIGNED_DIALOGUE_REFERENCE)
        ∧ r0 ≠ UNASSIGNED_DIALOGUE_REFERENCE
        ∧ Message.message_id m = 1.
Proof.
  unfold is_new_dialogue. destruct (Message.dialogue_reference m) as [r0 r1]; simpl.
  rewrite !andb_true_iff, negb_true_iff, bool_decide_eq_false, bool_decide_eq_true.
  intros [[Hr0 ->] Hid]. exists r0. split; [done|]. split; [done|lia].
Qed.

Lemma is_invalid_label_true m :
  is_invalid_label m = true ↔
  Message.dialogue_reference m
  = (UNASSIGNED_DIALOGUE_REFERENCE, UNASSIGNED_DIALOGUE_REFERENCE).
Proof.
  unfold is_invalid_label. destruct (Message.dialogue_reference m) as [r0 r1]; simpl.
  rewrite andb_true_iff, !bool_decide_eq_true. split; [by intros [-> ->]|].
  by intros [= -> ->].
Qed.

Lemma accepted_message_is_logged dialogue m sender dialogue' :
  Message._sender m = Some sender →
  Dialogue.update dialogue m = Ok dialogue' →
  m ∈ Dialogue.outgoing_messages dialogue' ++ Dialogue.incoming_messages dialogue'.
Proof.
  intros Hsender Hupdate.
  apply update_Ok in Hupdate as (_ & _ & _ & _ & [[_ ->]|[_ ->]]);
    rewrite (stamped_has_sender _ _ _ Hsender); simpl; in_logs.
Qed.

(** [Dialogues.update], when it returns, against the reading of the
    specification. *)
Lemma update_against_specification st st' entropy m sender r :
  registry_invariant st →
  keys_invariant st →
  Message._sender m = Some sender →
  addr_eq sender (Dialogues._agent_address st) = false →
  Message.has_to m = true →
  Dialogues.update entropy m st = (Ok r, st') →
  Dialogues.get_dialogue_from_label st (opponent_initiated_candidate st m sender) = None →
  let completed := label_completion st m sender in
  let created := created_dialogue st entropy m sender in
  (r = None ↔
     Message.dialogue_reference m
     = (UNASSIGNED_DIALOGUE_REFERENCE, UNASSIGNED_DIALOGUE_REFERENCE)
     ∨ (is_new_dialogue m = false ∧ matching_dialogue completed m sender = None)
     ∨ (∃ reason,
          (is_new_dialogue m = true
           ∧ Dialogue.update created m = Raise (InvalidDialogueMessage reason))
          ∨ (is_new_dialogue m = false
             ∧ ∃ k dialogue,
                 matching_dialogue completed m sender = Some (k, dialogue)
                 ∧ Dialogue.update dialogue m = Raise (InvalidDialogueMessage reason))))
  ∧ (∀ dialogue', r = Some dialogue' →
       ∃ k dialogue,
         ((is_new_dialogue m = true ∧ dialogue = created)
          ∨ (is_new_dialogue m = false
             ∧ matching_dialogue completed m sender = Some (k, dialogue)))
         ∧ Dialogue.update dialogue m = Ok dialogue'
         ∧ m ∈ Dialogue.outgoing_messages dialogue'
               ++ Dialogue.incoming_messages dialogue'
         ∧ Dialogues.dialogues st' !! k = Some dialogue').
Proof.
  intros Hinv Hkeys Hsender Hother Hhas_to H Hnone completed created.
  pose proof (update_returns_agent_set _ _ _ _ _ _ Hsender H) as Hset.
  assert (∃ to, Message._to m = Some to) as [to Hto].
  { unfold Message.has_to in Hhas_to. apply bool_decide_eq_true in Hhas_to as [to Hto].
    by exists to. }
  destruct (is_invalid_label m) eqn:Hinvalid.
  { rewrite (update_unfold _ _ _ _ Hsender Hother Hhas_to Hset) in H.
    unfold located in H. rewrite Hinvalid in H. unfold_M. injection H as <- <-.
    split; [|discriminate]. split; [|done]. intros _. left.
    by apply is_invalid_label_true. }
  assert (Message.dialogue_reference m
          ≠ (UNASSIGNED_DIALOGUE_REFERENCE, UNASSIGNED_DIALOGUE_REFERENCE)) as Hvalid.
  { intros Href. apply is_invalid_label_true in Href. congruence. }
  destruct (is_new_dialogue m) eqn:Hnew.
  { destruct (is_new_dialogue_true m Hnew) as (r0 & Href & Hr0 & Hid).
    rewrite (update_first_message entropy m sender to r0 st Hsender Hother Hto Hset
               Href Hr0 Hid) in H.
    assert (created
            = Dialogue.init (DialogueLabel.mk (r0, token_hex entropy) sender sender)
                (Dialogues._agent_address st) (Dialogues._role_from_first_message st m))
      as Hcreated by (unfold created, created_dialogue; by rewrite Href).
    rewrite <- Hcreated in H.
    destruct (Dialogues.incomplete_to_complete_dialogue_labels st !! _);
      [discriminate H|].
    destruct (Dialogues.dialogues st !! _); [discriminate H|].
    destruct (Dialogue.update created m) as [dialogue'|e] eqn:Hupdate.
    - injection H as <- <-. split.
      + split; [discriminate|].
        intros [?|[[? _]|[reason [[_ ?]|[? _]]]]]; done.
      + intros d' [= <-].
        exists (DialogueLabel.key
                  (DialogueLabel.mk (r0, token_hex entropy) sender sender)), created.
        split; [by left|]. split; [done|].
        split; [by apply (accepted_message_is_logged created m sender)|].
        simpl. apply lookup_insert_eq.
    - destruct e; try discriminate H. injection H as <- <-.
      split; [|discriminate]. split; [|done]. intros _.
      right; right. exists reason. by left. }
  rewrite (update_unfold _ _ _ _ Hsender Hother Hhas_to Hset) in H.
  unfold located in H. rewrite Hinvalid, Hnew in H.
  unfold Dialogues.bindM at 1 in H.
  destruct (Dialogues._complete_dialogue_reference m st) as [[[]|e] st1] eqn:Hcomplete;
    [|discriminate H].
  pose proof (_complete_dialogue_reference_evolves _ _ _ _ Hcomplete)
    as (Hinv1 & _ & Hagent1).
  apply (_complete_dialogue_reference_Ok _ sender) in Hcomplete
    as (Hfst & Hsnd & Hst1); [|done].
  fold completed in Hst1. subst st1.
  specialize (Hinv1 Hinv).
  pose proof (keys_label_completion st m sender Hkeys) as Hkeys1.
  fold completed in Hkeys1.
  pose proof (label_completion_opponent_initiated st m sender Hinv Hother Hsnd Hnone)
    as Hnone1.
  fold completed in Hnone1.
  rewrite <- Hagent1 in Hother, Hset.
  rewrite (get_dialogue_is_matching completed m sender to Hinv1 Hkeys1 Hsender Hother
             Hto Hset Hsnd Hnone1) in H.
  destruct (matching_dialogue completed m sender) as [[k dialogue]|] eqn:Hmatch.
  - apply update_in_place_inv in H
      as [(dialogue' & Hupdate & H)|[(reason & Hupdate & H)|(e & _ & _ & ? & _)]];
      [| |discriminate]; unfold_M; injection H as <- <-.
    + split.
      * split; [discriminate|].
        intros [?|[[_ ?]|[reason [[? _]|[_ (k' & d & [= _ <-] & Hd)]]]]];
          try done. congruence.
      * intros d' [= <-]. exists k, dialogue.
        split; [by right|]. split; [done|].
        split; [by apply (accepted_message_is_logged dialogue m sender)|].
        simpl. apply lookup_insert_eq.
    + split; [|discriminate]. split; [|done]. intros _.
      right; right. exists reason. right. split; [done|]. by exists k, dialogue.
  - injection H as <- <-. split; [|discriminate]. split; [|done]. intros _.
    right; left. done.
Qed.

End UpdateAgainstSpec.

(** Why the amended C4 leaves out a registry that holds a dialogue under
    the opponent-initiated label of the message.  The second message of bob
    matches, under that label, the dialogue that bob started, also once the
    label was completed; it is the message of C1, on which [get_dialogue]
    looks under another label and [update] returns [None]. *)
Lemma second_of_bob_matches :
  Dialogues.get_dialogue_from_label TProtocolNoCt.registry_of_bob
    (opponent_initiated_candidate TProtocolNoCt.registry_of_bob
       TProtocolNoCt.second_of_bob TProtocolNoCt.bob)
  = Some (DialogueLabel.key TProtocolNoCt.bob_complete_label,
          TProtocolNoCt.dialogue_of_bob)
  ∧ matching_dialogue
      (label_completion TProtocolNoCt.registry_of_bob TProtocolNoCt.second_of_bob
         TProtocolNoCt.bob)
      TProtocolNoCt.second_of_bob TProtocolNoCt.bob
    = Some (DialogueLabel.key TProtocolNoCt.bob_complete_label,
            TProtocolNoCt.dialogue_of_bob).
Proof.
  assert (label_completion TProtocolNoCt.registry_of_bob TProtocolNoCt.second_of_bob
            TProtocolNoCt.bob = TProtocolNoCt.registry_of_bob) as ->.
  { unfold label_completion, TProtocolNoCt.registry_of_bob; simpl.
    rewrite lookup_insert_ne by distinct_keys. by rewrite lookup_empty. }
  assert (Dialogues.get_dialogue_from_label TProtocolNoCt.registry_of_bob
            (opponent_initiated_candidate TProtocolNoCt.registry_of_bob
               TProtocolNoCt.second_of_bob TProtocolNoCt.bob)
          = Some (DialogueLabel.key TProtocolNoCt.bob_complete_label,
                  TProtocolNoCt.dialogue_of_bob)) as Hother.
  { unfold opponent_initiated_candidate, Dialogues.get_latest_label,
      Dialogues.get_dialogue_from_label, TProtocolNoCt.registry_of_bob; simpl.
    rewrite (lookup_insert_ne _ (DialogueLabel.key TProtocolNoCt.bob_incomplete_label))
      by distinct_keys.
    rewrite lookup_empty; simpl.
    change (DialogueLabel.key _) with (DialogueLabel.key TProtocolNoCt.bob_complete_label).
    by rewrite lookup_insert_eq. }
  split; [exact Hother|].
  unfold matching_dialogue. rewrite Hother.
  unfold self_initiated_candidate, Dialogues.get_latest_label,
    Dialogues.get_dialogue_from_label, TProtocolNoCt.registry_of_bob; simpl.
  rewrite (lookup_insert_ne _ (DialogueLabel.key TProtocolNoCt.bob_incomplete_label))
    by distinct_keys.
  rewrite lookup_empty; simpl.
  rewrite lookup_insert_ne by distinct_keys. by rewrite lookup_empty.
Qed.

(** C4, amended.  In a registry reached through [create], [update] and
    the methods of its dialogues, take an inbound message (its sender is not
    the agent, its receiver is set) on which [Dialogues.update] returns
    rather than raises, the registry holding no dialogue under the
    opponent-initiated label of the message.  Then [update] returns [None]
    exactly when the reference of the message is [("", "")], or the message
    is not a first message and, once the label was completed, no dialogue of
    the registry matches the reconstructed label of the message, or the
    dialogue that matches, or the one created for a first message, rejects
    the message with [InvalidDialogueMessage].  Otherwise it returns the new
    or matching dialogue with the message appended, as the registry now
    holds it. *)
Theorem update_returns_None_iff {T : ProtocolTypes} {R : Dialogue.Rules}
    (st st' : Dialogues.t) (entropy : list Init.Byte.byte) (m : Message.t)
    (sender : Address) (r : option Dialogue.t) :
  registry_reachable st →
  Message._sender m = Some sender →
  addr_eq sender (Dialogues._agent_address st) = false →
  Message.has_to m = true →
  Dialogues.update entropy m st = (Ok r, st') →
  Dialogues.get_dialogue_from_label st (opponent_initiated_candidate st m sender) = None →
  let completed := label_completion st m sender in
  let created := created_dialogue st entropy m sender in
  (r = None ↔
     Message.dialogue_reference m
     = (UNASSIGNED_DIALOGUE_REFERENCE, UNASSIGNED_DIALOGUE_REFERENCE)
     ∨ (is_new_dialogue m = false ∧ matching_dialogue completed m sender = None)
     ∨ (∃ reason,
          (is_new_dialogue m = true
           ∧ Dialogue.update created m = Raise (InvalidDialogueMessage reason))
          ∨ (is_new_dialogue m = false
             ∧ ∃ k dialogue,
                 matching_dialogue completed m sender = Some (k, dialogue)
                 ∧ Dialogue.update dialogue m = Raise (InvalidDialogueMessage reason))))
  ∧ (∀ dialogue', r = Some dialogue' →
       ∃ k dialogue,
         ((is_new_dialogue m = true ∧ dialogue = created)
          ∨ (is_new_dialogue m = false
             ∧ matching_dialogue completed m sender = Some (k, dialogue)))
         ∧ Dialogue.update dialogue m = Ok dialogue'
         ∧ m ∈ Dialogue.outgoing_messages dialogue'
               ++ Dialogue.incoming_messages dialogue'
         ∧ Dialogues.dialogues st' !! k = Some dialogue').
Proof.
  intros Hreach. apply update_against_specification.
  - by apply registry_reachable_invariant.
  - by apply registry_reachable_keys.
Qed.

Lemma update_returns_None_iff_witness :
  Dialogues.update TProtocolNoCt.entropy2 TProtocolNoCt.message2
    TProtocolNoCt.registry_created
  = (Ok (Some TProtocolNoCt.dialogue2_promoted), TProtocolNoCt.registry_promoted)
  ∧ ∃ k dialogue,
      matching_dialogue
        (label_completion TProtocolNoCt.registry_created TProtocolNoCt.message2
           TProtocolNoCt.bob)
        TProtocolNoCt.message2 TProtocolNoCt.bob = Some (k, dialogue)
      ∧ Dialogue.update dialogue TProtocolNoCt.message2
        = Ok TProtocolNoCt.dialogue2_promoted.
Proof.
  assert (registry_reachable TProtocolNoCt.registry_created) as Hreach.
  { apply (registry_next TProtocolNoCt.registry0); [apply registry_init|].
    apply step_create
      with (entropy := TProtocolNoCt.entropy1) (counterparty := TProtocolNoCt.bob)
           (performative := TProtocolNoCt.PERFORMATIVE_PT) (kwargs := tt)
           (r := Ok (TProtocolNoCt.message1, TProtocolNoCt.dialogue1));
      [reflexivity|].
    apply create_accepted; (discriminate || reflexivity). }
  assert (Dialogues.update TProtocolNoCt.entropy2 TProtocolNoCt.message2
            TProtocolNoCt.registry_created
          = (Ok (Some TProtocolNoCt.dialogue2_promoted), TProtocolNoCt.registry_promoted))
    as Hupdate.
  { apply (update_promotes TProtocolNoCt.entropy2 TProtocolNoCt.message2
             TProtocolNoCt.bob TProtocolNoCt.alice TProtocolNoCt.nonce1
             TProtocolNoCt.nonce2 TProtocolNoCt.registry_created
             TProtocolNoCt.dialogue1 TProtocolNoCt.dialogue2_promoted);
      first [apply lookup_insert_eq | apply lookup_empty | discriminate | reflexivity]. }
  assert (Dialogues.get_dialogue_from_label TProtocolNoCt.registry_created
            (opponent_initiated_candidate TProtocolNoCt.registry_created
               TProtocolNoCt.message2 TProtocolNoCt.bob) = None) as Hnone.
  { unfold opponent_initiated_candidate, Dialogues.get_latest_label,
      Dialogues.get_dialogue_from_label, TProtocolNoCt.registry_created; simpl.
    rewrite lookup_empty; simpl.
    rewrite (lookup_insert_ne _ (DialogueLabel.key TProtocolNoCt.incomplete_label))
      by distinct_keys.
    rewrite lookup_empty. reflexivity. }
  split; [exact Hupdate|].
  destruct (update_returns_None_iff TProtocolNoCt.registry_created
              TProtocolNoCt.registry_promoted TProtocolNoCt.entropy2
              TProtocolNoCt.message2 TProtocolNoCt.bob
              (Some TProtocolNoCt.dialogue2_promoted)
              Hreach eq_refl eq_refl eq_refl Hupdate Hnone) as [_ Hsome].
  destruct (Hsome TProtocolNoCt.dialogue2_promoted eq_refl)
    as (k & dialogue & [[Hnew _]|[_ Hmatch]] & Haccepted & _).
  - vm_compute in Hnew. discriminate Hnew.
  - exists k, dialogue. split; [exact Hmatch|exact Haccepted].
Defined.
